(** * AgentEscrow: a shallow embedding of the escrow contract and its properties

    The development follows the Solidity contract [AgentEscrow] (the job
    escrow state machine with its USDC custody) and the status table of the
    JavaScript client ([JOB_STATUS] in [src/index.js]).

    - [uint256], [address] and [bytes32] values are naturals of type [N];
      checked arithmetic (Solidity 0.8) is written out: an addition whose
      result does not fit in 256 bits panics and the call reverts.
    - [mapping] storage is a [gmap] read with the all-zero default.
    - A call either returns the new state or reverts with an error; a
      reverted call has no effect, so it simply produces no successor state.
    - [keccak256] and the address of the contract are parameters.
    - The asset token is a ledger of balances and allowances with a set of
      accounts it does not deliver to; a transfer to one of them, or to the
      zero address, reverts. Other accounts can send the asset to the
      contract at any time. The token makes no call back into the contract,
      so the reentrancy guard of the contract never fires and is left
      out. *)

From Stdlib Require Import NArith Lia.
From stdpp Require Import base option numbers list strings gmap fin_maps relations.

Open Scope N_scope.

(** ** Values *)

(** [address], [bytes32] and [uint256] are all carried by [N]. *)

Definition UINT256_MOD : N := 2 ^ 256.
Definition address0 : N := 0.

Definition days : N := 86400.
Definition MIN_AMOUNT : N := 1000000.
Definition MAX_DURATION : N := 30 * days.
(** The literal [7 days] of [resolveDispute]. *)
Definition RESOLUTION_PERIOD : N := 7 * days.

(** ** Errors *)

(** The [require] messages of the contract, one constructor per message. *)
Inductive reason :=
  | AmountTooSmall
  | InvalidDuration
  | JobHashRequired
  | JobNotAvailable
  | WorkerAlreadyAssigned
  | ClientCannotBeWorker
  | JobExpired
  | OnlyClientCanComplete
  | InvalidStatus
  | NoWorkerAssigned
  | OnlyClientCanCancel
  | CannotCancel
  | WorkerAssignedUseDispute
  | NotAParty
  | CannotDispute
  | NotDisputed
  | ResolutionPeriodNotEnded.

Definition message (r : reason) : string :=
  match r with
  | AmountTooSmall => "Amount too small"
  | InvalidDuration => "Invalid duration"
  | JobHashRequired => "Job hash required"
  | JobNotAvailable => "Job not available"
  | WorkerAlreadyAssigned => "Worker already assigned"
  | ClientCannotBeWorker => "Client cannot be worker"
  | JobExpired => "Job expired"
  | OnlyClientCanComplete => "Only client can complete"
  | InvalidStatus => "Invalid status"
  | NoWorkerAssigned => "No worker assigned"
  | OnlyClientCanCancel => "Only client can cancel"
  | CannotCancel => "Cannot cancel"
  | WorkerAssignedUseDispute => "Worker assigned, use dispute"
  | NotAParty => "Not a party"
  | CannotDispute => "Cannot dispute"
  | NotDisputed => "Not disputed"
  | ResolutionPeriodNotEnded => "Resolution period not ended"
  end.

Inductive token_failure := InsufficientBalance | InsufficientAllowance | ReceiverRefused.

Inductive error :=
  | Revert (r : reason)
  | Panic
  | TokenRevert (f : token_failure).

Inductive error_kind :=
  | ValidationError
  | AuthorizationError
  | StateError
  | TimingError
  | InsufficientFunds
  | TransferFailure
  | ArithmeticPanic.

(** Modelled from the spec: the contract reverts with messages only; the
    error taxonomy (which guard belongs to which kind) is the one of the
    specification's interface section. *)
Definition kind_of (e : error) : error_kind :=
  match e with
  | Revert AmountTooSmall | Revert InvalidDuration | Revert JobHashRequired =>
      ValidationError
  | Revert ClientCannotBeWorker | Revert OnlyClientCanComplete
  | Revert OnlyClientCanCancel | Revert NotAParty =>
      AuthorizationError
  | Revert JobNotAvailable | Revert WorkerAlreadyAssigned | Revert InvalidStatus
  | Revert NoWorkerAssigned | Revert CannotCancel
  | Revert WorkerAssignedUseDispute | Revert CannotDispute | Revert NotDisputed =>
      StateError
  | Revert JobExpired | Revert ResolutionPeriodNotEnded => TimingError
  | TokenRevert InsufficientBalance | TokenRevert InsufficientAllowance =>
      InsufficientFunds
  | TokenRevert ReceiverRefused => TransferFailure
  | Panic => ArithmeticPanic
  end.

Inductive result (A : Type) :=
  | Ok (a : A)
  | Err (e : error).
Arguments Ok {A} a.
Arguments Err {A} e.

Global Instance result_ret : MRet result := fun A a => Ok a.
Global Instance result_bind : MBind result := fun A B f m =>
  match m with
  | Ok a => f a
  | Err e => Err e
  end.

Definition require (b : bool) (r : reason) : result unit :=
  if b then Ok tt else Err (Revert r).

(** Checked [uint256] addition. *)
Definition checked_add (a b : N) : result N :=
  if bool_decide (a + b < UINT256_MOD) then Ok (a + b) else Err Panic.

(** ** The asset token *)

(** Balances, allowances, and the accounts the token does not deliver to. *)
Record Token := {
  balances : gmap N N;
  allowances : gmap (N * N) N;
  refusing : gset N
}.

Definition balanceOf (t : Token) (a : N) : N := default 0 (balances t !! a).
Definition allowance (t : Token) (owner spender : N) : N :=
  default 0 (allowances t !! (owner, spender)).

(** Modelled from the spec: a destination can reject receipt. The zero
    address never receives (the rule of the standard token), and the token
    may refuse further accounts. *)
Definition accepts (t : Token) (to : N) : Prop :=
  to ≠ address0 ∧ to ∉ refusing t.

Global Instance accepts_dec t to : Decision (accepts t to).
Proof. unfold accepts. apply _. Defined.

(** The ledger entry of a transfer of [amt] from [from] to [to]. *)
Definition move (from to amt : N) (t : Token) : Token :=
  let b1 := <[from := balanceOf t from - amt]> (balances t) in
  let b2 := <[to := default 0 (b1 !! to) + amt]> b1 in
  {| balances := b2; allowances := allowances t; refusing := refusing t |}.

(** Modelled from the spec: the token contract is an external collaborator.
    [push] ([transfer], called by the holder) moves held balance to an
    account and fails when the destination rejects receipt; it also fails
    when the holder lacks the balance. *)
Definition transfer (from to amt : N) (t : Token) : result Token :=
  if bool_decide (accepts t to) then
    if bool_decide (amt ≤ balanceOf t from) then Ok (move from to amt t)
    else Err (TokenRevert InsufficientBalance)
  else Err (TokenRevert ReceiverRefused).

(** Modelled from the spec: [pull] ([transferFrom], called by the spender)
    moves an account's balance into custody and fails when the source has
    not authorised the transfer or lacks the balance. The spec gives a pull
    no other failure; its destination is always the contract itself. *)
Definition transferFrom (spender from to amt : N) (t : Token) : result Token :=
  if bool_decide (amt ≤ allowance t from spender) then
    if bool_decide (amt ≤ balanceOf t from) then
      Ok (move from to amt
            {| balances := balances t;
               allowances := <[(from, spender) := allowance t from spender - amt]>
                               (allowances t);
               refusing := refusing t |})
    else Err (TokenRevert InsufficientBalance)
  else Err (TokenRevert InsufficientAllowance).

(** ** Jobs *)

Inductive JobStatus := Created | Funded | Completed | Disputed | Resolved | Cancelled.

Global Instance JobStatus_eq_dec : EqDecision JobStatus.
Proof. solve_decision. Defined.

Record Job := {
  client : N;
  worker : N;
  amount : N;
  deadline : N;
  jobHash : string;
  status : JobStatus;
  createdAt : N
}.

(** The value of a storage slot that was never written. *)
Definition Job0 : Job :=
  {| client := 0; worker := 0; amount := 0; deadline := 0;
     jobHash := ""; status := Created; createdAt := 0 |}.

Definition set_status (st : JobStatus) (j : Job) : Job :=
  {| client := client j; worker := worker j; amount := amount j;
     deadline := deadline j; jobHash := jobHash j; status := st;
     createdAt := createdAt j |}.

Definition set_worker (w : N) (j : Job) : Job :=
  {| client := client j; worker := w; amount := amount j;
     deadline := deadline j; jobHash := jobHash j; status := status j;
     createdAt := createdAt j |}.

Inductive event :=
  | JobCreated (jobId client amount : N) (jobHash : string)
  | JobFunded (jobId client : N)
  | JobAccepted (jobId worker : N)
  | JobCompleted (jobId worker payout : N)
  | JobDisputed (jobId disputer : N)
  | JobCancelled (jobId client : N)
  | DisputeResolved (jobId winner amount : N).

Record State := {
  usdc : Token;
  jobs : gmap N Job;
  agentJobs : gmap N (list N);
  jobCount : N;
  events : list event
}.

(** [msg.sender] and [block.timestamp]. *)
Record Env := {
  msg_sender : N;
  block_timestamp : N
}.

(** [jobs[jobId]] *)
Definition job_at (s : State) (jobId : N) : Job := default Job0 (jobs s !! jobId).
(** [agentJobs[agent]] *)
Definition agent_jobs_at (s : State) (agent : N) : list N :=
  default [] (agentJobs s !! agent).

Definition with_job (jobId : N) (j : Job) (s : State) : State :=
  {| usdc := usdc s; jobs := <[jobId := j]> (jobs s); agentJobs := agentJobs s;
     jobCount := jobCount s; events := events s |}.

Definition with_usdc (t : Token) (s : State) : State :=
  {| usdc := t; jobs := jobs s; agentJobs := agentJobs s;
     jobCount := jobCount s; events := events s |}.

Definition push_agent_job (agent jobId : N) (s : State) : State :=
  {| usdc := usdc s; jobs := jobs s;
     agentJobs := <[agent := agent_jobs_at s agent ++ [jobId]]> (agentJobs s);
     jobCount := jobCount s; events := events s |}.

Definition emit (ev : event) (s : State) : State :=
  {| usdc := usdc s; jobs := jobs s; agentJobs := agentJobs s;
     jobCount := jobCount s; events := events s ++ [ev] |}.

Definition with_jobCount (n : N) (s : State) : State :=
  {| usdc := usdc s; jobs := jobs s; agentJobs := agentJobs s;
     jobCount := n; events := events s |}.

(** ** The contract *)

Section Contract.

(** [keccak256(abi.encodePacked(sender, worker, amount, timestamp, counter))] *)
Variable keccak256 : N → N → N → N → N → N.
(** [address(this)] *)
Variable this : N.

Definition createJob (e : Env) (worker amount duration : N) (jobHash : string)
    (s : State) : result (N * State) :=
  _ ← require (bool_decide (MIN_AMOUNT ≤ amount)) AmountTooSmall;
  _ ← require (bool_decide (0 < duration) && bool_decide (duration ≤ MAX_DURATION))
        InvalidDuration;
  _ ← require (bool_decide (0 < String.length jobHash)%nat) JobHashRequired;
  count' ← checked_add (jobCount s) 1;
  let jobId := keccak256 (msg_sender e) worker amount (block_timestamp e) (jobCount s) in
  let s := with_jobCount count' s in
  deadline ← checked_add (block_timestamp e) duration;
  let s := with_job jobId
             {| client := msg_sender e; worker := worker; amount := amount;
                deadline := deadline; jobHash := jobHash; status := Created;
                createdAt := block_timestamp e |} s in
  let s := push_agent_job (msg_sender e) jobId s in
  t ← transferFrom this (msg_sender e) this amount (usdc s);
  let s := with_usdc t s in
  let s := emit (JobCreated jobId (msg_sender e) amount jobHash) s in
  let s := emit (JobFunded jobId (msg_sender e)) s in
  Ok (jobId, s).

Definition acceptJob (e : Env) (jobId : N) (s : State) : result State :=
  let job := job_at s jobId in
  _ ← require (bool_decide (status job = Created)) JobNotAvailable;
  _ ← require (bool_decide (worker job = address0)) WorkerAlreadyAssigned;
  _ ← require (bool_decide (msg_sender e ≠ client job)) ClientCannotBeWorker;
  _ ← require (bool_decide (block_timestamp e < deadline job)) JobExpired;
  let job := set_worker (msg_sender e) job in
  let job := set_status Funded job in
  let s := with_job jobId job s in
  let s := push_agent_job (msg_sender e) jobId s in
  Ok (emit (JobAccepted jobId (msg_sender e)) s).

Definition completeJob (e : Env) (jobId : N) (s : State) : result State :=
  let job := job_at s jobId in
  _ ← require (bool_decide (msg_sender e = client job)) OnlyClientCanComplete;
  _ ← require (bool_decide (status job = Funded) || bool_decide (status job = Created))
        InvalidStatus;
  _ ← require (bool_decide (worker job ≠ address0)) NoWorkerAssigned;
  let job := set_status Completed job in
  let s := with_job jobId job s in
  t ← transfer this (worker job) (amount job) (usdc s);
  let s := with_usdc t s in
  Ok (emit (JobCompleted jobId (worker job) (amount job)) s).

Definition cancelJob (e : Env) (jobId : N) (s : State) : result State :=
  let job := job_at s jobId in
  _ ← require (bool_decide (msg_sender e = client job)) OnlyClientCanCancel;
  _ ← require (bool_decide (status job = Created)) CannotCancel;
  _ ← require (bool_decide (worker job = address0)
               || bool_decide (deadline job < block_timestamp e))
        WorkerAssignedUseDispute;
  let job := set_status Cancelled job in
  let s := with_job jobId job s in
  t ← transfer this (client job) (amount job) (usdc s);
  let s := with_usdc t s in
  Ok (emit (JobCancelled jobId (client job)) s).

Definition disputeJob (e : Env) (jobId : N) (s : State) : result State :=
  let job := job_at s jobId in
  _ ← require (bool_decide (msg_sender e = client job)
               || bool_decide (msg_sender e = worker job)) NotAParty;
  _ ← require (bool_decide (status job = Funded)) CannotDispute;
  let job := set_status Disputed job in
  let s := with_job jobId job s in
  Ok (emit (JobDisputed jobId (msg_sender e)) s).

Definition resolveDispute (e : Env) (jobId : N) (s : State) : result State :=
  let job := job_at s jobId in
  _ ← require (bool_decide (status job = Disputed)) NotDisputed;
  limit ← checked_add (deadline job) RESOLUTION_PERIOD;
  _ ← require (bool_decide (limit < block_timestamp e)) ResolutionPeriodNotEnded;
  let job := set_status Resolved job in
  let s := with_job jobId job s in
  t ← transfer this (client job) (amount job) (usdc s);
  let s := with_usdc t s in
  Ok (emit (DisputeResolved jobId (client job) (amount job)) s).

(** The view functions. *)
Definition getJob (jobId : N) (s : State)
    : N * N * N * N * string * JobStatus * N :=
  let job := job_at s jobId in
  (client job, worker job, amount job, deadline job, jobHash job, status job,
   createdAt job).

Definition getAgentJobs (agent : N) (s : State) : list N := agent_jobs_at s agent.

End Contract.

(** ** Calls, steps and reachable states *)

Inductive call :=
  | CreateJob (worker amount duration : N) (jobHash : string)
  | AcceptJob (jobId : N)
  | CompleteJob (jobId : N)
  | CancelJob (jobId : N)
  | DisputeJob (jobId : N)
  | ResolveDispute (jobId : N).

Section Execution.

Variable keccak256 : N → N → N → N → N → N.
Variable this : N.

Definition exec (e : Env) (c : call) (s : State) : result State :=
  match c with
  | CreateJob w a d h => r ← createJob keccak256 this e w a d h s; Ok (snd r)
  | AcceptJob jobId => acceptJob e jobId s
  | CompleteJob jobId => completeJob this e jobId s
  | CancelJob jobId => cancelJob this e jobId s
  | DisputeJob jobId => disputeJob e jobId s
  | ResolveDispute jobId => resolveDispute this e jobId s
  end.

(** A transaction is sent by an account: never by the zero address, and
    never by the contract itself, which makes no calls to its own
    functions. *)
Definition valid_env (e : Env) : Prop :=
  msg_sender e ≠ address0 ∧ msg_sender e ≠ this.

(** The balance of the asset held by the contract. *)
Definition held (s : State) : N := balanceOf (usdc s) this.

(** Token traffic the contract takes no part in: its storage is untouched,
    and since it gives no allowance nobody can take from its balance, but
    anybody can send to it; the rest of the token may change at will. *)
Definition token_activity (s s' : State) : Prop :=
  jobs s' = jobs s ∧ agentJobs s' = agentJobs s ∧ jobCount s' = jobCount s ∧
  events s' = events s ∧ held s ≤ held s'.

Inductive step : State → State → Prop :=
  | step_call e c s s' : valid_env e → exec e c s = Ok s' → step s s'
  | step_token s s' : token_activity s s' → step s s'.

(** The contract right after deployment: empty storage, over any state of
    the token (its address may already hold some of the asset). *)
Definition initial (s : State) : Prop :=
  jobs s = ∅ ∧ agentJobs s = ∅ ∧ jobCount s = 0 ∧ events s = [].

Definition reachable (s : State) : Prop := ∃ s0, initial s0 ∧ rtc step s0 s.

End Execution.

(** ** Custody bookkeeping *)

(** Statuses whose funds are still in custody. *)
Definition active (st : JobStatus) : bool :=
  match st with
  | Created | Funded | Disputed => true
  | Completed | Resolved | Cancelled => false
  end.

Definition terminal (st : JobStatus) : bool := negb (active st).

Definition locked (j : Job) : N := if active (status j) then amount j else 0.

(** The amount of a completed job whose worker is the contract itself. *)
Definition paid_to (a : N) (j : Job) : N :=
  if bool_decide (status j = Completed ∧ worker j = a) then amount j else 0.

Definition total (f : Job → N) (m : gmap N Job) : N :=
  map_fold (λ _ j acc, f j + acc) 0 m.

(** Σ amount over the jobs in Created, Funded or Disputed. *)
Definition escrowed (s : State) : N := total locked (jobs s).

(** ** The status graph *)

(** The transitions the contract can make: [acceptJob], [completeJob] (from
    Funded or Created), [disputeJob], [resolveDispute], [cancelJob]. *)
Inductive edge : JobStatus → JobStatus → Prop :=
  | edge_accept : edge Created Funded
  | edge_complete_funded : edge Funded Completed
  | edge_complete_created : edge Created Completed
  | edge_dispute : edge Funded Disputed
  | edge_resolve : edge Disputed Resolved
  | edge_cancel : edge Created Cancelled.

(** The graph as the specification draws it:
    Created → Funded → {Completed | Disputed}; Disputed → Resolved;
    Created → Cancelled. *)
Inductive spec_edge : JobStatus → JobStatus → Prop :=
  | spec_edge_accept : spec_edge Created Funded
  | spec_edge_complete : spec_edge Funded Completed
  | spec_edge_dispute : spec_edge Funded Disputed
  | spec_edge_resolve : spec_edge Disputed Resolved
  | spec_edge_cancel : spec_edge Created Cancelled.

(** A measure that every edge increases. *)
Definition rank (st : JobStatus) : nat :=
  match st with
  | Created => 0
  | Funded => 1
  | Disputed => 2
  | Completed | Resolved | Cancelled => 3
  end.

(** ** The interface *)

(** The external functions of the contract, public getters included. *)
Definition contract_interface : list string :=
  ["createJob"; "acceptJob"; "completeJob"; "cancelJob"; "disputeJob";
   "resolveDispute"; "getJob"; "getAgentJobs";
   "usdc"; "jobs"; "agentJobs"; "jobCount"; "MIN_AMOUNT"; "MAX_DURATION"].

(** The function entries of [ESCROW_ABI] in [src/index.js]. *)
Definition ESCROW_ABI : list string :=
  ["createJob"; "acceptJob"; "completeJob"; "cancelJob"; "disputeJob";
   "resolveDispute"; "getJob"; "getAgentJobs"].

Definition call_name (c : call) : string :=
  match c with
  | CreateJob _ _ _ _ => "createJob"
  | AcceptJob _ => "acceptJob"
  | CompleteJob _ => "completeJob"
  | CancelJob _ => "cancelJob"
  | DisputeJob _ => "disputeJob"
  | ResolveDispute _ => "resolveDispute"
  end.

(** [JOB_STATUS] of [src/index.js] and the [uint8] a status is returned as. *)
Definition JOB_STATUS : list string :=
  ["Created"; "Funded"; "Completed"; "Disputed"; "Resolved"; "Cancelled"].

Definition status_code (st : JobStatus) : nat :=
  match st with
  | Created => 0
  | Funded => 1
  | Completed => 2
  | Disputed => 3
  | Resolved => 4
  | Cancelled => 5
  end.

(** [JOB_STATUS[status]] *)
Definition status_name (st : JobStatus) : option string :=
  JOB_STATUS !! status_code st.

(** ** Invariants of the reachable states *)

Definition counter_injective (keccak256 : N → N → N → N → N → N) : Prop :=
  ∀ c w a t n c' w' a' t' n',
    n < UINT256_MOD → n' < UINT256_MOD →
    keccak256 c w a t n = keccak256 c' w' a' t' n' → n = n'.

Record invariant (keccak256 : N → N → N → N → N → N) (this : N) (s : State) : Prop := {
  inv_count : jobCount s < UINT256_MOD;
  inv_ids : ∀ id j, jobs s !! id = Some j →
    ∃ c w a t n, id = keccak256 c w a t n ∧ n < jobCount s;
  inv_log : ∀ id j, jobs s !! id = Some j →
    JobCreated id (client j) (amount j) (jobHash j) ∈ events s;
  inv_client : ∀ id j, jobs s !! id = Some j →
    client j ≠ address0 ∧ client j ≠ this;
  inv_custody :
    total locked (jobs s) + total (paid_to this) (jobs s) ≤ held this s
}.

(** ** What one call can do to one job

    [job_step e c id j j']: the successful call [c], made in environment
    [e], takes the job stored under [id] from [j] to [j']. *)
Inductive job_step (e : Env) : call → N → Job → Job → Prop :=
  | job_untouched c id j : job_step e c id j j
  | job_created id w a d h :
      job_step e (CreateJob w a d h) id Job0
        {| client := msg_sender e; worker := w; amount := a;
           deadline := block_timestamp e + d; jobHash := h; status := Created;
           createdAt := block_timestamp e |}
  | job_accepted id j :
      status j = Created → worker j = address0 → msg_sender e ≠ client j →
      block_timestamp e < deadline j →
      job_step e (AcceptJob id) id j (set_status Funded (set_worker (msg_sender e) j))
  | job_completed id j :
      msg_sender e = client j → status j = Funded ∨ status j = Created →
      worker j ≠ address0 →
      job_step e (CompleteJob id) id j (set_status Completed j)
  | job_cancelled id j :
      msg_sender e = client j → status j = Created →
      worker j = address0 ∨ deadline j < block_timestamp e →
      job_step e (CancelJob id) id j (set_status Cancelled j)
  | job_disputed id j :
      msg_sender e = client j ∨ msg_sender e = worker j → status j = Funded →
      job_step e (DisputeJob id) id j (set_status Disputed j)
  | job_resolved id j :
      status j = Disputed →
      deadline j + RESOLUTION_PERIOD < block_timestamp e →
      job_step e (ResolveDispute id) id j (set_status Resolved j).

(** What holds, for the rest of its life, of a job created with worker [w]
    already assigned. *)
Definition preassigned (w : N) (j : Job) : Prop :=
  worker j = w ∧ w ≠ address0 ∧
  (status j = Created ∨ status j = Completed ∨ status j = Cancelled).

(** What a successful call pulls into custody, what it releases from the
    jobs in custody, and what of that it pays to the contract itself. *)
Definition pulled (c : call) : N :=
  match c with
  | CreateJob _ a _ _ => a
  | _ => 0
  end.

Definition released (c : call) (s : State) : N :=
  match c with
  | CompleteJob id | CancelJob id | ResolveDispute id => amount (job_at s id)
  | _ => 0
  end.

Definition self_paid (this : N) (c : call) (s : State) : N :=
  match c with
  | CompleteJob id =>
      if decide (worker (job_at s id) = this) then amount (job_at s id) else 0
  | _ => 0
  end.

(** The held balance a successful call leaves behind. *)
Definition held_after (this : N) (c : call) (s : State) : N :=
  match c with
  | CreateJob _ a _ _ => held this s + a
  | AcceptJob _ | DisputeJob _ => held this s
  | CompleteJob id =>
      if decide (worker (job_at s id) = this) then held this s
      else held this s - amount (job_at s id)
  | CancelJob id | ResolveDispute id => held this s - amount (job_at s id)
  end.

(** ** Running a list of transactions *)

Fixpoint run (keccak256 : N → N → N → N → N → N) (this : N)
    (tr : list (Env * call)) (s : State) : State :=
  match tr with
  | [] => s
  | (e, c) :: tr =>
      match exec keccak256 this e c s with
      | Ok s' => run keccak256 this tr s'
      | Err _ => run keccak256 this tr s
      end
  end.

Global Instance valid_env_dec this e : Decision (valid_env this e).
Proof. unfold valid_env. apply _. Defined.

Module Demo.

(** A stand-in for the hash that is injective in the counter. *)
Definition keccak (c w a t n : N) : N := n.
Definition escrow : N := 1000.
Definition alice : N := 1.
Definition bob : N := 2.

Definition token : Token :=
  {| balances := {[ alice := 5000000 ]};
     allowances := {[ (alice, escrow) := 5000000 ]};
     refusing := ∅ |}.

Definition deployed : State :=
  {| usdc := token; jobs := ∅; agentJobs := ∅; jobCount := 0; events := [] |}.

Definition at_ (who now : N) : Env :=
  {| msg_sender := who; block_timestamp := now |}.

(** Alice posts an open job of 1 USDC for 100 seconds at time 10. *)
Definition open_job : State :=
  run keccak escrow [(at_ alice 10, CreateJob 0 1000000 100 "h")] deployed.

(** Bob accepts it. *)
Definition accepted : State :=
  run keccak escrow [(at_ bob 20, AcceptJob 0)] open_job.

(** Either party disputes. *)
Definition disputed : State :=
  run keccak escrow [(at_ bob 30, DisputeJob 0)] accepted.

(** Alice posts a job with Bob as its worker from the start. *)
Definition assigned_job : State :=
  run keccak escrow [(at_ alice 10, CreateJob bob 1000000 100 "h")] deployed.

(** Alice posts a job whose worker is the contract itself and completes it. *)
Definition self_worker_job : State :=
  run keccak escrow [(at_ alice 10, CreateJob escrow 1000000 100 "h")] deployed.

Definition self_paid : State :=
  run keccak escrow [(at_ alice 20, CompleteJob 0)] self_worker_job.

(** The same first steps over a token that does not deliver to Bob. *)
Definition wary_token : Token :=
  {| balances := {[ alice := 5000000 ]};
     allowances := {[ (alice, escrow) := 5000000 ]};
     refusing := {[ bob ]} |}.

Definition wary_accepted : State :=
  run keccak escrow
    [(at_ alice 10, CreateJob 0 1000000 100 "h"); (at_ bob 20, AcceptJob 0)]
    {| usdc := wary_token; jobs := ∅; agentJobs := ∅; jobCount := 0; events := [] |}.

(** Somebody sends 5 units of the asset to the contract of [open_job]. *)
Definition donated : State :=
  {| usdc := move alice escrow 5 (usdc open_job); jobs := jobs open_job;
     agentJobs := agentJobs open_job; jobCount := jobCount open_job;
     events := events open_job |}.

(** The token stops delivering to Alice after she posted [open_job]. *)
Definition frozen_job : State :=
  {| usdc := {| balances := balances (usdc open_job);
                allowances := allowances (usdc open_job);
                refusing := {[ alice ]} |};
     jobs := jobs open_job; agentJobs := agentJobs open_job;
     jobCount := jobCount open_job; events := events open_job |}.

End Demo.

From Stdlib Require Import Ascii.

(** ** The log and the agent index, call by call *)

(** The records a successful call appends to the log. *)
Definition emitted (keccak256 : N → N → N → N → N → N) (e : Env) (c : call)
    (s : State) : list event :=
  match c with
  | CreateJob w a d h =>
      let jobId := keccak256 (msg_sender e) w a (block_timestamp e) (jobCount s) in
      [JobCreated jobId (msg_sender e) a h; JobFunded jobId (msg_sender e)]
  | AcceptJob jobId => [JobAccepted jobId (msg_sender e)]
  | CompleteJob jobId =>
      [JobCompleted jobId (worker (job_at s jobId)) (amount (job_at s jobId))]
  | CancelJob jobId => [JobCancelled jobId (client (job_at s jobId))]
  | DisputeJob jobId => [JobDisputed jobId (msg_sender e)]
  | ResolveDispute jobId =>
      [DisputeResolved jobId (client (job_at s jobId)) (amount (job_at s jobId))]
  end.

(** The identifiers a successful call pushes onto [agentJobs[agent]]. *)
Definition indexed (keccak256 : N → N → N → N → N → N) (e : Env) (c : call)
    (s : State) (agent : N) : list N :=
  match c with
  | CreateJob w a d h =>
      if decide (agent = msg_sender e)
      then [keccak256 (msg_sender e) w a (block_timestamp e) (jobCount s)]
      else []
  | AcceptJob jobId => if decide (agent = msg_sender e) then [jobId] else []
  | _ => []
  end.

(** The log records of a payout of job [jobId]. *)
Definition is_payout (jobId : N) (ev : event) : bool :=
  match ev with
  | JobCompleted i _ _ | JobCancelled i _ | DisputeResolved i _ _ =>
      bool_decide (i = jobId)
  | _ => false
  end.

Definition payouts (jobId : N) (evs : list event) : nat :=
  length (List.filter (is_payout jobId) evs).

Definition is_created (ev : event) : bool :=
  match ev with
  | JobCreated _ _ _ _ => true
  | _ => false
  end.

Definition creations (evs : list event) : nat :=
  length (List.filter is_created evs).

(** What [createJob] checked of every job it stored. *)
Definition well_formed (j : Job) : Prop :=
  MIN_AMOUNT ≤ amount j ∧ createdAt j < deadline j ∧
  deadline j ≤ createdAt j + MAX_DURATION ∧ deadline j < UINT256_MOD ∧
  jobHash j ≠ "".

(** The store, the agent index and the log agree. *)
Record ledger (s : State) : Prop := {
  ledger_size : N.of_nat (size (jobs s)) = jobCount s;
  ledger_creations : creations (events s) = size (jobs s);
  ledger_jobs : ∀ id j, jobs s !! id = Some j → well_formed j;
  ledger_index : ∀ a id,
    id ∈ agent_jobs_at s a ↔
    (∃ amt h, JobCreated id a amt h ∈ events s) ∨ JobAccepted id a ∈ events s;
  ledger_created : ∀ id c amt h, JobCreated id c amt h ∈ events s →
    ∃ j, jobs s !! id = Some j ∧ client j = c ∧ amount j = amt ∧ jobHash j = h;
  ledger_accepted : ∀ id a, JobAccepted id a ∈ events s →
    ∃ j, jobs s !! id = Some j ∧ worker j = a ∧ client j ≠ a ∧ status j ≠ Created;
  ledger_nodup : ∀ a, NoDup (agent_jobs_at s a);
  ledger_payouts : ∀ id,
    payouts id (events s) = if active (status (job_at s id)) then 0%nat else 1%nat
}.

(** The statuses only [acceptJob] leads to. *)
Definition was_accepted (st : JobStatus) : bool :=
  match st with
  | Funded | Disputed | Resolved => true
  | Created | Completed | Cancelled => false
  end.

(** A job in such a status has a worker, and the log says who accepted. *)
Definition accepted_logged (s : State) : Prop :=
  ∀ id, was_accepted (status (job_at s id)) = true →
    worker (job_at s id) ≠ address0 ∧
    JobAccepted id (worker (job_at s id)) ∈ events s.

(** The names of the [JobStatus] enum of the contract. *)
Definition enum_name (st : JobStatus) : string :=
  match st with
  | Created => "Created"
  | Funded => "Funded"
  | Completed => "Completed"
  | Disputed => "Disputed"
  | Resolved => "Resolved"
  | Cancelled => "Cancelled"
  end.

(** ** The command line ([parseArgs] of the client)

    The result object is a map from property names to values, a value being
    a string or [undefined] ([None]). *)

(** [key.replace(/^--/, '')] *)
Definition strip_dashes (k : string) : string :=
  match k with
  | String "-"%char (String "-"%char rest) => rest
  | _ => k
  end.

(** [result[key] = value] on an object created by [{}]: the assignment of a
    string or of [undefined] to [__proto__] is ignored. *)
Definition set_prop (key : string) (value : option string)
    (result : gmap string (option string)) : gmap string (option string) :=
  if decide (key = "__proto__") then result else <[key := value]> result.

(** The loop [for (i = 1; i < args.length; i += 2)], on the arguments from
    index [i] on; [args[i + 1]] is [undefined] past the end. *)
Fixpoint parse_loop (args : list string) (result : gmap string (option string))
    : gmap string (option string) :=
  match args with
  | [] => result
  | k :: rest =>
      match rest with
      | [] => set_prop (strip_dashes k) None result
      | v :: rest' => parse_loop rest' (set_prop (strip_dashes k) (Some v) result)
      end
  end.

Definition parseArgs (args : list string) : gmap string (option string) :=
  parse_loop (drop 1 args) ∅.

(** [params.name], for a name that [Object.prototype] does not define (the
    client reads worker, amount, duration, description, network, job and
    address); [read_prop] below is the read of any name. *)
Definition param (name : string) (params : gmap string (option string))
    : option string :=
  mjoin (params !! name).

(** The names [Object.prototype] defines; an object created by [{}]
    inherits them. *)
Definition Object_prototype : list string :=
  ["constructor"; "__defineGetter__"; "__defineSetter__"; "hasOwnProperty";
   "__lookupGetter__"; "__lookupSetter__"; "isPrototypeOf";
   "propertyIsEnumerable"; "toString"; "valueOf"; "__proto__";
   "toLocaleString"].

Inductive js_value :=
  | JsUndefined
  | JsString (v : string)
  | JsInherited (name : string).

(** [params.name] for any name: the own property if there is one, else the
    member of [Object.prototype] of that name, else [undefined]. *)
Definition read_prop (name : string) (params : gmap string (option string))
    : js_value :=
  match params !! name with
  | Some (Some v) => JsString v
  | Some None => JsUndefined
  | None => if decide (name ∈ Object_prototype) then JsInherited name
            else JsUndefined
  end.

(** The arguments [--k1 v1 --k2 v2 ...]. *)
Definition flags (pairs : list (string * string)) : list string :=
  flat_map (λ p, ["--" +:+ p.1; p.2]) pairs.

(** ** The dispatch of the command line ([main] of the client)

    What [main] does with its arguments and the [PRIVATE_KEY] variable of
    the environment: the library call it makes, with the arguments it
    passes, the help text, or the error it throws before any call.
    [duration] is the string handed to [parseInt]. *)
Inductive outcome :=
  | CallCreateJob (privateKey : string) (worker amount duration description : option string)
      (network : string)
  | CallAcceptJob (privateKey : string) (jobId : option string) (network : string)
  | CallCompleteJob (privateKey : string) (jobId : option string) (network : string)
  | CallCancelJob (privateKey : string) (jobId : option string) (network : string)
  | CallDisputeJob (privateKey : string) (jobId : option string) (network : string)
  | CallGetJob (jobId : option string) (network : string)
  | CallGetAgentJobs (address : option string) (network : string)
  | CallGetUsdcBalance (address : option string) (network : string)
  | PrintHelp
  | Throw (msg : string).

(** [value || undefined]: the empty string counts as absent. *)
Definition truthy (value : option string) : option string :=
  match value with
  | Some "" | None => None
  | Some v => Some v
  end.

(** [if (!privateKey) throw new Error('PRIVATE_KEY env required')] *)
Definition with_key (privateKey : option string) (k : string → outcome) : outcome :=
  match truthy privateKey with
  | Some key => k key
  | None => Throw "PRIVATE_KEY env required"
  end.

Definition main (args : list string) (privateKey : option string) : outcome :=
  let params := parseArgs args in
  let network := default "base-sepolia" (truthy (param "network" params)) in
  match head args with
  | Some command =>
      if decide (command = "create") then
        with_key privateKey (λ key,
          CallCreateJob key (truthy (param "worker" params)) (param "amount" params)
            (param "duration" params) (param "description" params) network)
      else if decide (command = "accept") then
        with_key privateKey (λ key, CallAcceptJob key (param "job" params) network)
      else if decide (command = "complete") then
        with_key privateKey (λ key, CallCompleteJob key (param "job" params) network)
      else if decide (command = "cancel") then
        with_key privateKey (λ key, CallCancelJob key (param "job" params) network)
      else if decide (command = "dispute") then
        with_key privateKey (λ key, CallDisputeJob key (param "job" params) network)
      else if decide (command = "status") then
        CallGetJob (param "job" params) network
      else if decide (command = "jobs") then
        CallGetAgentJobs (param "address" params) network
      else if decide (command = "balance") then
        CallGetUsdcBalance (param "address" params) network
      else PrintHelp
  | None => PrintHelp
  end.

(** The commands that sign a transaction. *)
Definition signing_commands : list string :=
  ["create"; "accept"; "complete"; "cancel"; "dispute"].

(** The network an outcome is sent to, if it is a call. *)
Definition outcome_network (o : outcome) : option string :=
  match o with
  | CallCreateJob _ _ _ _ _ n | CallAcceptJob _ _ n | CallCompleteJob _ _ n
  | CallCancelJob _ _ n | CallDisputeJob _ _ n | CallGetJob _ n
  | CallGetAgentJobs _ n | CallGetUsdcBalance _ n => Some n
  | PrintHelp | Throw _ => None
  end.

(** * Proofs *)

(** ** The error monad *)

Lemma bind_Ok {A B} (m : result A) (f : A → result B) b :
  m ≫= f = Ok b ↔ ∃ a, m = Ok a ∧ f a = Ok b.
Proof.
  destruct m as [a|e]; simpl; split.
  - intros H. by exists a.
  - by intros (a' & [= ->] & H).
  - done.
  - by intros (a' & ? & _).
Qed.

Lemma require_true b r : b = true → require b r = Ok tt.
Proof. by intros ->. Qed.

Lemma require_false b r : b = false → require b r = Err (Revert r).
Proof. by intros ->. Qed.

(** ** The token *)

Lemma move_balanceOf from to amt t a :
  amt ≤ balanceOf t from →
  balanceOf (move from to amt t) a =
    if decide (from = to) then balanceOf t a
    else if decide (a = from) then balanceOf t a - amt
    else if decide (a = to) then balanceOf t a + amt
    else balanceOf t a.
Proof.
  intros Hle. unfold move, balanceOf in *. simpl.
  destruct (decide (from = to)) as [->|Hft].
  - destruct (decide (a = to)) as [->|?]; simplify_map_eq; simpl; [lia|done].
  - repeat case_decide; simplify_map_eq; simpl; done.
Qed.

Lemma transfer_Ok from to amt t t' :
  transfer from to amt t = Ok t' ↔
  amt ≤ balanceOf t from ∧ accepts t to ∧ t' = move from to amt t.
Proof.
  unfold transfer. repeat case_bool_decide; split;
    try done; try (by intros [= <-]); try (by intros (_ & _ & ->)); tauto.
Qed.

Lemma transfer_balanceOf from to amt t t' a :
  transfer from to amt t = Ok t' →
  balanceOf t' a =
    if decide (from = to) then balanceOf t a
    else if decide (a = from) then balanceOf t a - amt
    else if decide (a = to) then balanceOf t a + amt
    else balanceOf t a.
Proof. intros (Hle & _ & ->)%transfer_Ok. by apply move_balanceOf. Qed.

Lemma transfer_succeeds from to amt t :
  amt ≤ balanceOf t from → accepts t to →
  ∃ t', transfer from to amt t = Ok t'.
Proof.
  intros Hle Hacc. unfold transfer. rewrite !bool_decide_eq_true_2 by done. eauto.
Qed.

Lemma transfer_refused from to amt t :
  ¬ accepts t to → transfer from to amt t = Err (TokenRevert ReceiverRefused).
Proof. intros Hno. unfold transfer. by rewrite bool_decide_eq_false_2. Qed.

Lemma transfer_refusing from to amt t t' :
  transfer from to amt t = Ok t' → refusing t' = refusing t.
Proof. by intros (_ & _ & ->)%transfer_Ok. Qed.

Lemma transferFrom_Ok spender from to amt t t' :
  transferFrom spender from to amt t = Ok t' ↔
  amt ≤ allowance t from spender ∧ amt ≤ balanceOf t from ∧
  t' = move from to amt
         {| balances := balances t;
            allowances := <[(from, spender) := allowance t from spender - amt]>
                            (allowances t);
            refusing := refusing t |}.
Proof.
  unfold transferFrom. repeat case_bool_decide; split;
    try done; try (by intros [= <-]); try (by intros (_ & _ & ->)); tauto.
Qed.

Lemma transferFrom_balanceOf spender from to amt t t' a :
  transferFrom spender from to amt t = Ok t' →
  amt ≤ balanceOf t from ∧ amt ≤ allowance t from spender ∧
  balanceOf t' a =
    if decide (from = to) then balanceOf t a
    else if decide (a = from) then balanceOf t a - amt
    else if decide (a = to) then balanceOf t a + amt
    else balanceOf t a.
Proof.
  intros (Hal & Hle & ->)%transferFrom_Ok. split_and!; [done|done|].
  by rewrite move_balanceOf.
Qed.

Lemma transferFrom_succeeds spender from to amt t :
  amt ≤ balanceOf t from → amt ≤ allowance t from spender →
  ∃ t', transferFrom spender from to amt t = Ok t'.
Proof.
  intros Hb Ha. unfold transferFrom. rewrite !bool_decide_eq_true_2 by done. eauto.
Qed.


(** ** Sums over the job store *)

Lemma total_empty f : total f ∅ = 0.
Proof. unfold total. by rewrite map_fold_empty. Qed.

Lemma total_insert_fresh f (m : gmap N Job) k j :
  m !! k = None → total f (<[k := j]> m) = f j + total f m.
Proof.
  intros H. unfold total. rewrite map_fold_insert_L; [done| |done].
  intros. lia.
Qed.

Lemma total_delete f (m : gmap N Job) k j :
  m !! k = Some j → total f m = f j + total f (delete k m).
Proof.
  intros H. unfold total.
  apply (map_fold_delete_L (λ _ j acc, f j + acc)); [|done].
  intros. lia.
Qed.

Lemma total_insert f (m : gmap N Job) k j j' :
  m !! k = Some j → total f (<[k := j']> m) + f j = f j' + total f m.
Proof.
  intros H. rewrite (total_delete f m k j H).
  rewrite <-(insert_delete_eq m k j').
  rewrite total_insert_fresh by apply lookup_delete_eq. lia.
Qed.

Lemma total_ge f (m : gmap N Job) k j : m !! k = Some j → f j ≤ total f m.
Proof. intros H. rewrite (total_delete f m k j H). lia. Qed.

(** ** What a successful call does *)

Ltac solve_ok :=
  split;
  [ intros ?; simplify_eq; repeat split; eauto; try lia; tauto
  | intros ?;
    repeat match goal with
      | H : _ ∧ _ |- _ => destruct H
      | H : ∃ _, _ |- _ => destruct H
      | H : _ ∨ _ |- _ => destruct H
      end;
    simplify_eq; try done; try lia; tauto ].

Section Calls.

Variable keccak256 : N → N → N → N → N → N.
Variable this : N.

Lemma createJob_Ok e w a d h s id s' :
  createJob keccak256 this e w a d h s = Ok (id, s') ↔
  MIN_AMOUNT ≤ a ∧ 0 < d ∧ d ≤ MAX_DURATION ∧ (0 < String.length h)%nat ∧
  jobCount s + 1 < UINT256_MOD ∧ block_timestamp e + d < UINT256_MOD ∧
  id = keccak256 (msg_sender e) w a (block_timestamp e) (jobCount s) ∧
  ∃ t, transferFrom this (msg_sender e) this a (usdc s) = Ok t ∧
    s' = {| usdc := t;
            jobs := <[id := {| client := msg_sender e; worker := w; amount := a;
                               deadline := block_timestamp e + d; jobHash := h;
                               status := Created;
                               createdAt := block_timestamp e |}]> (jobs s);
            agentJobs := <[msg_sender e := agent_jobs_at s (msg_sender e) ++ [id]]>
                           (agentJobs s);
            jobCount := jobCount s + 1;
            events := (events s ++ [JobCreated id (msg_sender e) a h])
                        ++ [JobFunded id (msg_sender e)] |}.
Proof.
  unfold createJob, require, checked_add.
  repeat (case_bool_decide; simpl); try solve_ok; split.
  - destruct (transferFrom _ _ _ _ _) as [t|] eqn:Ht; simpl; [|done].
    intros [= <- <-]. split_and!; try done. by exists t.
  - intros (_ & _ & _ & _ & _ & _ & -> & t & Ht & ->).
    unfold with_jobCount, with_job, push_agent_job, with_usdc, emit in *; simpl in *.
    by rewrite Ht.
Qed.

Lemma acceptJob_Ok e id s s' :
  acceptJob e id s = Ok s' ↔
  status (job_at s id) = Created ∧ worker (job_at s id) = address0 ∧
  msg_sender e ≠ client (job_at s id) ∧
  block_timestamp e < deadline (job_at s id) ∧
  s' = {| usdc := usdc s;
          jobs := <[id := set_status Funded (set_worker (msg_sender e) (job_at s id))]>
                    (jobs s);
          agentJobs := <[msg_sender e := agent_jobs_at s (msg_sender e) ++ [id]]>
                         (agentJobs s);
          jobCount := jobCount s;
          events := events s ++ [JobAccepted id (msg_sender e)] |}.
Proof.
  unfold acceptJob, require.
  repeat (case_bool_decide; simpl); solve_ok.
Qed.

Lemma completeJob_Ok e id s s' :
  completeJob this e id s = Ok s' ↔
  msg_sender e = client (job_at s id) ∧
  (status (job_at s id) = Funded ∨ status (job_at s id) = Created) ∧
  worker (job_at s id) ≠ address0 ∧
  ∃ t, transfer this (worker (job_at s id)) (amount (job_at s id)) (usdc s) = Ok t ∧
    s' = {| usdc := t;
            jobs := <[id := set_status Completed (job_at s id)]> (jobs s);
            agentJobs := agentJobs s;
            jobCount := jobCount s;
            events := events s ++ [JobCompleted id (worker (job_at s id))
                                                (amount (job_at s id))] |}.
Proof.
  unfold completeJob, require.
  repeat (case_bool_decide; simpl);
    (destruct (transfer _ _ _ _) as [t|] eqn:Ht; simpl); solve_ok.
Qed.

Lemma cancelJob_Ok e id s s' :
  cancelJob this e id s = Ok s' ↔
  msg_sender e = client (job_at s id) ∧
  status (job_at s id) = Created ∧
  (worker (job_at s id) = address0 ∨ deadline (job_at s id) < block_timestamp e) ∧
  ∃ t, transfer this (client (job_at s id)) (amount (job_at s id)) (usdc s) = Ok t ∧
    s' = {| usdc := t;
            jobs := <[id := set_status Cancelled (job_at s id)]> (jobs s);
            agentJobs := agentJobs s;
            jobCount := jobCount s;
            events := events s ++ [JobCancelled id (client (job_at s id))] |}.
Proof.
  unfold cancelJob, require.
  repeat (case_bool_decide; simpl);
    (destruct (transfer _ _ _ _) as [t|] eqn:Ht; simpl); solve_ok.
Qed.

Lemma disputeJob_Ok e id s s' :
  disputeJob e id s = Ok s' ↔
  (msg_sender e = client (job_at s id) ∨ msg_sender e = worker (job_at s id)) ∧
  status (job_at s id) = Funded ∧
  s' = {| usdc := usdc s;
          jobs := <[id := set_status Disputed (job_at s id)]> (jobs s);
          agentJobs := agentJobs s;
          jobCount := jobCount s;
          events := events s ++ [JobDisputed id (msg_sender e)] |}.
Proof.
  unfold disputeJob, require.
  repeat (case_bool_decide; simpl); solve_ok.
Qed.

Lemma resolveDispute_Ok e id s s' :
  resolveDispute this e id s = Ok s' ↔
  status (job_at s id) = Disputed ∧
  deadline (job_at s id) + RESOLUTION_PERIOD < UINT256_MOD ∧
  deadline (job_at s id) + RESOLUTION_PERIOD < block_timestamp e ∧
  ∃ t, transfer this (client (job_at s id)) (amount (job_at s id)) (usdc s) = Ok t ∧
    s' = {| usdc := t;
            jobs := <[id := set_status Resolved (job_at s id)]> (jobs s);
            agentJobs := agentJobs s;
            jobCount := jobCount s;
            events := events s ++ [DisputeResolved id (client (job_at s id))
                                                   (amount (job_at s id))] |}.
Proof.
  unfold resolveDispute, require, checked_add.
  repeat (case_bool_decide; simpl);
    (destruct (transfer _ _ _ _) as [t|] eqn:Ht; simpl); solve_ok.
Qed.

End Calls.

(** ** The invariants hold in every reachable state *)

Lemma job_at_Some s id j : jobs s !! id = Some j → job_at s id = j.
Proof. unfold job_at. by intros ->. Qed.

Lemma job_at_None s id : jobs s !! id = None → job_at s id = Job0.
Proof. unfold job_at. by intros ->. Qed.

Lemma job_at_lookup s id :
  job_at s id ≠ Job0 → jobs s !! id = Some (job_at s id).
Proof.
  unfold job_at. destruct (jobs s !! id); simpl; [done|congruence].
Qed.

Lemma paid_to_other a j : status j ≠ Completed → paid_to a j = 0.
Proof. intros H. unfold paid_to. rewrite bool_decide_eq_false_2; [done|tauto]. Qed.

Lemma paid_to_completed a j :
  status j = Completed → paid_to a j = if decide (worker j = a) then amount j else 0.
Proof.
  intros H. unfold paid_to. case_decide.
  - by rewrite bool_decide_eq_true_2.
  - rewrite bool_decide_eq_false_2; [done|tauto].
Qed.

Lemma locked_active j : active (status j) = true → locked j = amount j.
Proof. unfold locked. by intros ->. Qed.

Lemma locked_terminal j : active (status j) = false → locked j = 0.
Proof. unfold locked. by intros ->. Qed.

Section Invariant.

Variable keccak256 : N → N → N → N → N → N.
Variable this : N.
Hypothesis keccak256_inj : counter_injective keccak256.

Local Abbreviation invariant := (invariant keccak256 this).
Local Abbreviation step := (step keccak256 this).
Local Abbreviation reachable := (reachable keccak256 this).
Local Abbreviation exec := (exec keccak256 this).

Lemma invariant_initial s : initial s → invariant s.
Proof.
  intros (Hj & _ & Hc & He). split.
  - rewrite Hc. by vm_compute.
  - intros id j. by rewrite Hj, lookup_empty.
  - intros id j. by rewrite Hj, lookup_empty.
  - intros id j. by rewrite Hj, lookup_empty.
  - rewrite Hj, !total_empty. lia.
Qed.

(** The identifier the next [createJob] produces is not in use. *)
Lemma fresh_id s c w a t :
  invariant s → jobs s !! keccak256 c w a t (jobCount s) = None.
Proof.
  intros Hinv. destruct (jobs s !! _) as [j|] eqn:Hj; [|done].
  destruct (inv_ids _ _ _ Hinv _ _ Hj) as (c' & w' & a' & t' & n & Heq & Hn).
  pose proof (inv_count _ _ _ Hinv) as Hc.
  apply keccak256_inj in Heq; [lia|done|lia].
Qed.

Lemma invariant_update s s' id j j' :
  invariant s → jobs s !! id = Some j →
  jobs s' = <[id := j']> (jobs s) → jobCount s' = jobCount s →
  (∃ evs, events s' = events s ++ evs) →
  client j' = client j → amount j' = amount j → jobHash j' = jobHash j →
  held this s' + locked j + paid_to this j = held this s + locked j' + paid_to this j' →
  invariant s'.
Proof.
  intros Hinv Hj Hjobs Hcount [evs Hev] Hc Ha Hh Hheld. split.
  - rewrite Hcount. apply Hinv.
  - intros id' k. rewrite Hjobs, Hcount. intros Hk.
    destruct (decide (id' = id)) as [->|Hne].
    + eapply (inv_ids _ _ _ Hinv); eauto.
    + rewrite lookup_insert_ne in Hk by done. eapply (inv_ids _ _ _ Hinv); eauto.
  - intros id' k. rewrite Hjobs, Hev. intros Hk.
    apply elem_of_app; left.
    destruct (decide (id' = id)) as [->|Hne].
    + rewrite lookup_insert_eq in Hk. injection Hk as <-.
      rewrite Hc, Ha, Hh. by apply (inv_log _ _ _ Hinv).
    + rewrite lookup_insert_ne in Hk by done. by apply (inv_log _ _ _ Hinv).
  - intros id' k. rewrite Hjobs. intros Hk.
    destruct (decide (id' = id)) as [->|Hne].
    + rewrite lookup_insert_eq in Hk. injection Hk as <-.
      rewrite Hc. by apply (inv_client _ _ _ Hinv id).
    + rewrite lookup_insert_ne in Hk by done. by apply (inv_client _ _ _ Hinv id').
  - rewrite Hjobs.
    pose proof (total_insert locked _ _ _ j' Hj).
    pose proof (total_insert (paid_to this) _ _ _ j' Hj).
    pose proof (inv_custody _ _ _ Hinv). lia.
Qed.

(** A call other than [createJob] that succeeds acts on a stored job. *)
Lemma acceptJob_stored e id s s' :
  acceptJob e id s = Ok s' → jobs s !! id = Some (job_at s id).
Proof.
  intros (_ & _ & _ & Ht & _)%acceptJob_Ok. apply job_at_lookup.
  intros Heq. rewrite Heq in Ht. simpl in Ht. lia.
Qed.

Lemma completeJob_stored e id s s' :
  completeJob this e id s = Ok s' → jobs s !! id = Some (job_at s id).
Proof.
  intros (_ & _ & Hw & _)%completeJob_Ok. apply job_at_lookup.
  intros Heq. by rewrite Heq in Hw.
Qed.

Lemma cancelJob_stored e id s s' :
  valid_env this e → cancelJob this e id s = Ok s' →
  jobs s !! id = Some (job_at s id).
Proof.
  intros [H0 _] (Hc & _)%cancelJob_Ok. apply job_at_lookup.
  intros Heq. rewrite Heq in Hc. simpl in Hc. done.
Qed.

Lemma disputeJob_stored e id s s' :
  disputeJob e id s = Ok s' → jobs s !! id = Some (job_at s id).
Proof.
  intros (_ & Hs & _)%disputeJob_Ok. apply job_at_lookup.
  intros Heq. by rewrite Heq in Hs.
Qed.

Lemma resolveDispute_stored e id s s' :
  resolveDispute this e id s = Ok s' → jobs s !! id = Some (job_at s id).
Proof.
  intros (Hs & _)%resolveDispute_Ok. apply job_at_lookup.
  intros Heq. by rewrite Heq in Hs.
Qed.

Lemma invariant_exec e c s s' :
  valid_env this e → invariant s → exec e c s = Ok s' → invariant s'.
Proof.
  intros Hv Hinv Hex. destruct c as [w a d h|id|id|id|id|id]; simpl in Hex.
  - apply bind_Ok in Hex as ([id s1] & Hcr & [= <-]).
    apply createJob_Ok in Hcr
      as (Hmin & Hd0 & Hd1 & Hh & Hcnt & Hdl & Hid & t & Ht & ->).
    pose proof (fresh_id s (msg_sender e) w a (block_timestamp e) Hinv) as Hfresh.
    rewrite <-Hid in Hfresh. destruct Hv as [Hv0 Hvt].
    apply transferFrom_balanceOf with (a := this) in Ht as (_ & _ & Hbal).
    split; simpl.
    + done.
    + intros id' k Hk. destruct (decide (id' = id)) as [->|Hne].
      * exists (msg_sender e), w, a, (block_timestamp e), (jobCount s).
        split; [done|lia].
      * rewrite lookup_insert_ne in Hk by done.
        destruct (inv_ids _ _ _ Hinv _ _ Hk) as (c' & w' & a' & t' & n & ? & ?).
        exists c', w', a', t', n. split; [done|lia].
    + intros id' k Hk. destruct (decide (id' = id)) as [->|Hne].
      * rewrite lookup_insert_eq in Hk. injection Hk as <-. simpl.
        apply elem_of_app; left. apply elem_of_app; right. apply list_elem_of_singleton.
        done.
      * rewrite lookup_insert_ne in Hk by done.
        apply elem_of_app; left. apply elem_of_app; left.
        by apply (inv_log _ _ _ Hinv).
    + intros id' k Hk. destruct (decide (id' = id)) as [->|Hne].
      * rewrite lookup_insert_eq in Hk. by injection Hk as <-.
      * rewrite lookup_insert_ne in Hk by done. by apply (inv_client _ _ _ Hinv id').
    + rewrite !total_insert_fresh by done.
      unfold held in *. simpl. rewrite Hbal.
      pose proof (inv_custody _ _ _ Hinv) as Hc. unfold held in Hc.
      repeat case_decide; try done.
      rewrite locked_active, paid_to_other by done. simpl. lia.
  - pose proof (acceptJob_stored _ _ _ _ Hex) as Hj.
    apply acceptJob_Ok in Hex as (Hst & Hw & Hc & Ht & ->).
    eapply (invariant_update s _ id _ _ Hinv Hj); simpl;
      [reflexivity|reflexivity|by eexists|done|done|done|].
    rewrite !locked_active, !paid_to_other by (simpl; by rewrite ?Hst). done.
  - pose proof (completeJob_stored _ _ _ _ Hex) as Hj.
    apply completeJob_Ok in Hex as (Hc & Hst & Hw & t & Ht & ->).
    pose proof Ht as [Hle _]%transfer_Ok.
    apply transfer_balanceOf with (a := this) in Ht.
    eapply (invariant_update s _ id _ _ Hinv Hj); simpl;
      [reflexivity|reflexivity|by eexists|done|done|done|].
    unfold held in *; simpl. rewrite Ht.
    rewrite locked_active by (by destruct Hst as [-> | ->]).
    rewrite paid_to_other by (by destruct Hst as [-> | ->]).
    rewrite locked_terminal, paid_to_completed by done. simpl.
    repeat case_decide; try done; lia.
  - pose proof (cancelJob_stored _ _ _ _ Hv Hex) as Hj.
    apply cancelJob_Ok in Hex as (Hc & Hst & Hw & t & Ht & ->).
    pose proof Ht as [Hle _]%transfer_Ok.
    apply transfer_balanceOf with (a := this) in Ht.
    destruct (inv_client _ _ _ Hinv _ _ Hj) as [_ Hthis].
    eapply (invariant_update s _ id _ _ Hinv Hj); simpl;
      [reflexivity|reflexivity|by eexists|done|done|done|].
    unfold held in *; simpl. rewrite Ht.
    rewrite locked_active, locked_terminal, !paid_to_other
      by (simpl; by rewrite ?Hst).
    simpl. repeat case_decide; try done; lia.
  - pose proof (disputeJob_stored _ _ _ _ Hex) as Hj.
    apply disputeJob_Ok in Hex as (Hc & Hst & ->).
    eapply (invariant_update s _ id _ _ Hinv Hj); simpl;
      [reflexivity|reflexivity|by eexists|done|done|done|].
    rewrite !locked_active, !paid_to_other by (simpl; by rewrite ?Hst). done.
  - pose proof (resolveDispute_stored _ _ _ _ Hex) as Hj.
    apply resolveDispute_Ok in Hex as (Hst & Hov & Hts & t & Ht & ->).
    pose proof Ht as [Hle _]%transfer_Ok.
    apply transfer_balanceOf with (a := this) in Ht.
    destruct (inv_client _ _ _ Hinv _ _ Hj) as [_ Hthis].
    eapply (invariant_update s _ id _ _ Hinv Hj); simpl;
      [reflexivity|reflexivity|by eexists|done|done|done|].
    unfold held in *; simpl. rewrite Ht.
    rewrite locked_active, locked_terminal, !paid_to_other
      by (simpl; by rewrite ?Hst).
    simpl. repeat case_decide; try done; lia.
Qed.

Lemma invariant_step s s' : invariant s → step s s' → invariant s'.
Proof.
  intros Hinv Hstep.
  inversion Hstep as [e c s1 s2 Hv Hex | s1 s2 (Hj & _ & Hc & He & Hh)]; subst.
  - by eapply invariant_exec.
  - destruct Hinv as [I1 I2 I3 I4 I5]. split.
    + by rewrite Hc.
    + intros id j. rewrite Hj, Hc. apply I2.
    + intros id j. rewrite Hj, He. apply I3.
    + intros id j. rewrite Hj. apply I4.
    + rewrite Hj. lia.
Qed.

Lemma invariant_steps s s' : invariant s → rtc step s s' → invariant s'.
Proof. induction 2; eauto using invariant_step. Qed.

Lemma invariant_reachable s : reachable s → invariant s.
Proof.
  intros (s0 & Hinit & Hsteps).
  eapply invariant_steps; [|done]. by apply invariant_initial.
Qed.

End Invariant.

(** ** One call, seen from one job *)

Section Steps.

Variable keccak256 : N → N → N → N → N → N.
Variable this : N.
Hypothesis keccak256_inj : counter_injective keccak256.

Local Abbreviation invariant := (invariant keccak256 this).
Local Abbreviation step := (step keccak256 this).
Local Abbreviation reachable := (reachable keccak256 this).
Local Abbreviation exec := (exec keccak256 this).

Lemma job_at_insert s u ag n ev id id' j :
  job_at {| usdc := u; jobs := <[id := j]> (jobs s); agentJobs := ag;
            jobCount := n; events := ev |} id'
  = if decide (id' = id) then j else job_at s id'.
Proof.
  unfold job_at. simpl. case_decide as Heq.
  - subst. by rewrite lookup_insert_eq.
  - by rewrite lookup_insert_ne.
Qed.

Lemma exec_job_step e c s s' id :
  invariant s → exec e c s = Ok s' →
  job_step e c id (job_at s id) (job_at s' id).
Proof.
  intros Hinv Hex. destruct c as [w a d h|id0|id0|id0|id0|id0]; simpl in Hex.
  - apply bind_Ok in Hex as ([id1 s1] & Hcr & [= <-]).
    apply createJob_Ok in Hcr as (_ & _ & _ & _ & _ & _ & Hid & t & _ & ->).
    pose proof (fresh_id keccak256 this keccak256_inj s
                  (msg_sender e) w a (block_timestamp e) Hinv) as Hfresh.
    rewrite <-Hid in Hfresh.
    rewrite job_at_insert. case_decide as Heq.
    + subst id. rewrite (job_at_None _ _ Hfresh). constructor.
    + constructor.
  - apply acceptJob_Ok in Hex as (? & ? & ? & ? & ->).
    rewrite job_at_insert. case_decide as Heq.
    + subst id. by constructor.
    + constructor.
  - apply completeJob_Ok in Hex as (? & ? & ? & t & _ & ->).
    rewrite job_at_insert. case_decide as Heq.
    + subst id. by constructor.
    + constructor.
  - apply cancelJob_Ok in Hex as (? & ? & ? & t & _ & ->).
    rewrite job_at_insert. case_decide as Heq.
    + subst id. by constructor.
    + constructor.
  - apply disputeJob_Ok in Hex as (? & ? & ->).
    rewrite job_at_insert. case_decide as Heq.
    + subst id. by constructor.
    + constructor.
  - apply resolveDispute_Ok in Hex as (? & ? & ? & t & _ & ->).
    rewrite job_at_insert. case_decide as Heq.
    + subst id. by constructor.
    + constructor.
Qed.

(** Every step is a [job_step] for every job; token traffic touches none. *)
Lemma step_job_step s s' id :
  invariant s → step s s' →
  ∃ e c, valid_env this e ∧ job_step e c id (job_at s id) (job_at s' id).
Proof.
  intros Hinv Hstep.
  inversion Hstep as [e c s1 s2 Hv Hex | s1 s2 (Hj & _)]; subst.
  - exists e, c. split; [done|]. by apply exec_job_step.
  - exists {| msg_sender := this + 1; block_timestamp := 0 |}, (AcceptJob id).
    split.
    + unfold valid_env, address0; simpl. lia.
    + unfold job_at. rewrite Hj. constructor.
Qed.

End Steps.

(** ** Transaction lists and the example states *)

Lemma run_steps keccak256 this tr s :
  Forall (λ ec, valid_env this ec.1) tr →
  rtc (step keccak256 this) s (run keccak256 this tr s).
Proof.
  intros Hv. revert s. induction Hv as [|[e c] tr Hec _ IH]; intros s; simpl.
  - done.
  - destruct (exec keccak256 this e c s) as [s'|err] eqn:Hex; [|apply IH].
    eapply rtc_l; [|apply IH]. by eapply step_call.
Qed.

Lemma run_reachable keccak256 this tr s :
  reachable keccak256 this s →
  Forall (λ ec, valid_env this ec.1) tr →
  reachable keccak256 this (run keccak256 this tr s).
Proof.
  intros (s0 & Hinit & Hsteps) Hv. exists s0. split; [done|].
  etrans; [done|]. by apply run_steps.
Qed.

Module DemoFacts.
Import Demo.

Lemma keccak_inj : counter_injective keccak.
Proof. by intros c w a t n c' w' a' t' n' _ _ H. Qed.

Ltac valid_calls := apply (bool_decide_unpack _); vm_compute; exact I.

Lemma deployed_reachable : reachable keccak escrow deployed.
Proof. exists deployed. split; [|done]. by vm_compute. Qed.

Lemma open_job_reachable : reachable keccak escrow open_job.
Proof. apply run_reachable; [apply deployed_reachable|valid_calls]. Qed.

Lemma accepted_reachable : reachable keccak escrow accepted.
Proof. apply run_reachable; [apply open_job_reachable|valid_calls]. Qed.

Lemma disputed_reachable : reachable keccak escrow disputed.
Proof. apply run_reachable; [apply accepted_reachable|valid_calls]. Qed.

Lemma assigned_job_reachable : reachable keccak escrow assigned_job.
Proof. apply run_reachable; [apply deployed_reachable|valid_calls]. Qed.

Lemma self_worker_job_reachable : reachable keccak escrow self_worker_job.
Proof. apply run_reachable; [apply deployed_reachable|valid_calls]. Qed.

Lemma self_paid_reachable : reachable keccak escrow self_paid.
Proof. apply run_reachable; [apply self_worker_job_reachable|valid_calls]. Qed.

Lemma wary_accepted_reachable : reachable keccak escrow wary_accepted.
Proof.
  apply run_reachable; [|valid_calls].
  eexists. split; [|done]. by vm_compute.
Qed.

Lemma donated_reachable : reachable keccak escrow donated.
Proof.
  destruct open_job_reachable as (s0 & Hinit & Hsteps).
  exists s0. split; [done|]. eapply rtc_r; [done|].
  apply step_token. by vm_compute.
Qed.

Lemma frozen_job_reachable : reachable keccak escrow frozen_job.
Proof.
  destruct open_job_reachable as (s0 & Hinit & Hsteps).
  exists s0. split; [done|]. eapply rtc_r; [done|].
  apply step_token. by vm_compute.
Qed.

(** The example states are the ones their descriptions say. *)
Example open_job_status :
  getJob 0 open_job = (alice, 0, 1000000, 110, "h", Created, 10).
Proof. by vm_compute. Qed.

Example accepted_status :
  getJob 0 accepted = (alice, bob, 1000000, 110, "h", Funded, 10).
Proof. by vm_compute. Qed.

Example disputed_status :
  getJob 0 disputed = (alice, bob, 1000000, 110, "h", Disputed, 10).
Proof. by vm_compute. Qed.

Example assigned_job_status :
  getJob 0 assigned_job = (alice, bob, 1000000, 110, "h", Created, 10).
Proof. by vm_compute. Qed.

Example self_paid_status :
  getJob 0 self_paid = (alice, escrow, 1000000, 110, "h", Completed, 10).
Proof. by vm_compute. Qed.

Example self_paid_custody :
  held escrow self_paid = 1000000 ∧ escrowed self_paid = 0.
Proof. by vm_compute. Qed.

Example wary_accepted_status :
  getJob 0 wary_accepted = (alice, bob, 1000000, 110, "h", Funded, 10) ∧
  ¬ accepts (usdc wary_accepted) bob.
Proof. split; [by vm_compute|]. apply (bool_decide_unpack _). by vm_compute. Qed.

Example frozen_job_status :
  getJob 0 frozen_job = (alice, 0, 1000000, 110, "h", Created, 10) ∧
  ¬ accepts (usdc frozen_job) alice.
Proof. split; [by vm_compute|]. apply (bool_decide_unpack _). by vm_compute. Qed.

Example donated_custody :
  held escrow donated = 1000005 ∧ escrowed donated = 1000000.
Proof. by vm_compute. Qed.

End DemoFacts.

(** ** Custody *)

Lemma total_zero f (m : gmap N Job) :
  (∀ k j, m !! k = Some j → f j = 0) → total f m = 0.
Proof.
  induction m as [|k j m Hk IH] using map_ind; intros Hall.
  - apply total_empty.
  - rewrite total_insert_fresh by done.
    rewrite (Hall k j) by apply lookup_insert_eq.
    rewrite IH; [done|]. intros k' j' Hk'. apply (Hall k').
    rewrite lookup_insert_ne; [done|]. intros ->. congruence.
Qed.

Lemma exec_held keccak256 this e c s s' :
  invariant keccak256 this s → valid_env this e →
  exec keccak256 this e c s = Ok s' →
  held this s' = held_after this c s.
Proof.
  intros Hinv Hv Hex. pose proof Hv as [Hv0 Hvt].
  destruct c as [w a d h|id|id|id|id|id]; simpl in *.
  - apply bind_Ok in Hex as ([id s1] & Hcr & [= <-]).
    apply createJob_Ok in Hcr as (_ & _ & _ & _ & _ & _ & _ & t & Ht & ->).
    apply transferFrom_balanceOf with (a := this) in Ht as (_ & _ & Hbal).
    unfold held; simpl. rewrite Hbal. repeat case_decide; done.
  - by apply acceptJob_Ok in Hex as (_ & _ & _ & _ & ->).
  - apply completeJob_Ok in Hex as (_ & _ & _ & t & Ht & ->).
    apply transfer_balanceOf with (a := this) in Ht.
    unfold held; simpl. rewrite Ht. repeat case_decide; congruence.
  - pose proof (cancelJob_stored _ _ _ _ _ Hv Hex) as Hj.
    destruct (inv_client _ _ _ Hinv _ _ Hj) as [_ Hthis].
    apply cancelJob_Ok in Hex as (_ & _ & _ & t & Ht & ->).
    apply transfer_balanceOf with (a := this) in Ht.
    unfold held; simpl. rewrite Ht. repeat case_decide; congruence.
  - by apply disputeJob_Ok in Hex as (_ & _ & ->).
  - pose proof (resolveDispute_stored _ _ _ _ _ Hex) as Hj.
    destruct (inv_client _ _ _ Hinv _ _ Hj) as [_ Hthis].
    apply resolveDispute_Ok in Hex as (_ & _ & _ & t & Ht & ->).
    apply transfer_balanceOf with (a := this) in Ht.
    unfold held; simpl. rewrite Ht. repeat case_decide; congruence.
Qed.

Lemma exec_totals keccak256 this e c s s' :
  counter_injective keccak256 →
  invariant keccak256 this s → valid_env this e →
  exec keccak256 this e c s = Ok s' →
  escrowed s' + released c s = escrowed s + pulled c ∧
  total (paid_to this) (jobs s')
    = total (paid_to this) (jobs s) + self_paid this c s ∧
  released c s ≤ held this s.
Proof.
  intros Hinj Hinv Hv Hex. unfold escrowed.
  destruct c as [w a d h|id|id|id|id|id]; simpl in *.
  - apply bind_Ok in Hex as ([id s1] & Hcr & [= <-]).
    apply createJob_Ok in Hcr as (_ & _ & _ & _ & _ & _ & Hid & t & Ht & ->).
    pose proof (fresh_id keccak256 this Hinj s
                  (msg_sender e) w a (block_timestamp e) Hinv) as Hfresh.
    rewrite <-Hid in Hfresh. simpl.
    rewrite !total_insert_fresh by done.
    rewrite locked_active, paid_to_other by done. simpl. lia.
  - pose proof (acceptJob_stored _ _ _ _ Hex) as Hj.
    apply acceptJob_Ok in Hex as (Hst & _ & _ & _ & ->). simpl.
    pose proof (total_insert locked _ _ _
                  (set_status Funded (set_worker (msg_sender e) (job_at s id))) Hj) as HL.
    pose proof (total_insert (paid_to this) _ _ _
                  (set_status Funded (set_worker (msg_sender e) (job_at s id))) Hj) as HP.
    rewrite !locked_active in HL by (simpl; by rewrite ?Hst).
    rewrite !paid_to_other in HP by (simpl; by rewrite ?Hst).
    simpl in *. lia.
  - pose proof (completeJob_stored _ _ _ _ _ Hex) as Hj.
    apply completeJob_Ok in Hex as (_ & Hst & _ & t & Ht & ->). simpl.
    pose proof Ht as [Hle _]%transfer_Ok.
    pose proof (total_insert locked _ _ _ (set_status Completed (job_at s id)) Hj) as HL.
    pose proof (total_insert (paid_to this) _ _ _
                  (set_status Completed (job_at s id)) Hj) as HP.
    rewrite (locked_terminal (set_status Completed (job_at s id))) in HL by done.
    rewrite (locked_active (job_at s id)) in HL by (by destruct Hst as [-> | ->]).
    rewrite (paid_to_completed _ (set_status Completed (job_at s id))) in HP by done.
    rewrite (paid_to_other _ (job_at s id)) in HP
      by (by destruct Hst as [-> | ->]).
    simpl in *. unfold held. split_and!; [lia| |done].
    repeat case_decide; try done; lia.
  - pose proof (cancelJob_stored _ _ _ _ _ Hv Hex) as Hj.
    apply cancelJob_Ok in Hex as (_ & Hst & _ & t & Ht & ->). simpl.
    pose proof Ht as [Hle _]%transfer_Ok.
    pose proof (total_insert locked _ _ _ (set_status Cancelled (job_at s id)) Hj) as HL.
    pose proof (total_insert (paid_to this) _ _ _
                  (set_status Cancelled (job_at s id)) Hj) as HP.
    rewrite (locked_terminal (set_status Cancelled (job_at s id))) in HL by done.
    rewrite (locked_active (job_at s id)) in HL by (by rewrite Hst).
    rewrite !paid_to_other in HP by (simpl; by rewrite ?Hst).
    simpl in *. unfold held. split_and!; [lia|lia|done].
  - pose proof (disputeJob_stored _ _ _ _ Hex) as Hj.
    apply disputeJob_Ok in Hex as (_ & Hst & ->). simpl.
    pose proof (total_insert locked _ _ _ (set_status Disputed (job_at s id)) Hj) as HL.
    pose proof (total_insert (paid_to this) _ _ _
                  (set_status Disputed (job_at s id)) Hj) as HP.
    rewrite !locked_active in HL by (simpl; by rewrite ?Hst).
    rewrite !paid_to_other in HP by (simpl; by rewrite ?Hst).
    simpl in *. lia.
  - pose proof (resolveDispute_stored _ _ _ _ _ Hex) as Hj.
    apply resolveDispute_Ok in Hex as (Hst & _ & _ & t & Ht & ->). simpl.
    pose proof Ht as [Hle _]%transfer_Ok.
    pose proof (total_insert locked _ _ _ (set_status Resolved (job_at s id)) Hj) as HL.
    pose proof (total_insert (paid_to this) _ _ _
                  (set_status Resolved (job_at s id)) Hj) as HP.
    rewrite (locked_terminal (set_status Resolved (job_at s id))) in HL by done.
    rewrite (locked_active (job_at s id)) in HL by (by rewrite Hst).
    rewrite !paid_to_other in HP by (simpl; by rewrite ?Hst).
    simpl in *. unfold held. split_and!; [lia|lia|done].
Qed.

(** C1, as the code has it. The held balance is the token's balance of the
    contract, so anybody can add to it; what the contract guarantees is
    that in every reachable state it covers the sum of [amount] over the
    jobs in Created, Funded or Disputed, plus the amounts of the completed
    jobs whose worker is the contract itself (their payout is a transfer
    from the contract to the contract). Every successful call moves sum and
    held balance together: [createJob] raises both by exactly the amount,
    [completeJob], [cancelJob] and [resolveDispute] lower the sum by exactly
    the job's amount and the held balance by the same, except [completeJob]
    for a worker that is the contract, which leaves the held balance as it
    is; [acceptJob] and [disputeJob] change neither. So every call but such
    a [completeJob] preserves the equality of held balance and sum; token
    traffic leaves the sum alone and can only raise the held balance. *)
Theorem custody_conservation keccak256 this s :
  counter_injective keccak256 →
  reachable keccak256 this s →
  escrowed s + total (paid_to this) (jobs s) ≤ held this s ∧
  (∀ e c s', valid_env this e → exec keccak256 this e c s = Ok s' →
     escrowed s' + released c s = escrowed s + pulled c ∧
     held this s' + released c s = held this s + pulled c + self_paid this c s ∧
     (held this s = escrowed s → self_paid this c s = 0 →
      held this s' = escrowed s')) ∧
  (∀ s', token_activity this s s' →
     escrowed s' = escrowed s ∧ held this s ≤ held this s').
Proof.
  intros Hinj Hreach.
  pose proof (invariant_reachable _ _ Hinj _ Hreach) as Hinv.
  split_and!.
  - apply (inv_custody _ _ _ Hinv).
  - intros e c s' Hv Hex.
    destruct (exec_totals _ _ _ _ _ _ Hinj Hinv Hv Hex) as (HL & HP & Hle).
    pose proof (exec_held _ _ _ _ _ _ Hinv Hv Hex) as Hh.
    assert (held this s' + released c s
            = held this s + pulled c + self_paid this c s) as Hheld.
    { rewrite Hh. destruct c; simpl in *; try lia.
      case_decide; lia. }
    split_and!; [done|done|]. intros Heq Hself. lia.
  - intros s' (Hj & _ & _ & _ & Hh). unfold escrowed. by rewrite Hj.
Qed.

Lemma custody_conservation_witness :
  escrowed Demo.accepted ≤ held Demo.escrow Demo.accepted ∧
  ∀ s', exec Demo.keccak Demo.escrow (Demo.at_ Demo.alice 50) (CompleteJob 0)
          Demo.accepted = Ok s' →
        held Demo.escrow s' = escrowed s'.
Proof.
  destruct (custody_conservation Demo.keccak Demo.escrow Demo.accepted
              DemoFacts.keccak_inj DemoFacts.accepted_reachable)
    as (Hle & Hcall & _).
  split; [lia|].
  intros s' Hex.
  destruct (Hcall (Demo.at_ Demo.alice 50) (CompleteJob 0) s') as (_ & _ & Heq);
    [by vm_compute|done|].
  apply Heq; by vm_compute.
Defined.

(** C1, as stated, fails: a job whose worker is the contract itself is
    completed by a transfer from the contract to the contract, so the held
    balance stays at the job's amount while no job is left in Created,
    Funded or Disputed. *)
Lemma custody_conservation_counterexample :
  ¬ (∀ s, reachable Demo.keccak Demo.escrow s → held Demo.escrow s = escrowed s).
Proof.
  intros H. specialize (H Demo.self_paid DemoFacts.self_paid_reachable).
  vm_compute in H. discriminate H.
Qed.

(** The amount of a job still in custody is covered by the held balance. *)
Lemma amount_held keccak256 this s id :
  invariant keccak256 this s → active (status (job_at s id)) = true →
  amount (job_at s id) ≤ held this s.
Proof.
  intros Hinv Hact. unfold job_at in *.
  destruct (jobs s !! id) as [j|] eqn:Hj; simpl in *; [|lia].
  pose proof (total_ge locked _ _ _ Hj) as Hle.
  rewrite (locked_active _ Hact) in Hle.
  pose proof (inv_custody _ _ _ Hinv). lia.
Qed.

(** What a push of [amt] from the contract to [to] does to the balances. *)
Lemma push_effect this to amt t t' :
  transfer this to amt t = Ok t' →
  (to ≠ this →
   balanceOf t' to = balanceOf t to + amt ∧
   balanceOf t' this = balanceOf t this - amt) ∧
  (∀ a, a ≠ this → a ≠ to → balanceOf t' a = balanceOf t a).
Proof.
  intros Ht. split.
  - intros Hne. split.
    + rewrite (transfer_balanceOf _ _ _ _ _ to Ht). repeat case_decide; congruence.
    + rewrite (transfer_balanceOf _ _ _ _ _ this Ht). repeat case_decide; congruence.
  - intros a Ha1 Ha2.
    rewrite (transfer_balanceOf _ _ _ _ _ a Ht). repeat case_decide; congruence.
Qed.

(** ** resolveDispute *)

(** C2: [resolveDispute] succeeds only on a Disputed job and only once the
    clock is strictly past deadline + 7 days; on a job that is not Disputed
    it fails with the state error "Not disputed", and on a Disputed job
    whose window has not elapsed with the timing error "Resolution period
    not ended". A successful call sets the status to Resolved, leaves every
    other field and job alone, and pushes the whole amount to the client:
    the client's balance grows by [amount], the held balance shrinks by it
    and no other account (the worker included) receives anything. Past the
    window, with the amount in custody and a client the token pays, the
    call does succeed; when the token refuses the client, the call fails
    with the token's revert, a transfer failure, and the job stays
    Disputed. *)
Theorem resolveDispute_spec this e id s :
  (∀ s', resolveDispute this e id s = Ok s' →
     status (job_at s id) = Disputed ∧
     deadline (job_at s id) + RESOLUTION_PERIOD < block_timestamp e ∧
     job_at s' id = set_status Resolved (job_at s id) ∧
     (∀ id', id' ≠ id → job_at s' id' = job_at s id') ∧
     transfer this (client (job_at s id)) (amount (job_at s id)) (usdc s)
       = Ok (usdc s') ∧
     (client (job_at s id) ≠ this →
      balanceOf (usdc s') (client (job_at s id))
        = balanceOf (usdc s) (client (job_at s id)) + amount (job_at s id) ∧
      held this s' = held this s - amount (job_at s id)) ∧
     (∀ a, a ≠ this → a ≠ client (job_at s id) →
      balanceOf (usdc s') a = balanceOf (usdc s) a)) ∧
  (status (job_at s id) ≠ Disputed →
     resolveDispute this e id s = Err (Revert NotDisputed) ∧
     kind_of (Revert NotDisputed) = StateError) ∧
  (status (job_at s id) = Disputed →
   deadline (job_at s id) + RESOLUTION_PERIOD < UINT256_MOD →
   block_timestamp e ≤ deadline (job_at s id) + RESOLUTION_PERIOD →
     resolveDispute this e id s = Err (Revert ResolutionPeriodNotEnded) ∧
     kind_of (Revert ResolutionPeriodNotEnded) = TimingError) ∧
  (status (job_at s id) = Disputed →
   deadline (job_at s id) + RESOLUTION_PERIOD < UINT256_MOD →
   deadline (job_at s id) + RESOLUTION_PERIOD < block_timestamp e →
   amount (job_at s id) ≤ held this s →
   accepts (usdc s) (client (job_at s id)) →
     ∃ s', resolveDispute this e id s = Ok s') ∧
  (status (job_at s id) = Disputed →
   deadline (job_at s id) + RESOLUTION_PERIOD < UINT256_MOD →
   deadline (job_at s id) + RESOLUTION_PERIOD < block_timestamp e →
   ¬ accepts (usdc s) (client (job_at s id)) →
     resolveDispute this e id s = Err (TokenRevert ReceiverRefused) ∧
     kind_of (TokenRevert ReceiverRefused) = TransferFailure) ∧
  RESOLUTION_PERIOD = 7 * days.
Proof.
  split_and!.
  - intros s' Hex.
    apply resolveDispute_Ok in Hex as (Hst & Hov & Hts & t & Ht & ->).
    split_and!; try done.
    + rewrite job_at_insert. by rewrite decide_True.
    + intros id' Hne. rewrite job_at_insert. by rewrite decide_False.
    + intros Hne. by apply (push_effect _ _ _ _ _ Ht).
    + by apply (push_effect _ _ _ _ _ Ht).
  - intros Hst. split; [|done]. unfold resolveDispute.
    by rewrite require_false by by apply bool_decide_eq_false_2.
  - intros Hst Hov Hts. split; [|done]. unfold resolveDispute, checked_add.
    rewrite require_true by by apply bool_decide_eq_true_2. simpl.
    rewrite (bool_decide_eq_true_2 _ Hov). simpl.
    rewrite require_false; [done|]. apply bool_decide_eq_false_2. lia.
  - intros Hst Hov Hts Hheld Hacc.
    destruct (transfer_succeeds this (client (job_at s id)) _ (usdc s) Hheld Hacc)
      as [t Ht].
    eexists. apply resolveDispute_Ok. split_and!; try done. by exists t.
  - intros Hst Hov Hts Hno. split; [|done]. unfold resolveDispute, checked_add.
    rewrite require_true by by apply bool_decide_eq_true_2. simpl.
    rewrite (bool_decide_eq_true_2 _ Hov). simpl.
    rewrite require_true by by apply bool_decide_eq_true_2. simpl.
    by rewrite transfer_refused.
  - done.
Qed.

Lemma resolveDispute_spec_witness :
  resolveDispute Demo.escrow (Demo.at_ Demo.bob 604910) 0 Demo.disputed
    = Err (Revert ResolutionPeriodNotEnded) ∧
  ∃ s', resolveDispute Demo.escrow (Demo.at_ Demo.bob 604911) 0 Demo.disputed = Ok s' ∧
        status (job_at s' 0) = Resolved ∧
        balanceOf (usdc s') Demo.alice
          = balanceOf (usdc Demo.disputed) Demo.alice + 1000000.
Proof.
  split.
  - destruct (resolveDispute_spec Demo.escrow (Demo.at_ Demo.bob 604910) 0
                Demo.disputed) as (_ & _ & Hearly & _).
    apply Hearly; by vm_compute.
  - destruct (resolveDispute_spec Demo.escrow (Demo.at_ Demo.bob 604911) 0
                Demo.disputed) as (Hok & _ & _ & Hlate & _).
    destruct Hlate as [s' Hs'];
      [by vm_compute|by vm_compute|by vm_compute|by vm_compute| |].
    { apply (bool_decide_unpack _). vm_compute. exact I. }
    exists s'. split; [done|].
    destruct (Hok s' Hs') as (_ & _ & Hjob & _ & _ & Hbal & _).
    split.
    + by rewrite Hjob.
    + destruct Hbal as [Hbal _]; [by vm_compute|]. exact Hbal.
Defined.


(** ** completeJob *)

(** C3, as the code has it: in a reachable state [completeJob] succeeds
    exactly when the caller is the job's client, the status is Created or
    Funded, a worker is assigned and the token delivers to that worker. A
    caller other than the client gets the authorization error "Only client
    can complete"; the client gets a state error when the status is neither
    Created nor Funded ("Invalid status") or no worker is assigned ("No
    worker assigned"); when all three checks pass and the token refuses the
    worker, the call fails with the token's revert, a transfer failure. A
    successful call sets the status to Completed, leaves every other field
    and job alone and pushes the job's amount to the worker. *)
Theorem completeJob_spec keccak256 this s e id :
  counter_injective keccak256 →
  reachable keccak256 this s →
  ((∃ s', completeJob this e id s = Ok s') ↔
     msg_sender e = client (job_at s id) ∧
     (status (job_at s id) = Created ∨ status (job_at s id) = Funded) ∧
     worker (job_at s id) ≠ address0 ∧
     accepts (usdc s) (worker (job_at s id))) ∧
  (msg_sender e ≠ client (job_at s id) →
     ∃ err, completeJob this e id s = Err err ∧ kind_of err = AuthorizationError) ∧
  (msg_sender e = client (job_at s id) →
   worker (job_at s id) = address0 ∨
   (status (job_at s id) ≠ Created ∧ status (job_at s id) ≠ Funded) →
     ∃ err, completeJob this e id s = Err err ∧ kind_of err = StateError) ∧
  (msg_sender e = client (job_at s id) →
   status (job_at s id) = Created ∨ status (job_at s id) = Funded →
   worker (job_at s id) ≠ address0 →
   ¬ accepts (usdc s) (worker (job_at s id)) →
     completeJob this e id s = Err (TokenRevert ReceiverRefused) ∧
     kind_of (TokenRevert ReceiverRefused) = TransferFailure) ∧
  (∀ s', completeJob this e id s = Ok s' →
     job_at s' id = set_status Completed (job_at s id) ∧
     (∀ id', id' ≠ id → job_at s' id' = job_at s id') ∧
     transfer this (worker (job_at s id)) (amount (job_at s id)) (usdc s)
       = Ok (usdc s') ∧
     (worker (job_at s id) ≠ this →
      balanceOf (usdc s') (worker (job_at s id))
        = balanceOf (usdc s) (worker (job_at s id)) + amount (job_at s id) ∧
      held this s' = held this s - amount (job_at s id))).
Proof.
  intros Hinj Hreach.
  pose proof (invariant_reachable _ _ Hinj _ Hreach) as Hinv.
  split_and!.
  - split.
    + intros [s' (? & ? & ? & t & (_ & ? & _)%transfer_Ok & _)%completeJob_Ok].
      tauto.
    + intros (Hc & Hst & Hw & Hacc).
      assert (active (status (job_at s id)) = true) as Hact
        by (by destruct Hst as [-> | ->]).
      pose proof (amount_held _ _ _ _ Hinv Hact) as Hheld.
      destruct (transfer_succeeds this (worker (job_at s id)) _ (usdc s) Hheld Hacc)
        as [t Ht].
      eexists. apply completeJob_Ok. split_and!; [done|tauto|done|by exists t].
  - intros Hne. exists (Revert OnlyClientCanComplete). split; [|done].
    unfold completeJob, require.
    by rewrite (bool_decide_eq_false_2 (msg_sender e = _)) by done.
  - intros Hc Hbad. unfold completeJob, require.
    rewrite (bool_decide_eq_true_2 (msg_sender e = _)) by done. simpl.
    destruct (status (job_at s id)) eqn:Hst; simpl;
      try (by exists (Revert InvalidStatus));
      (destruct Hbad as [Hw|[? ?]]; [|done]);
      exists (Revert NoWorkerAssigned);
      by rewrite (bool_decide_eq_false_2 (worker _ ≠ _)) by tauto.
  - intros Hc Hst Hw Hno. split; [|done]. unfold completeJob, require.
    rewrite (bool_decide_eq_true_2 (msg_sender e = _)) by done. simpl.
    rewrite (bool_decide_eq_true_2 (worker _ ≠ _)) by done.
    rewrite transfer_refused by done.
    by destruct Hst as [-> | ->].
  - intros s' Hex.
    apply completeJob_Ok in Hex as (Hc & Hst & Hw & t & Ht & ->).
    split_and!; try done.
    + rewrite job_at_insert. by rewrite decide_True.
    + intros id' Hne. rewrite job_at_insert. by rewrite decide_False.
    + intros Hne. by apply (push_effect _ _ _ _ _ Ht).
Qed.

(** C3, as stated, fails: Alice's job is Funded with Bob as its worker, and
    Alice, its client, calls [completeJob]; the token does not deliver to
    Bob, so the call reverts and the job stays Funded. *)
Lemma completeJob_spec_counterexample :
  ¬ (∀ s e id, reachable Demo.keccak Demo.escrow s → valid_env Demo.escrow e →
       ((∃ s', completeJob Demo.escrow e id s = Ok s') ↔
          msg_sender e = client (job_at s id) ∧
          (status (job_at s id) = Created ∨ status (job_at s id) = Funded) ∧
          worker (job_at s id) ≠ address0)).
Proof.
  intros H.
  destruct (proj2 (H Demo.wary_accepted (Demo.at_ Demo.alice 50) 0
                     DemoFacts.wary_accepted_reachable ltac:(by vm_compute)))
    as [s' Hs'].
  - vm_compute. split_and!; [done|by right|done].
  - vm_compute in Hs'. discriminate Hs'.
Qed.

Lemma completeJob_spec_witness :
  (∃ s', completeJob Demo.escrow (Demo.at_ Demo.alice 50) 0 Demo.accepted = Ok s' ∧
         status (job_at s' 0) = Completed ∧
         balanceOf (usdc s') Demo.bob = 1000000) ∧
  (∃ err, completeJob Demo.escrow (Demo.at_ Demo.bob 50) 0 Demo.accepted = Err err ∧
          kind_of err = AuthorizationError) ∧
  (∃ err, completeJob Demo.escrow (Demo.at_ Demo.alice 50) 0 Demo.open_job = Err err ∧
          kind_of err = StateError) ∧
  completeJob Demo.escrow (Demo.at_ Demo.alice 50) 0 Demo.wary_accepted
    = Err (TokenRevert ReceiverRefused).
Proof.
  split_and!.
  - destruct (completeJob_spec Demo.keccak Demo.escrow Demo.accepted
                (Demo.at_ Demo.alice 50) 0
                DemoFacts.keccak_inj DemoFacts.accepted_reachable)
      as (Hiff & _ & _ & _ & Heff).
    destruct (proj2 Hiff) as [s' Hs'].
    { split_and!; [by vm_compute|by right|by vm_compute|].
      apply (bool_decide_unpack _). vm_compute. exact I. }
    exists s'. split; [done|].
    destruct (Heff s' Hs') as (Hjob & _ & _ & Hbal).
    split; [by rewrite Hjob|].
    destruct Hbal as [Hbal _]; [by vm_compute|].
    change Demo.bob with (worker (job_at Demo.accepted 0)).
    rewrite Hbal. by vm_compute.
  - destruct (completeJob_spec Demo.keccak Demo.escrow Demo.accepted
                (Demo.at_ Demo.bob 50) 0
                DemoFacts.keccak_inj DemoFacts.accepted_reachable)
      as (_ & Hauth & _).
    apply Hauth. by vm_compute.
  - destruct (completeJob_spec Demo.keccak Demo.escrow Demo.open_job
                (Demo.at_ Demo.alice 50) 0
                DemoFacts.keccak_inj DemoFacts.open_job_reachable)
      as (_ & _ & Hstate & _).
    apply Hstate; [by vm_compute|]. left. by vm_compute.
  - destruct (completeJob_spec Demo.keccak Demo.escrow Demo.wary_accepted
                (Demo.at_ Demo.alice 50) 0
                DemoFacts.keccak_inj DemoFacts.wary_accepted_reachable)
      as (_ & _ & _ & Hrefused & _).
    apply Hrefused; [by vm_compute|by right|by vm_compute|].
    apply (bool_decide_unpack _). vm_compute. exact I.
Defined.

(** ** cancelJob *)

(** C8, as the code has it: in a reachable state [cancelJob] succeeds
    exactly when the caller is the job's client, the status is Created,
    either no worker is assigned or the clock is strictly past the deadline,
    and the token delivers to the client. When the three checks pass and
    the token refuses the client (as every token refuses the zero address,
    the client of an identifier that was never created), the call fails
    with the token's revert, a transfer failure. A successful call sets the
    status to Cancelled, leaves every other field and job alone and pushes
    the job's amount back to the client. *)
Theorem cancelJob_spec keccak256 this s e id :
  counter_injective keccak256 →
  reachable keccak256 this s →
  ((∃ s', cancelJob this e id s = Ok s') ↔
     msg_sender e = client (job_at s id) ∧
     status (job_at s id) = Created ∧
     (worker (job_at s id) = address0 ∨
      deadline (job_at s id) < block_timestamp e) ∧
     accepts (usdc s) (client (job_at s id))) ∧
  (msg_sender e = client (job_at s id) →
   status (job_at s id) = Created →
   worker (job_at s id) = address0 ∨ deadline (job_at s id) < block_timestamp e →
   ¬ accepts (usdc s) (client (job_at s id)) →
     cancelJob this e id s = Err (TokenRevert ReceiverRefused) ∧
     kind_of (TokenRevert ReceiverRefused) = TransferFailure) ∧
  (∀ s', cancelJob this e id s = Ok s' →
     job_at s' id = set_status Cancelled (job_at s id) ∧
     (∀ id', id' ≠ id → job_at s' id' = job_at s id') ∧
     transfer this (client (job_at s id)) (amount (job_at s id)) (usdc s)
       = Ok (usdc s') ∧
     (client (job_at s id) ≠ this →
      balanceOf (usdc s') (client (job_at s id))
        = balanceOf (usdc s) (client (job_at s id)) + amount (job_at s id) ∧
      held this s' = held this s - amount (job_at s id))).
Proof.
  intros Hinj Hreach.
  pose proof (invariant_reachable _ _ Hinj _ Hreach) as Hinv.
  split_and!.
  - split.
    + intros [s' (? & ? & ? & t & (_ & ? & _)%transfer_Ok & _)%cancelJob_Ok].
      tauto.
    + intros (Hc & Hst & Hw & Hacc).
      assert (active (status (job_at s id)) = true) as Hact by (by rewrite Hst).
      pose proof (amount_held _ _ _ _ Hinv Hact) as Hheld.
      destruct (transfer_succeeds this (client (job_at s id)) _ (usdc s) Hheld Hacc)
        as [t Ht].
      eexists. apply cancelJob_Ok. split_and!; [done..|by exists t].
  - intros Hc Hst Hw Hno. split; [|done]. unfold cancelJob, require.
    rewrite (bool_decide_eq_true_2 (msg_sender e = _)) by done. simpl.
    rewrite (bool_decide_eq_true_2 (status _ = _)) by done. simpl.
    rewrite transfer_refused by done.
    destruct Hw as [Hw|Hw].
    + by rewrite (bool_decide_eq_true_2 (worker _ = _)) by done.
    + rewrite (bool_decide_eq_true_2 (deadline _ < _)) by done.
      by rewrite orb_true_r.
  - intros s' Hex.
    apply cancelJob_Ok in Hex as (Hc & Hst & Hw & t & Ht & ->).
    split_and!; try done.
    + rewrite job_at_insert. by rewrite decide_True.
    + intros id' Hne. rewrite job_at_insert. by rewrite decide_False.
    + intros Hne. by apply (push_effect _ _ _ _ _ Ht).
Qed.

(** C8, as stated, fails: Alice's open job is Created with no worker, and
    the token has stopped delivering to Alice; her [cancelJob] reverts in
    the refund and the job stays Created. *)
Lemma cancelJob_spec_counterexample :
  ¬ (∀ s e id, reachable Demo.keccak Demo.escrow s → valid_env Demo.escrow e →
       ((∃ s', cancelJob Demo.escrow e id s = Ok s') ↔
          msg_sender e = client (job_at s id) ∧
          status (job_at s id) = Created ∧
          (worker (job_at s id) = address0 ∨
           deadline (job_at s id) < block_timestamp e))).
Proof.
  intros H.
  destruct (proj2 (H Demo.frozen_job (Demo.at_ Demo.alice 50) 0
                     DemoFacts.frozen_job_reachable ltac:(by vm_compute)))
    as [s' Hs'].
  - vm_compute. split_and!; [done|done|by left].
  - vm_compute in Hs'. discriminate Hs'.
Qed.

Lemma cancelJob_spec_witness :
  (∃ s', cancelJob Demo.escrow (Demo.at_ Demo.alice 111) 0 Demo.assigned_job = Ok s' ∧
         status (job_at s' 0) = Cancelled ∧
         balanceOf (usdc s') Demo.alice = 5000000) ∧
  ¬ (∃ s', cancelJob Demo.escrow (Demo.at_ Demo.alice 110) 0 Demo.assigned_job = Ok s') ∧
  cancelJob Demo.escrow (Demo.at_ Demo.alice 50) 0 Demo.frozen_job
    = Err (TokenRevert ReceiverRefused).
Proof.
  destruct (cancelJob_spec Demo.keccak Demo.escrow Demo.assigned_job
              (Demo.at_ Demo.alice 111) 0
              DemoFacts.keccak_inj DemoFacts.assigned_job_reachable)
    as (Hiff & _ & Heff).
  destruct (cancelJob_spec Demo.keccak Demo.escrow Demo.assigned_job
              (Demo.at_ Demo.alice 110) 0
              DemoFacts.keccak_inj DemoFacts.assigned_job_reachable)
    as (Hiff' & _).
  destruct (cancelJob_spec Demo.keccak Demo.escrow Demo.frozen_job
              (Demo.at_ Demo.alice 50) 0
              DemoFacts.keccak_inj DemoFacts.frozen_job_reachable)
    as (_ & Hrefused & _).
  split_and!.
  - destruct (proj2 Hiff) as [s' Hs'].
    { split_and!; [by vm_compute|by vm_compute|by right|].
      apply (bool_decide_unpack _). vm_compute. exact I. }
    exists s'. split; [done|].
    destruct (Heff s' Hs') as (Hjob & _ & _ & Hbal).
    split; [by rewrite Hjob|].
    destruct Hbal as [Hbal _]; [by vm_compute|].
    change Demo.alice with (client (job_at Demo.assigned_job 0)).
    rewrite Hbal. by vm_compute.
  - intros Hex. apply Hiff' in Hex as (_ & _ & [Hw|Hts] & _).
    + vm_compute in Hw. discriminate Hw.
    + vm_compute in Hts. discriminate Hts.
  - apply Hrefused; [by vm_compute|by vm_compute|by left|].
    apply (bool_decide_unpack _). vm_compute. exact I.
Defined.


(** ** createJob *)

Lemma length_pos_iff (h : string) : (0 < String.length h)%nat ↔ h ≠ "".
Proof. destruct h; simpl; split; try done; lia. Qed.

Lemma createJob_succeeds keccak256 this e w a d h s :
  MIN_AMOUNT ≤ a → 0 < d → d ≤ MAX_DURATION → h ≠ "" →
  jobCount s + 1 < UINT256_MOD → block_timestamp e + d < UINT256_MOD →
  a ≤ balanceOf (usdc s) (msg_sender e) →
  a ≤ allowance (usdc s) (msg_sender e) this →
  ∃ id s', createJob keccak256 this e w a d h s = Ok (id, s') ∧
    job_at s' id = {| client := msg_sender e; worker := w; amount := a;
                      deadline := block_timestamp e + d; jobHash := h;
                      status := Created; createdAt := block_timestamp e |}.
Proof.
  intros Ha Hd0 Hd1 Hh Hc Ht Hbal Hall.
  destruct (transferFrom_succeeds this (msg_sender e) this a (usdc s) Hbal Hall)
    as [t Htr].
  eexists _, _. split.
  - apply createJob_Ok. split_and!; try done.
    + by apply length_pos_iff.
    + exists t. split; [exact Htr|reflexivity].
  - rewrite job_at_insert. by rewrite decide_True.
Qed.

Lemma createJob_amount_too_small keccak256 this e w a d h s :
  a < MIN_AMOUNT →
  createJob keccak256 this e w a d h s = Err (Revert AmountTooSmall).
Proof.
  intros Ha. unfold createJob, require.
  rewrite (bool_decide_eq_false_2 (MIN_AMOUNT ≤ a)) by lia. done.
Qed.

Lemma createJob_invalid_duration keccak256 this e w a d h s :
  d = 0 ∨ MAX_DURATION < d →
  ∃ err, createJob keccak256 this e w a d h s = Err err ∧
         kind_of err = ValidationError.
Proof.
  intros Hd. unfold createJob, require.
  destruct (bool_decide (MIN_AMOUNT ≤ a)); simpl;
    [|by exists (Revert AmountTooSmall)].
  exists (Revert InvalidDuration). split; [|done].
  destruct Hd as [-> | Hd]; [done|].
  rewrite (bool_decide_eq_false_2 (d ≤ MAX_DURATION)) by lia.
  by rewrite andb_false_r.
Qed.

Lemma createJob_hash_required keccak256 this e w a d s :
  ∃ err, createJob keccak256 this e w a d "" s = Err err ∧
         kind_of err = ValidationError.
Proof.
  unfold createJob, require.
  destruct (bool_decide (MIN_AMOUNT ≤ a)); simpl;
    [|by exists (Revert AmountTooSmall)].
  destruct (bool_decide (0 < d) && bool_decide (d ≤ MAX_DURATION)); simpl;
    [|by exists (Revert InvalidDuration)].
  by exists (Revert JobHashRequired).
Qed.

(** C7: the input checks of [createJob] at their boundaries. With a valid
    duration and a non-empty description hash, an amount of exactly
    [MIN_AMOUNT] is accepted (the caller having the funds and the allowance,
    and the counters not overflowing) and creates a Created job; an amount
    of [MIN_AMOUNT - 1] is rejected with "Amount too small". With a valid
    amount, a duration of exactly [MAX_DURATION] is accepted; a duration of
    [MAX_DURATION + 1], a duration of zero and an empty hash are rejected.
    Every rejection is a validation error. *)
Theorem createJob_validation keccak256 this e w a d h s :
  (0 < d → d ≤ MAX_DURATION → h ≠ "" →
   jobCount s + 1 < UINT256_MOD → block_timestamp e + d < UINT256_MOD →
   MIN_AMOUNT ≤ balanceOf (usdc s) (msg_sender e) →
   MIN_AMOUNT ≤ allowance (usdc s) (msg_sender e) this →
     ∃ id s', createJob keccak256 this e w MIN_AMOUNT d h s = Ok (id, s') ∧
              status (job_at s' id) = Created ∧
              amount (job_at s' id) = MIN_AMOUNT) ∧
  (∃ err, createJob keccak256 this e w (MIN_AMOUNT - 1) d h s = Err err ∧
          err = Revert AmountTooSmall ∧ kind_of err = ValidationError) ∧
  (MIN_AMOUNT ≤ a → h ≠ "" →
   jobCount s + 1 < UINT256_MOD →
   block_timestamp e + MAX_DURATION < UINT256_MOD →
   a ≤ balanceOf (usdc s) (msg_sender e) →
   a ≤ allowance (usdc s) (msg_sender e) this →
     ∃ id s', createJob keccak256 this e w a MAX_DURATION h s = Ok (id, s') ∧
              status (job_at s' id) = Created ∧
              deadline (job_at s' id) = block_timestamp e + MAX_DURATION) ∧
  (∃ err, createJob keccak256 this e w a (MAX_DURATION + 1) h s = Err err ∧
          kind_of err = ValidationError) ∧
  (∃ err, createJob keccak256 this e w a 0 h s = Err err ∧
          kind_of err = ValidationError) ∧
  (∃ err, createJob keccak256 this e w a d "" s = Err err ∧
          kind_of err = ValidationError).
Proof.
  split_and!.
  - intros Hd0 Hd1 Hh Hc Ht Hbal Hall.
    destruct (createJob_succeeds keccak256 this e w MIN_AMOUNT d h s)
      as (id & s' & Hok & Hjob); try done.
    exists id, s'. by rewrite Hjob.
  - exists (Revert AmountTooSmall). split; [|done].
    apply createJob_amount_too_small. by vm_compute.
  - intros Ha Hh Hc Ht Hbal Hall.
    destruct (createJob_succeeds keccak256 this e w a MAX_DURATION h s)
      as (id & s' & Hok & Hjob); try done.
    exists id, s'. by rewrite Hjob.
  - apply createJob_invalid_duration. right. lia.
  - apply createJob_invalid_duration. by left.
  - apply createJob_hash_required.
Qed.

Lemma createJob_validation_witness :
  (∃ id s', createJob Demo.keccak Demo.escrow (Demo.at_ Demo.alice 10)
              0 MIN_AMOUNT 100 "h" Demo.deployed = Ok (id, s') ∧
            status (job_at s' id) = Created ∧ amount (job_at s' id) = MIN_AMOUNT) ∧
  (∃ id s', createJob Demo.keccak Demo.escrow (Demo.at_ Demo.alice 10)
              0 2000000 MAX_DURATION "h" Demo.deployed = Ok (id, s') ∧
            status (job_at s' id) = Created ∧
            deadline (job_at s' id) = 10 + MAX_DURATION).
Proof.
  destruct (createJob_validation Demo.keccak Demo.escrow (Demo.at_ Demo.alice 10)
              0 2000000 100 "h" Demo.deployed) as (Hmin & _ & Hmax & _).
  split.
  - apply Hmin; by vm_compute.
  - apply Hmax; by vm_compute.
Defined.


(** ** The life of one job *)

Lemma job_step_frame e c id j j' :
  job_step e c id j j' → client j ≠ address0 →
  client j' = client j ∧ amount j' = amount j ∧ deadline j' = deadline j ∧
  jobHash j' = jobHash j ∧ createdAt j' = createdAt j.
Proof. intros Hstep Hc. by destruct Hstep. Qed.

Lemma job_step_status e c id j j' :
  job_step e c id j j' →
  status j' = status j ∨ edge (status j) (status j').
Proof.
  destruct 1 as [| | ? ? Hst | ? ? ? Hst | ? ? ? Hst | ? ? ? Hst | ? ? Hst];
    simpl; try (by left); right; try rewrite Hst; try constructor.
  destruct Hst as [-> | ->]; constructor.
Qed.

Lemma job_step_worker e c id j j' :
  job_step e c id j j' → worker j ≠ address0 → worker j' = worker j.
Proof. intros Hstep Hw. by destruct Hstep. Qed.

Lemma edge_rank a b : edge a b → (rank a < rank b)%nat.
Proof. destruct 1; simpl; lia. Qed.

Lemma rtc_edge_rank a b : rtc edge a b → a = b ∨ (rank a < rank b)%nat.
Proof.
  induction 1 as [|a b c Hab _ IH]; [by left|].
  right. apply edge_rank in Hab. destruct IH as [<- | ?]; lia.
Qed.

Lemma rank_terminal a : terminal a = true → rank a = 3%nat.
Proof. by destruct a. Qed.

Lemma rank_le_3 a : (rank a ≤ 3)%nat.
Proof. destruct a; simpl; lia. Qed.

Section Life.

Variable keccak256 : N → N → N → N → N → N.
Variable this : N.
Hypothesis keccak256_inj : counter_injective keccak256.

Local Abbreviation invariant := (invariant keccak256 this).
Local Abbreviation step := (step keccak256 this).
Local Abbreviation reachable := (reachable keccak256 this).
Local Abbreviation exec := (exec keccak256 this).

(** A stored job is never the all-zero record: its client is an account. *)
Lemma stored_client s id :
  invariant s → is_Some (jobs s !! id) ↔ client (job_at s id) ≠ address0.
Proof.
  intros Hinv. unfold job_at. split.
  - intros [j Hj]. rewrite Hj. simpl. by apply (inv_client _ _ _ Hinv id).
  - destruct (jobs s !! id); [by eexists|done].
Qed.

Lemma steps_frame s s' id :
  invariant s → rtc step s s' → client (job_at s id) ≠ address0 →
  client (job_at s' id) = client (job_at s id) ∧
  amount (job_at s' id) = amount (job_at s id) ∧
  deadline (job_at s' id) = deadline (job_at s id) ∧
  jobHash (job_at s' id) = jobHash (job_at s id) ∧
  createdAt (job_at s' id) = createdAt (job_at s id).
Proof.
  intros Hinv Hsteps. induction Hsteps as [s|s s1 s2 Hstep _ IH]; [done|].
  intros Hc.
  destruct (step_job_step keccak256 this keccak256_inj _ _ id Hinv Hstep)
    as (e & c & _ & Hjs).
  destruct (job_step_frame _ _ _ _ _ Hjs Hc) as (E1 & E2 & E3 & E4 & E5).
  destruct IH as (F1 & F2 & F3 & F4 & F5).
  - by eapply invariant_step.
  - by rewrite E1.
  - split_and!; congruence.
Qed.

Lemma steps_status s s' id :
  invariant s → rtc step s s' →
  rtc edge (status (job_at s id)) (status (job_at s' id)).
Proof.
  intros Hinv Hsteps. induction Hsteps as [s|s s1 s2 Hstep _ IH]; [done|].
  destruct (step_job_step keccak256 this keccak256_inj _ _ id Hinv Hstep)
    as (e & c & _ & Hjs).
  specialize (IH (invariant_step _ _ keccak256_inj _ _ Hinv Hstep)).
  destruct (job_step_status _ _ _ _ _ Hjs) as [Heq|Hedge].
  - by rewrite <-Heq.
  - by eapply rtc_l.
Qed.

Lemma steps_worker s s' id :
  invariant s → rtc step s s' → worker (job_at s id) ≠ address0 →
  worker (job_at s' id) = worker (job_at s id).
Proof.
  intros Hinv Hsteps. induction Hsteps as [s|s s1 s2 Hstep _ IH]; [done|].
  intros Hw.
  destruct (step_job_step keccak256 this keccak256_inj _ _ id Hinv Hstep)
    as (e & c & _ & Hjs).
  pose proof (job_step_worker _ _ _ _ _ Hjs Hw) as E.
  rewrite <-E. apply IH.
  - by eapply invariant_step.
  - by rewrite E.
Qed.

End Life.

(** ** The deadline *)

(** C4, as the code has it: there is no [extendDeadline]. No call of the
    contract carries that name, and neither the contract's interface nor the
    client's ABI lists it. Through every sequence of steps a stored job
    keeps its deadline, its client, its amount, its description hash and
    its creation time; and the values they keep are those [createJob]
    wrote: the deadline is the creation time plus the duration, the
    creation time is the time of the call, the client is the caller, the
    amount and the hash are the arguments. *)
Theorem deadline_fixed keccak256 this s :
  counter_injective keccak256 →
  reachable keccak256 this s →
  (∀ s' id, rtc (step keccak256 this) s s' → is_Some (jobs s !! id) →
     deadline (job_at s' id) = deadline (job_at s id) ∧
     client (job_at s' id) = client (job_at s id) ∧
     amount (job_at s' id) = amount (job_at s id) ∧
     jobHash (job_at s' id) = jobHash (job_at s id) ∧
     createdAt (job_at s' id) = createdAt (job_at s id)) ∧
  (∀ e w a d h id s1 s2,
     valid_env this e →
     createJob keccak256 this e w a d h s = Ok (id, s1) →
     rtc (step keccak256 this) s1 s2 →
     deadline (job_at s2 id) = block_timestamp e + d ∧
     createdAt (job_at s2 id) = block_timestamp e ∧
     client (job_at s2 id) = msg_sender e ∧
     amount (job_at s2 id) = a ∧
     jobHash (job_at s2 id) = h) ∧
  (∀ c, call_name c ≠ "extendDeadline") ∧
  ("extendDeadline" ∉ contract_interface) ∧
  ("extendDeadline" ∉ ESCROW_ABI).
Proof.
  intros Hinj Hreach.
  pose proof (invariant_reachable _ _ Hinj _ Hreach) as Hinv.
  split_and!.
  - intros s' id Hsteps Hstored.
    apply (stored_client keccak256 this s id Hinv) in Hstored.
    destruct (steps_frame keccak256 this Hinj s s' id Hinv Hsteps Hstored)
      as (? & ? & ? & ? & ?).
    done.
  - intros e w a d h id s1 s2 Hv Hcr Hsteps.
    assert (step keccak256 this s s1) as Hstep.
    { apply (step_call _ _ e (CreateJob w a d h)); [done|].
      simpl. by rewrite Hcr. }
    pose proof (invariant_step _ _ Hinj _ _ Hinv Hstep) as Hinv1.
    apply createJob_Ok in Hcr as (_ & _ & _ & _ & _ & _ & _ & t & _ & ->).
    destruct (steps_frame keccak256 this Hinj _ s2 id Hinv1 Hsteps)
      as (Ec & Ea & Ed & Eh & Et).
    { rewrite job_at_insert, decide_True by done. simpl. by destruct Hv. }
    rewrite job_at_insert, decide_True in Ec, Ea, Ed, Eh, Et by done.
    done.
  - by intros [].
  - apply (bool_decide_unpack _). by vm_compute.
  - apply (bool_decide_unpack _). by vm_compute.
Qed.

Lemma deadline_fixed_witness :
  deadline (job_at Demo.disputed 0) = deadline (job_at Demo.open_job 0) ∧
  deadline (job_at Demo.disputed 0) = 10 + 100 ∧
  createdAt (job_at Demo.disputed 0) = 10 ∧
  client (job_at Demo.disputed 0) = Demo.alice.
Proof.
  split.
  - destruct (deadline_fixed Demo.keccak Demo.escrow Demo.open_job
                DemoFacts.keccak_inj DemoFacts.open_job_reachable)
      as (Hkeep & _).
    apply (Hkeep Demo.disputed 0).
    + etrans; apply run_steps; DemoFacts.valid_calls.
    + vm_compute. by eexists.
  - destruct (deadline_fixed Demo.keccak Demo.escrow Demo.deployed
                DemoFacts.keccak_inj DemoFacts.deployed_reachable)
      as (_ & Hwrote & _).
    destruct (Hwrote (Demo.at_ Demo.alice 10) 0 1000000 100 "h"%string 0
                Demo.open_job Demo.disputed)
      as (Hd & Ht & Hc & _).
    + by vm_compute.
    + by vm_compute.
    + etrans; apply run_steps; DemoFacts.valid_calls.
    + done.
Defined.

(** C4, as stated, fails: the contract offers no [extendDeadline], and no
    call it does offer raises the deadline of the open (Created) job of the
    example, whoever makes it and whenever. *)
Lemma extendDeadline_counterexample :
  ("extendDeadline" ∉ contract_interface) ∧
  ("extendDeadline" ∉ ESCROW_ABI) ∧
  ¬ (∃ e c s', exec Demo.keccak Demo.escrow e c Demo.open_job = Ok s' ∧
               deadline (job_at Demo.open_job 0) < deadline (job_at s' 0)).
Proof.
  split_and!.
  - apply (bool_decide_unpack _). by vm_compute.
  - apply (bool_decide_unpack _). by vm_compute.
  - intros (e & c & s' & Hex & Hlt).
    pose proof (invariant_reachable _ _ DemoFacts.keccak_inj _
                  DemoFacts.open_job_reachable) as Hinv.
    pose proof (exec_job_step _ _ DemoFacts.keccak_inj e c _ _ 0 Hinv Hex) as Hjs.
    apply job_step_frame in Hjs as (_ & _ & Hd & _); [|by vm_compute].
    rewrite Hd in Hlt. lia.
Qed.

(** ** Status transitions *)

(** C5, as the code has it: every step either leaves a job's status alone or
    moves it along one of the edges Created → Funded, Created → Completed,
    Funded → Completed, Funded → Disputed, Disputed → Resolved,
    Created → Cancelled; so the statuses a job goes through form a path in
    that graph, a terminal status (Completed, Resolved, Cancelled) is never
    changed again, and a status once left is never entered again. *)
Theorem status_monotone keccak256 this s s1 s2 id :
  counter_injective keccak256 →
  reachable keccak256 this s →
  step keccak256 this s s1 →
  rtc (step keccak256 this) s1 s2 →
  (status (job_at s1 id) = status (job_at s id) ∨
   edge (status (job_at s id)) (status (job_at s1 id))) ∧
  rtc edge (status (job_at s id)) (status (job_at s2 id)) ∧
  (terminal (status (job_at s id)) = true →
   status (job_at s1 id) = status (job_at s id) ∧
   status (job_at s2 id) = status (job_at s id)) ∧
  (status (job_at s1 id) ≠ status (job_at s id) →
   status (job_at s2 id) ≠ status (job_at s id)).
Proof.
  intros Hinj Hreach Hstep Hsteps.
  pose proof (invariant_reachable _ _ Hinj _ Hreach) as Hinv.
  pose proof (invariant_step _ _ Hinj _ _ Hinv Hstep) as Hinv1.
  pose proof (steps_status _ _ Hinj s s1 id Hinv (rtc_once _ _ Hstep)) as H01.
  pose proof (steps_status _ _ Hinj s1 s2 id Hinv1 Hsteps) as H12.
  pose proof (rtc_edge_rank _ _ H01) as R01.
  pose proof (rtc_edge_rank _ _ H12) as R12.
  pose proof (rank_le_3 (status (job_at s1 id))).
  pose proof (rank_le_3 (status (job_at s2 id))).
  split_and!.
  - destruct (step_job_step _ _ Hinj _ _ id Hinv Hstep) as (e & c & _ & Hjs).
    by apply job_step_status in Hjs.
  - by etrans.
  - intros Hterm%rank_terminal.
    assert (status (job_at s id) = status (job_at s1 id)) as E
      by (destruct R01; [done|lia]).
    split; [done|]. rewrite E in *. destruct R12; [done|lia].
  - intros Hne Heq. destruct R01 as [?|?]; [done|].
    rewrite Heq in *. destruct R12 as [E|?]; [|lia]. rewrite E in *. lia.
Qed.

Lemma status_monotone_witness :
  rtc edge Created Disputed ∧
  status (job_at Demo.disputed 0) ≠ status (job_at Demo.open_job 0).
Proof.
  destruct (status_monotone Demo.keccak Demo.escrow
              Demo.open_job Demo.accepted Demo.disputed 0
              DemoFacts.keccak_inj DemoFacts.open_job_reachable)
    as (_ & Hpath & _ & Hleft).
  - eapply step_call with (e := Demo.at_ Demo.bob 20) (c := AcceptJob 0).
    + by vm_compute.
    + by vm_compute.
  - apply run_steps. DemoFacts.valid_calls.
  - split; [exact Hpath|]. apply Hleft. by vm_compute.
Defined.

(** C5, as stated, fails: the specification's graph has no edge from Created
    to Completed, yet the client completes a job whose worker was assigned
    at creation straight from Created. *)
Lemma status_monotone_counterexample :
  ¬ (∀ s s' id,
       reachable Demo.keccak Demo.escrow s → step Demo.keccak Demo.escrow s s' →
       status (job_at s' id) = status (job_at s id) ∨
       spec_edge (status (job_at s id)) (status (job_at s' id))).
Proof.
  intros H.
  destruct (exec Demo.keccak Demo.escrow (Demo.at_ Demo.alice 20) (CompleteJob 0)
              Demo.assigned_job) as [s'|err] eqn:Hex; [|by vm_compute in Hex].
  assert (status (job_at s' 0) = Completed) as Hst.
  { vm_compute in Hex. injection Hex as <-. by vm_compute. }
  destruct (H Demo.assigned_job s' 0 DemoFacts.assigned_job_reachable) as [Heq|Hedge].
  - eapply step_call; [|exact Hex]. by vm_compute.
  - rewrite Hst in Heq. by vm_compute in Heq.
  - rewrite Hst in Hedge. vm_compute in Hedge. inversion Hedge.
Qed.

(** ** The worker *)

(** C6: once the worker of a job is set it stays the same through every
    sequence of steps. A call that changes the worker stored under a job
    identifier found it unassigned, and is either [acceptJob] on that job
    (the new worker is the caller, the job was Created) or the [createJob]
    that creates the job under a fresh identifier (the new worker is the
    one passed in). *)
Theorem worker_write_once keccak256 this s s' id :
  counter_injective keccak256 →
  reachable keccak256 this s →
  (rtc (step keccak256 this) s s' →
   worker (job_at s id) ≠ address0 →
   worker (job_at s' id) = worker (job_at s id)) ∧
  (∀ e c, exec keccak256 this e c s = Ok s' →
   worker (job_at s' id) ≠ worker (job_at s id) →
   worker (job_at s id) = address0 ∧
   ((c = AcceptJob id ∧ status (job_at s id) = Created ∧
     worker (job_at s' id) = msg_sender e) ∨
    (∃ w a d h, c = CreateJob w a d h ∧ jobs s !! id = None ∧
                worker (job_at s' id) = w))).
Proof.
  intros Hinj Hreach.
  pose proof (invariant_reachable _ _ Hinj _ Hreach) as Hinv.
  split.
  - intros Hsteps Hw. by apply (steps_worker keccak256 this Hinj s s' id Hinv).
  - intros e c Hex Hne.
    pose proof (exec_job_step _ _ Hinj e c _ _ id Hinv Hex) as Hjs.
    remember (job_at s id) as j eqn:Ej. remember (job_at s' id) as j' eqn:Ej'.
    destruct Hjs as [| id w a d h | id j Hst Hw | | | |]; simpl in *; try done.
    + split; [done|]. right. exists w, a, d, h. split_and!; try done.
      destruct (jobs s !! id) as [k|] eqn:Hk; [|done].
      destruct (inv_client _ _ _ Hinv _ _ Hk) as [Hc _].
      rewrite (job_at_Some _ _ _ Hk) in Ej. by subst k.
    + split; [done|]. by left.
Qed.

Lemma worker_write_once_witness :
  worker (job_at Demo.disputed 0) = Demo.bob ∧
  worker (job_at Demo.open_job 0) = address0.
Proof.
  destruct (worker_write_once Demo.keccak Demo.escrow Demo.accepted Demo.disputed 0
              DemoFacts.keccak_inj DemoFacts.accepted_reachable) as [Hkeep _].
  destruct (worker_write_once Demo.keccak Demo.escrow Demo.open_job Demo.accepted 0
              DemoFacts.keccak_inj DemoFacts.open_job_reachable) as [_ Hset].
  split.
  - rewrite Hkeep; [by vm_compute| |by vm_compute].
    apply run_steps. DemoFacts.valid_calls.
  - apply (Hset (Demo.at_ Demo.bob 20) (AcceptJob 0)); by vm_compute.
Defined.

(** ** Jobs with a worker from the start *)

Section Preassigned.

Variable keccak256 : N → N → N → N → N → N.
Variable this : N.
Hypothesis keccak256_inj : counter_injective keccak256.

Lemma preassigned_job_step e c id w j j' :
  preassigned w j → job_step e c id j j' → preassigned w j'.
Proof.
  intros (Hw & Hw0 & Hst) Hjs. unfold preassigned.
  destruct Hjs as [| | ? ? Hs Hwj | ? ? ? Hs | ? ? ? Hs | ? ? ? Hs | ? ? Hs];
    simpl in *; subst; try tauto; try congruence.
  - destruct Hst as [?|[?|?]]; congruence.
  - destruct Hst as [?|[?|?]]; congruence.
Qed.

Lemma preassigned_steps s s' id w :
  invariant keccak256 this s → rtc (step keccak256 this) s s' →
  preassigned w (job_at s id) → preassigned w (job_at s' id).
Proof.
  intros Hinv Hsteps. induction Hsteps as [s|s s1 s2 Hstep _ IH]; [done|].
  intros Hpre.
  destruct (step_job_step keccak256 this keccak256_inj _ _ id Hinv Hstep)
    as (e & c & _ & Hjs).
  apply IH.
  - by eapply invariant_step.
  - by eapply preassigned_job_step.
Qed.

End Preassigned.

(** C9: a job created with a worker already assigned keeps that worker and
    is only ever Created, Completed or Cancelled, so never Funded or
    Disputed: [acceptJob] and [disputeJob] revert on it in every later
    state, and a call that takes it out of Created is made by the client
    and is either [completeJob] (to Completed) or [cancelJob] strictly
    after the deadline (to Cancelled). *)
Theorem preassigned_never_funded keccak256 this s e w a d h id s1 s2 :
  counter_injective keccak256 →
  reachable keccak256 this s →
  valid_env this e →
  createJob keccak256 this e w a d h s = Ok (id, s1) →
  w ≠ address0 →
  rtc (step keccak256 this) s1 s2 →
  worker (job_at s2 id) = w ∧
  (status (job_at s2 id) = Created ∨ status (job_at s2 id) = Completed ∨
   status (job_at s2 id) = Cancelled) ∧
  status (job_at s2 id) ≠ Funded ∧ status (job_at s2 id) ≠ Disputed ∧
  (∀ e', ∃ err, acceptJob e' id s2 = Err err ∧ kind_of err = StateError) ∧
  (∀ e', ∃ err, disputeJob e' id s2 = Err err) ∧
  (∀ e' c s3, exec keccak256 this e' c s2 = Ok s3 →
     status (job_at s2 id) = Created → status (job_at s3 id) ≠ Created →
     msg_sender e' = client (job_at s2 id) ∧
     ((c = CompleteJob id ∧ status (job_at s3 id) = Completed) ∨
      (c = CancelJob id ∧ deadline (job_at s2 id) < block_timestamp e' ∧
       status (job_at s3 id) = Cancelled))).
Proof.
  intros Hinj Hreach Hv Hcr Hw Hsteps.
  pose proof (invariant_reachable _ _ Hinj _ Hreach) as Hinv.
  assert (exec keccak256 this e (CreateJob w a d h) s = Ok s1) as Hex
    by (simpl; by rewrite Hcr).
  pose proof (invariant_exec _ _ Hinj _ _ _ _ Hv Hinv Hex) as Hinv1.
  pose proof (invariant_steps _ _ Hinj _ _ Hinv1 Hsteps) as Hinv2.
  assert (preassigned w (job_at s1 id)) as Hpre1.
  { apply createJob_Ok in Hcr as (_ & _ & _ & _ & _ & _ & _ & t & _ & ->).
    rewrite job_at_insert, decide_True by done. split_and!; simpl; auto. }
  pose proof (preassigned_steps _ _ Hinj _ _ id w Hinv1 Hsteps Hpre1)
    as (Hw2 & _ & Hst2).
  split_and!; try done.
  - destruct Hst2 as [E|[E|E]]; by rewrite E.
  - destruct Hst2 as [E|[E|E]]; by rewrite E.
  - intros e'. unfold acceptJob, require.
    destruct (decide (status (job_at s2 id) = Created)) as [E|E].
    + exists (Revert WorkerAlreadyAssigned).
      rewrite (bool_decide_eq_true_2 _ E); simpl.
      rewrite (bool_decide_eq_false_2 (worker _ = _)) by congruence. done.
    + exists (Revert JobNotAvailable).
      by rewrite (bool_decide_eq_false_2 _ E).
  - intros e'. destruct (disputeJob e' id s2) as [s3|err] eqn:Hd; [|by eexists].
    apply disputeJob_Ok in Hd as (_ & Hf & _).
    destruct Hst2 as [E|[E|E]]; congruence.
  - intros e' c s3 Hex3 Hc2 Hc3.
    pose proof (exec_job_step _ _ Hinj e' c _ _ id Hinv2 Hex3) as Hjs.
    remember (job_at s2 id) as j eqn:Ej. remember (job_at s3 id) as j' eqn:Ej'.
    destruct Hjs as [| | ? ? Hs Hwj | ? ? Hcl Hs | ? ? Hcl Hs Hdl | ? ? ? Hs | ? ? Hs];
      simpl in *; try congruence.
    + split; [done|]. by left.
    + split; [done|]. right. split_and!; try done.
      destruct Hdl as [Hdl|Hdl]; [congruence|done].
Qed.

Lemma preassigned_never_funded_witness :
  worker (job_at (run Demo.keccak Demo.escrow
                    [(Demo.at_ Demo.bob 20, AcceptJob 0);
                     (Demo.at_ Demo.bob 30, DisputeJob 0);
                     (Demo.at_ Demo.alice 200, CancelJob 0)]
                    Demo.assigned_job) 0) = Demo.bob ∧
  status (job_at (run Demo.keccak Demo.escrow
                    [(Demo.at_ Demo.bob 20, AcceptJob 0);
                     (Demo.at_ Demo.bob 30, DisputeJob 0);
                     (Demo.at_ Demo.alice 200, CancelJob 0)]
                    Demo.assigned_job) 0) = Cancelled.
Proof.
  destruct (preassigned_never_funded Demo.keccak Demo.escrow Demo.deployed
              (Demo.at_ Demo.alice 10) Demo.bob 1000000 100 "h" 0
              Demo.assigned_job
              (run Demo.keccak Demo.escrow
                 [(Demo.at_ Demo.bob 20, AcceptJob 0);
                  (Demo.at_ Demo.bob 30, DisputeJob 0);
                  (Demo.at_ Demo.alice 200, CancelJob 0)]
                 Demo.assigned_job)
              DemoFacts.keccak_inj DemoFacts.deployed_reachable)
    as (Hw & _).
  - by vm_compute.
  - by vm_compute.
  - by vm_compute.
  - apply run_steps. DemoFacts.valid_calls.
  - split; [exact Hw|by vm_compute].
Defined.

(** ** getJob on an unknown identifier *)

(** C10: for an identifier under which no job was ever created (the log has
    no [JobCreated] record for it) [getJob] returns the all-zero record:
    zero client and worker, amount 0, deadline 0, empty description hash,
    status Created, creation time 0. The client shows that status as
    "Created", and it is the very status [getJob] reports for a job that
    [createJob] has just created. *)
Theorem getJob_unknown keccak256 this s id :
  counter_injective keccak256 →
  reachable keccak256 this s →
  (∀ c a h, JobCreated id c a h ∉ events s) →
  getJob id s = (address0, address0, 0, 0, "", Created, 0) ∧
  status_name (status (job_at s id)) = Some "Created" ∧
  (∀ e w a d h id' s',
     createJob keccak256 this e w a d h s = Ok (id', s') →
     getJob id' s' = (msg_sender e, w, a, block_timestamp e + d, h, Created,
                      block_timestamp e) ∧
     status (job_at s' id') = status (job_at s id)).
Proof.
  intros Hinj Hreach Hlog.
  pose proof (invariant_reachable _ _ Hinj _ Hreach) as Hinv.
  assert (jobs s !! id = None) as Hnone.
  { destruct (jobs s !! id) as [j|] eqn:Hj; [|done].
    destruct (Hlog _ _ _ (inv_log _ _ _ Hinv _ _ Hj)). }
  unfold getJob. rewrite (job_at_None _ _ Hnone). split_and!; try done.
  intros e w a d h id' s' Hcr.
  apply createJob_Ok in Hcr as (_ & _ & _ & _ & _ & _ & _ & t & _ & ->).
  rewrite job_at_insert, decide_True by done. done.
Qed.

Lemma getJob_unknown_witness :
  getJob 7 Demo.accepted = (0, 0, 0, 0, "", Created, 0) ∧
  status_name (status (job_at Demo.accepted 7)) = Some "Created".
Proof.
  destruct (getJob_unknown Demo.keccak Demo.escrow Demo.accepted 7
              DemoFacts.keccak_inj DemoFacts.accepted_reachable)
    as (Hget & Hname & _); [|done].
  intros c a h. vm_compute events.
  rewrite !elem_of_cons, elem_of_nil. intros [?|[?|[?|?]]]; done.
Defined.


(** * Further properties of the contract and of the client *)

(** ** The log and the agent index, call by call *)

Lemma agent_jobs_at_insert s u jb n ev x l a :
  agent_jobs_at {| usdc := u; jobs := jb; agentJobs := <[x := l]> (agentJobs s);
                   jobCount := n; events := ev |} a
  = if decide (a = x) then l else agent_jobs_at s a.
Proof.
  unfold agent_jobs_at. simpl. case_decide as Heq.
  - subst. by rewrite lookup_insert_eq.
  - by rewrite lookup_insert_ne.
Qed.

Lemma exec_events keccak256 this e c s s' :
  exec keccak256 this e c s = Ok s' →
  events s' = events s ++ emitted keccak256 e c s.
Proof.
  intros Hex. destruct c as [w a d h|id|id|id|id|id]; simpl in Hex.
  - apply bind_Ok in Hex as ([id s1] & Hcr & [= <-]).
    apply createJob_Ok in Hcr as (_ & _ & _ & _ & _ & _ & -> & t & _ & ->).
    simpl. by rewrite <-app_assoc.
  - by apply acceptJob_Ok in Hex as (_ & _ & _ & _ & ->).
  - by apply completeJob_Ok in Hex as (_ & _ & _ & t & _ & ->).
  - by apply cancelJob_Ok in Hex as (_ & _ & _ & t & _ & ->).
  - by apply disputeJob_Ok in Hex as (_ & _ & ->).
  - by apply resolveDispute_Ok in Hex as (_ & _ & _ & t & _ & ->).
Qed.

Lemma exec_index keccak256 this e c s s' a :
  exec keccak256 this e c s = Ok s' →
  agent_jobs_at s' a = agent_jobs_at s a ++ indexed keccak256 e c s a.
Proof.
  intros Hex. destruct c as [w am d h|id|id|id|id|id]; simpl in Hex.
  - apply bind_Ok in Hex as ([id s1] & Hcr & [= <-]).
    apply createJob_Ok in Hcr as (_ & _ & _ & _ & _ & _ & -> & t & _ & ->).
    rewrite agent_jobs_at_insert. simpl. case_decide; [by subst|].
    by rewrite app_nil_r.
  - apply acceptJob_Ok in Hex as (_ & _ & _ & _ & ->).
    rewrite agent_jobs_at_insert. simpl. case_decide; [by subst|].
    by rewrite app_nil_r.
  - apply completeJob_Ok in Hex as (_ & _ & _ & t & _ & ->).
    simpl. by rewrite app_nil_r.
  - apply cancelJob_Ok in Hex as (_ & _ & _ & t & _ & ->).
    simpl. by rewrite app_nil_r.
  - apply disputeJob_Ok in Hex as (_ & _ & ->).
    simpl. by rewrite app_nil_r.
  - apply resolveDispute_Ok in Hex as (_ & _ & _ & t & _ & ->).
    simpl. by rewrite app_nil_r.
Qed.

Lemma step_events keccak256 this s s' :
  step keccak256 this s s' → events s `prefix_of` events s'.
Proof.
  intros Hstep. inversion Hstep as [e c s1 s2 Hv Hex | s1 s2 (_ & _ & _ & He & _)]; subst.
  - rewrite (exec_events _ _ _ _ _ _ Hex). by apply prefix_app_r.
  - by rewrite He.
Qed.

Lemma step_index keccak256 this s s' a :
  step keccak256 this s s' → agent_jobs_at s a `prefix_of` agent_jobs_at s' a.
Proof.
  intros Hstep. inversion Hstep as [e c s1 s2 Hv Hex | s1 s2 (_ & Ha & _)]; subst.
  - rewrite (exec_index _ _ _ _ _ _ a Hex). by apply prefix_app_r.
  - unfold agent_jobs_at. by rewrite Ha.
Qed.

Lemma steps_events keccak256 this s s' :
  rtc (step keccak256 this) s s' → events s `prefix_of` events s'.
Proof.
  induction 1 as [|x y z Hxy _ IH]; [done|].
  etrans; [by eapply step_events|done].
Qed.

Lemma steps_index keccak256 this s s' a :
  rtc (step keccak256 this) s s' →
  agent_jobs_at s a `prefix_of` agent_jobs_at s' a.
Proof.
  induction 1 as [|x y z Hxy _ IH]; [done|].
  etrans; [by eapply step_index|done].
Qed.

Lemma payouts_app id evs evs' :
  payouts id (evs ++ evs') = (payouts id evs + payouts id evs')%nat.
Proof. unfold payouts. by rewrite List.filter_app, length_app. Qed.

Lemma creations_app evs evs' :
  creations (evs ++ evs') = (creations evs + creations evs')%nat.
Proof. unfold creations. by rewrite List.filter_app, length_app. Qed.

(** ** The store, the index and the log agree *)

Lemma payouts_singleton id ev :
  payouts id [ev] = if is_payout id ev then 1%nat else 0%nat.
Proof. unfold payouts. simpl. by destruct (is_payout id ev). Qed.

Lemma creations_singleton ev :
  creations [ev] = if is_created ev then 1%nat else 0%nat.
Proof. unfold creations. simpl. by destruct (is_created ev). Qed.

Lemma well_formed_set_status st j : well_formed j → well_formed (set_status st j).
Proof. done. Qed.

Lemma well_formed_set_worker w j : well_formed j → well_formed (set_worker w j).
Proof. done. Qed.

Lemma ledger_initial s : initial s → ledger s.
Proof.
  intros (Hj & Ha & Hc & He). split.
  - by rewrite Hj, Hc, map_size_empty.
  - by rewrite Hj, He, map_size_empty.
  - intros id j. by rewrite Hj, lookup_empty.
  - intros a id. unfold agent_jobs_at. rewrite Ha, He, lookup_empty. simpl.
    split.
    + by intros ?%elem_of_nil.
    + intros [(? & ? & ?%elem_of_nil)|?%elem_of_nil]; done.
  - intros id c amt h. rewrite He. by intros ?%elem_of_nil.
  - intros id a. rewrite He. by intros ?%elem_of_nil.
  - intros a. unfold agent_jobs_at. rewrite Ha, lookup_empty. constructor.
  - intros id. unfold job_at. by rewrite He, Hj, lookup_empty.
Qed.

(** A call that only sets the status of a stored job. *)
Lemma ledger_set_status s id st ev u :
  ledger s → jobs s !! id = Some (job_at s id) →
  is_created ev = false → (∀ i a, ev ≠ JobAccepted i a) →
  st ≠ Created → active (status (job_at s id)) = true →
  (∀ i, is_payout i ev = bool_decide (id = i) && negb (active st)) →
  ledger {| usdc := u; jobs := <[id := set_status st (job_at s id)]> (jobs s);
            agentJobs := agentJobs s; jobCount := jobCount s;
            events := events s ++ [ev] |}.
Proof.
  intros L Hj Hcr Hacc Hst Hact Hpay.
  assert (∀ x, x ∈ events s ++ [ev] → is_created x = true ∨ (∃ i a, x = JobAccepted i a) →
               x ∈ events s) as Hold.
  { intros x [?|Hx%list_elem_of_singleton]%elem_of_app; [done|]. subst x.
    intros [?|(i & a & ->)]; [congruence|]. by destruct (Hacc i a). }
  split; simpl.
  - rewrite map_size_insert_Some by by eexists. apply L.
  - rewrite creations_app, creations_singleton, Hcr.
    rewrite map_size_insert_Some by by eexists.
    rewrite Nat.add_0_r. apply L.
  - intros id' j' Hj'. destruct (decide (id' = id)) as [->|Hne].
    + rewrite lookup_insert_eq in Hj'. injection Hj' as <-.
      apply well_formed_set_status. by apply (ledger_jobs _ L id).
    + rewrite lookup_insert_ne in Hj' by done. by apply (ledger_jobs _ L id').
  - intros a id'. change (agent_jobs_at _ a) with (agent_jobs_at s a).
    rewrite (ledger_index _ L). split.
    + intros [(amt & h & ?)|?]; [left; exists amt, h|right];
        apply elem_of_app; by left.
    + intros [(amt & h & Hin)|Hin]; [left; exists amt, h|right];
        apply Hold; eauto.
  - intros id' c amt h Hin. apply Hold in Hin; [|by left].
    destruct (ledger_created _ L _ _ _ _ Hin) as (j & Hj' & ? & ? & ?).
    destruct (decide (id' = id)) as [->|Hne].
    + rewrite lookup_insert_eq. eexists. split; [done|].
      rewrite Hj in Hj'. injection Hj' as <-. done.
    + rewrite lookup_insert_ne by done. by exists j.
  - intros id' a Hin. apply Hold in Hin; [|right; eauto].
    destruct (ledger_accepted _ L _ _ Hin) as (j & Hj' & ? & ? & ?).
    destruct (decide (id' = id)) as [->|Hne].
    + rewrite lookup_insert_eq. eexists. split; [done|].
      rewrite Hj in Hj'. injection Hj' as <-. done.
    + rewrite lookup_insert_ne by done. by exists j.
  - apply L.
  - intros id'. rewrite payouts_app, payouts_singleton, Hpay, job_at_insert.
    rewrite (ledger_payouts _ L id').
    destruct (decide (id' = id)) as [->|Hne].
    + rewrite bool_decide_eq_true_2 by done. rewrite Hact. simpl.
      by destruct (active st).
    + rewrite bool_decide_eq_false_2 by done. simpl. lia.
Qed.

Lemma ledger_accept s id who :
  ledger s → jobs s !! id = Some (job_at s id) →
  status (job_at s id) = Created → who ≠ client (job_at s id) →
  ledger {| usdc := usdc s;
            jobs := <[id := set_status Funded (set_worker who (job_at s id))]> (jobs s);
            agentJobs := <[who := agent_jobs_at s who ++ [id]]> (agentJobs s);
            jobCount := jobCount s;
            events := events s ++ [JobAccepted id who] |}.
Proof.
  intros L Hj Hst Hc.
  assert (id ∉ agent_jobs_at s who) as Hnew.
  { intros [(amt & h & Hin)|Hin]%(ledger_index _ L).
    - destruct (ledger_created _ L _ _ _ _ Hin) as (j & Hj' & ? & _).
      rewrite Hj in Hj'. injection Hj' as <-. done.
    - destruct (ledger_accepted _ L _ _ Hin) as (j & Hj' & _ & _ & ?).
      rewrite Hj in Hj'. injection Hj' as <-. done. }
  split; simpl.
  - rewrite map_size_insert_Some by by eexists. apply L.
  - rewrite creations_app, creations_singleton. simpl.
    rewrite map_size_insert_Some by by eexists.
    rewrite Nat.add_0_r. apply L.
  - intros id' j' Hj'. destruct (decide (id' = id)) as [->|Hne].
    + rewrite lookup_insert_eq in Hj'. injection Hj' as <-.
      apply well_formed_set_status, well_formed_set_worker.
      by apply (ledger_jobs _ L id).
    + rewrite lookup_insert_ne in Hj' by done. by apply (ledger_jobs _ L id').
  - intros a id'. rewrite agent_jobs_at_insert.
    setoid_rewrite elem_of_app. setoid_rewrite list_elem_of_singleton.
    case_decide as Ha.
    + subst a. rewrite elem_of_app, list_elem_of_singleton, (ledger_index _ L).
      split.
      * intros [[(amt & h & ?)|?]| ->]; eauto 8.
      * intros [(amt & h & [?|?])|[?|?]]; simplify_eq; eauto 8.
    + rewrite (ledger_index _ L). split.
      * intros [(amt & h & ?)|?]; eauto 8.
      * intros [(amt & h & [?|?])|[?|?]]; simplify_eq; eauto 8.
  - intros id' c amt h [Hin|Hin%list_elem_of_singleton]%elem_of_app; [|done].
    destruct (ledger_created _ L _ _ _ _ Hin) as (j & Hj' & ? & ? & ?).
    destruct (decide (id' = id)) as [->|Hne].
    + rewrite lookup_insert_eq. eexists. split; [done|].
      rewrite Hj in Hj'. injection Hj' as <-. done.
    + rewrite lookup_insert_ne by done. by exists j.
  - intros id' a [Hin|Hin%list_elem_of_singleton]%elem_of_app.
    + destruct (ledger_accepted _ L _ _ Hin) as (j & Hj' & ? & ? & ?).
      destruct (decide (id' = id)) as [->|Hne].
      * rewrite Hj in Hj'. injection Hj' as <-. done.
      * rewrite lookup_insert_ne by done. by exists j.
    + injection Hin as -> ->. rewrite lookup_insert_eq. eexists.
      split; [done|]. simpl. split_and!; [done|congruence|done].
  - intros a. rewrite agent_jobs_at_insert. case_decide as Ha; [|apply L].
    apply NoDup_app. split_and!.
    + apply L.
    + intros x Hx ->%list_elem_of_singleton. done.
    + apply NoDup_singleton.
  - intros id'. rewrite payouts_app, payouts_singleton, job_at_insert. simpl.
    rewrite (ledger_payouts _ L id').
    destruct (decide (id' = id)) as [->|Hne].
    + rewrite Hst. simpl. lia.
    + lia.
Qed.

Lemma ledger_create s id who w a d h now t :
  ledger s → jobs s !! id = None →
  MIN_AMOUNT ≤ a → 0 < d → d ≤ MAX_DURATION → (0 < String.length h)%nat →
  now + d < UINT256_MOD →
  ledger {| usdc := t;
            jobs := <[id := {| client := who; worker := w; amount := a;
                               deadline := now + d; jobHash := h;
                               status := Created; createdAt := now |}]> (jobs s);
            agentJobs := <[who := agent_jobs_at s who ++ [id]]> (agentJobs s);
            jobCount := jobCount s + 1;
            events := (events s ++ [JobCreated id who a h]) ++ [JobFunded id who] |}.
Proof.
  intros L Hfresh Hmin Hd0 Hd1 Hh Hov.
  assert (∀ c amt h', JobCreated id c amt h' ∉ events s) as Hnc.
  { intros c amt h' Hin.
    destruct (ledger_created _ L _ _ _ _ Hin) as (j & Hj' & _). congruence. }
  assert (∀ x, JobAccepted id x ∉ events s) as Hna.
  { intros x Hin.
    destruct (ledger_accepted _ L _ _ Hin) as (j & Hj' & _). congruence. }
  split; simpl.
  - rewrite map_size_insert_None by done.
    rewrite Nat2N.inj_succ, (ledger_size _ L). lia.
  - rewrite !creations_app, !creations_singleton. simpl.
    rewrite map_size_insert_None by done. rewrite (ledger_creations _ L). lia.
  - intros id' j' Hj'. destruct (decide (id' = id)) as [->|Hne].
    + rewrite lookup_insert_eq in Hj'. injection Hj' as <-.
      unfold well_formed; simpl. split_and!; try lia.
      by apply length_pos_iff.
    + rewrite lookup_insert_ne in Hj' by done. by apply (ledger_jobs _ L id').
  - intros x id'. rewrite agent_jobs_at_insert.
    setoid_rewrite elem_of_app. setoid_rewrite elem_of_app.
    setoid_rewrite list_elem_of_singleton.
    case_decide as Ha.
    + subst x. rewrite elem_of_app, list_elem_of_singleton, (ledger_index _ L).
      split.
      * intros [[(amt & h' & ?)|?]| ->]; eauto 10.
      * intros [(amt & h' & [[?|?]|?])|[[?|?]|?]]; simplify_eq; eauto 10.
    + rewrite (ledger_index _ L). split.
      * intros [(amt & h' & ?)|?]; eauto 10.
      * intros [(amt & h' & [[?|?]|?])|[[?|?]|?]]; simplify_eq; eauto 10.
  - intros id' c amt h' [[Hin|Hin%list_elem_of_singleton]%elem_of_app
                        |Hin%list_elem_of_singleton]%elem_of_app; [| |done].
    + destruct (ledger_created _ L _ _ _ _ Hin) as (j & Hj' & ? & ? & ?).
      destruct (decide (id' = id)) as [->|Hne]; [congruence|].
      rewrite lookup_insert_ne by done. by exists j.
    + injection Hin as -> -> -> ->. rewrite lookup_insert_eq. by eexists.
  - intros id' x [[Hin|Hin%list_elem_of_singleton]%elem_of_app
                 |Hin%list_elem_of_singleton]%elem_of_app; [|done|done].
    destruct (ledger_accepted _ L _ _ Hin) as (j & Hj' & ? & ? & ?).
    destruct (decide (id' = id)) as [->|Hne]; [congruence|].
    rewrite lookup_insert_ne by done. by exists j.
  - intros x. rewrite agent_jobs_at_insert. case_decide as Ha; [|apply L].
    apply NoDup_app. split_and!.
    + apply L.
    + intros y Hy ->%list_elem_of_singleton.
      apply (ledger_index _ L) in Hy as [(amt & h' & Hin)|Hin].
      * by destruct (Hnc _ _ _ Hin).
      * by destruct (Hna _ Hin).
    + apply NoDup_singleton.
  - intros id'. rewrite !payouts_app, !payouts_singleton, job_at_insert. simpl.
    rewrite (ledger_payouts _ L id').
    destruct (decide (id' = id)) as [->|Hne].
    + rewrite (job_at_None _ _ Hfresh). simpl. lia.
    + lia.
Qed.

Section Ledger.

Variable keccak256 : N → N → N → N → N → N.
Variable this : N.
Hypothesis keccak256_inj : counter_injective keccak256.

Lemma ledger_exec e c s s' :
  valid_env this e → invariant keccak256 this s → ledger s →
  exec keccak256 this e c s = Ok s' → ledger s'.
Proof.
  intros Hv Hinv L Hex. destruct c as [w a d h|id|id|id|id|id]; simpl in Hex.
  - apply bind_Ok in Hex as ([id s1] & Hcr & [= <-]).
    apply createJob_Ok in Hcr
      as (Hmin & Hd0 & Hd1 & Hh & Hcnt & Hdl & Hid & t & Ht & ->).
    pose proof (fresh_id keccak256 this keccak256_inj s
                  (msg_sender e) w a (block_timestamp e) Hinv) as Hfresh.
    rewrite <-Hid in Hfresh. by apply ledger_create.
  - pose proof (acceptJob_stored _ _ _ _ Hex) as Hj.
    apply acceptJob_Ok in Hex as (Hst & Hw & Hc & Ht & ->).
    by apply ledger_accept.
  - pose proof (completeJob_stored _ _ _ _ _ Hex) as Hj.
    apply completeJob_Ok in Hex as (Hc & Hst & Hw & t & Ht & ->).
    apply ledger_set_status; try done.
    + by destruct Hst as [-> | ->].
    + intros i. simpl. by rewrite andb_true_r.
  - pose proof (cancelJob_stored _ _ _ _ _ Hv Hex) as Hj.
    apply cancelJob_Ok in Hex as (Hc & Hst & Hw & t & Ht & ->).
    apply ledger_set_status; try done.
    + by rewrite Hst.
    + intros i. simpl. by rewrite andb_true_r.
  - pose proof (disputeJob_stored _ _ _ _ Hex) as Hj.
    apply disputeJob_Ok in Hex as (Hc & Hst & ->).
    apply ledger_set_status; try done.
    + by rewrite Hst.
    + intros i. simpl. by rewrite andb_false_r.
  - pose proof (resolveDispute_stored _ _ _ _ _ Hex) as Hj.
    apply resolveDispute_Ok in Hex as (Hst & Hov & Hts & t & Ht & ->).
    apply ledger_set_status; try done.
    + by rewrite Hst.
    + intros i. simpl. by rewrite andb_true_r.
Qed.

Lemma ledger_step s s' :
  invariant keccak256 this s → ledger s → step keccak256 this s s' → ledger s'.
Proof.
  intros Hinv L Hstep.
  inversion Hstep as [e c s1 s2 Hv Hex | s1 s2 (Hj & Ha & Hc & He & _)]; subst.
  - by eapply ledger_exec.
  - destruct L as [L1 L2 L3 L4 L5 L6 L7 L8].
    split; unfold agent_jobs_at, job_at in *; rewrite ?Hj, ?Ha, ?Hc, ?He; done.
Qed.

Lemma ledger_steps s s' :
  invariant keccak256 this s → ledger s → rtc (step keccak256 this) s s' →
  ledger s'.
Proof.
  intros Hinv L Hsteps. induction Hsteps as [s|s s1 s2 Hstep _ IH]; [done|].
  apply IH.
  - by eapply invariant_step.
  - by eapply ledger_step.
Qed.

Lemma ledger_reachable s : reachable keccak256 this s → ledger s.
Proof.
  intros (s0 & Hinit & Hsteps).
  eapply ledger_steps; [by apply invariant_initial|by eapply ledger_initial|done].
Qed.

End Ledger.

Section Accepted.

Variable keccak256 : N → N → N → N → N → N.
Variable this : N.
Hypothesis keccak256_inj : counter_injective keccak256.

Lemma accepted_logged_step s s' :
  invariant keccak256 this s → accepted_logged s →
  step keccak256 this s s' → accepted_logged s'.
Proof.
  intros Hinv Hacc Hstep id.
  inversion Hstep as [e c s1 s2 Hv Hex | s1 s2 (Hj & _ & _ & He & _)]; subst.
  - pose proof (exec_job_step _ _ keccak256_inj e c _ _ id Hinv Hex) as Hjs.
    rewrite (exec_events _ _ _ _ _ _ Hex).
    specialize (Hacc id).
    remember (job_at s id) as j eqn:Ej. remember (job_at s' id) as j' eqn:Ej'.
    destruct Hjs as [| | ? ? Hs Hw | ? ? ? Hs | ? ? ? Hs | ? ? ? Hs | ? ? Hs];
      simpl; intros Hwas; try done.
    + destruct (Hacc Hwas) as [? ?]. split; [done|]. apply elem_of_app. by left.
    + split; [apply Hv|]. apply elem_of_app. right. simpl. by left.
    + rewrite Hs in Hacc. destruct (Hacc eq_refl) as [? ?].
      split; [done|]. apply elem_of_app. by left.
    + rewrite Hs in Hacc. destruct (Hacc eq_refl) as [? ?].
      split; [done|]. apply elem_of_app. by left.
  - unfold job_at. rewrite Hj, He. apply Hacc.
Qed.

Lemma accepted_logged_reachable s :
  reachable keccak256 this s → accepted_logged s.
Proof.
  intros (s0 & Hinit & Hsteps).
  assert (invariant keccak256 this s0) as Hinv by by apply invariant_initial.
  assert (accepted_logged s0) as Hacc.
  { intros id. destruct Hinit as (Hj & _). unfold job_at.
    by rewrite Hj, lookup_empty. }
  clear Hinit. induction Hsteps as [s|s s1 s2 Hstep _ IH]; [done|].
  apply IH.
  - by eapply invariant_step.
  - by eapply accepted_logged_step.
Qed.

End Accepted.

(** ** acceptJob and disputeJob *)

(** X1: [acceptJob] succeeds exactly when the job is Created, has no worker,
    the caller is not its client and the clock is strictly before the
    deadline; the checks fail in that order with "Job not available",
    "Worker already assigned", "Client cannot be worker" and "Job expired"
    (so at the deadline itself the job can no longer be accepted). A
    successful call makes the caller the worker and the job Funded, appends
    the job to the caller's list and one record to the log, and moves no
    funds. *)
Theorem acceptJob_spec e id s :
  ((∃ s', acceptJob e id s = Ok s') ↔
     status (job_at s id) = Created ∧ worker (job_at s id) = address0 ∧
     msg_sender e ≠ client (job_at s id) ∧
     block_timestamp e < deadline (job_at s id)) ∧
  (status (job_at s id) ≠ Created →
     acceptJob e id s = Err (Revert JobNotAvailable)) ∧
  (status (job_at s id) = Created → worker (job_at s id) ≠ address0 →
     acceptJob e id s = Err (Revert WorkerAlreadyAssigned)) ∧
  (status (job_at s id) = Created → worker (job_at s id) = address0 →
   msg_sender e = client (job_at s id) →
     acceptJob e id s = Err (Revert ClientCannotBeWorker)) ∧
  (status (job_at s id) = Created → worker (job_at s id) = address0 →
   msg_sender e ≠ client (job_at s id) →
   deadline (job_at s id) ≤ block_timestamp e →
     acceptJob e id s = Err (Revert JobExpired)) ∧
  (∀ s', acceptJob e id s = Ok s' →
     job_at s' id = set_status Funded (set_worker (msg_sender e) (job_at s id)) ∧
     (∀ id', id' ≠ id → job_at s' id' = job_at s id') ∧
     usdc s' = usdc s ∧ jobCount s' = jobCount s ∧
     getAgentJobs (msg_sender e) s' = getAgentJobs (msg_sender e) s ++ [id] ∧
     (∀ a, a ≠ msg_sender e → getAgentJobs a s' = getAgentJobs a s) ∧
     events s' = events s ++ [JobAccepted id (msg_sender e)]).
Proof.
  split_and!.
  - split.
    + intros [s' (? & ? & ? & ? & _)%acceptJob_Ok]. done.
    + intros (? & ? & ? & ?). eexists. apply acceptJob_Ok. by split_and!.
  - intros Hst. unfold acceptJob, require.
    by rewrite (bool_decide_eq_false_2 (status _ = _)) by done.
  - intros Hst Hw. unfold acceptJob, require.
    rewrite (bool_decide_eq_true_2 (status _ = _)) by done. simpl.
    by rewrite (bool_decide_eq_false_2 (worker _ = _)) by done.
  - intros Hst Hw Hc. unfold acceptJob, require.
    rewrite (bool_decide_eq_true_2 (status _ = _)) by done. simpl.
    rewrite (bool_decide_eq_true_2 (worker _ = _)) by done. simpl.
    by rewrite (bool_decide_eq_false_2 (msg_sender e ≠ _)) by tauto.
  - intros Hst Hw Hc Ht. unfold acceptJob, require.
    rewrite (bool_decide_eq_true_2 (status _ = _)) by done. simpl.
    rewrite (bool_decide_eq_true_2 (worker _ = _)) by done. simpl.
    rewrite (bool_decide_eq_true_2 (msg_sender e ≠ _)) by done. simpl.
    by rewrite (bool_decide_eq_false_2 (block_timestamp e < _)) by lia.
  - intros s' (? & ? & ? & ? & ->)%acceptJob_Ok. unfold getAgentJobs.
    split_and!; try done.
    + rewrite job_at_insert. by rewrite decide_True.
    + intros id' Hne. rewrite job_at_insert. by rewrite decide_False.
    + rewrite agent_jobs_at_insert. by rewrite decide_True.
    + intros a Hne. rewrite agent_jobs_at_insert. by rewrite decide_False.
Qed.

Lemma acceptJob_spec_witness :
  (∃ s', acceptJob (Demo.at_ Demo.bob 109) 0 Demo.open_job = Ok s') ∧
  acceptJob (Demo.at_ Demo.bob 110) 0 Demo.open_job = Err (Revert JobExpired) ∧
  acceptJob (Demo.at_ Demo.alice 20) 0 Demo.open_job
    = Err (Revert ClientCannotBeWorker).
Proof.
  split_and!.
  - destruct (acceptJob_spec (Demo.at_ Demo.bob 109) 0 Demo.open_job)
      as (Hiff & _).
    apply Hiff. by vm_compute.
  - destruct (acceptJob_spec (Demo.at_ Demo.bob 110) 0 Demo.open_job)
      as (_ & _ & _ & _ & Hexp & _).
    apply Hexp; by vm_compute.
  - destruct (acceptJob_spec (Demo.at_ Demo.alice 20) 0 Demo.open_job)
      as (_ & _ & _ & Hcl & _).
    apply Hcl; by vm_compute.
Defined.

(** X2: [disputeJob] succeeds exactly when the caller is the client or the
    worker of the job and the job is Funded; any other caller gets "Not a
    party", a party of a job that is not Funded gets "Cannot dispute". A
    successful call sets the status to Disputed and changes nothing else of
    the job, of the other jobs, of the agent lists or of any balance. *)
Theorem disputeJob_spec e id s :
  ((∃ s', disputeJob e id s = Ok s') ↔
     (msg_sender e = client (job_at s id) ∨ msg_sender e = worker (job_at s id)) ∧
     status (job_at s id) = Funded) ∧
  (msg_sender e ≠ client (job_at s id) → msg_sender e ≠ worker (job_at s id) →
     disputeJob e id s = Err (Revert NotAParty)) ∧
  (msg_sender e = client (job_at s id) ∨ msg_sender e = worker (job_at s id) →
   status (job_at s id) ≠ Funded →
     disputeJob e id s = Err (Revert CannotDispute)) ∧
  (∀ s', disputeJob e id s = Ok s' →
     job_at s' id = set_status Disputed (job_at s id) ∧
     (∀ id', id' ≠ id → job_at s' id' = job_at s id') ∧
     usdc s' = usdc s ∧ agentJobs s' = agentJobs s ∧ jobCount s' = jobCount s ∧
     events s' = events s ++ [JobDisputed id (msg_sender e)]).
Proof.
  split_and!.
  - split.
    + intros [s' (? & ? & _)%disputeJob_Ok]. done.
    + intros (? & ?). eexists. apply disputeJob_Ok. by split_and!.
  - intros Hc Hw. unfold disputeJob, require.
    rewrite (bool_decide_eq_false_2 (msg_sender e = client _)) by done.
    by rewrite (bool_decide_eq_false_2 (msg_sender e = worker _)) by done.
  - intros Hp Hst. unfold disputeJob, require.
    replace (bool_decide (msg_sender e = client (job_at s id))
             || bool_decide (msg_sender e = worker (job_at s id))) with true.
    + simpl. by rewrite (bool_decide_eq_false_2 (status _ = _)) by done.
    + symmetry. apply orb_true_iff.
      destruct Hp; [left|right]; by apply bool_decide_eq_true_2.
  - intros s' (? & ? & ->)%disputeJob_Ok. split_and!; try done.
    + rewrite job_at_insert. by rewrite decide_True.
    + intros id' Hne. rewrite job_at_insert. by rewrite decide_False.
Qed.

Lemma disputeJob_spec_witness :
  (∃ s', disputeJob (Demo.at_ Demo.alice 30) 0 Demo.accepted = Ok s') ∧
  disputeJob (Demo.at_ Demo.alice 30) 0 Demo.open_job = Err (Revert CannotDispute) ∧
  disputeJob (Demo.at_ 77 30) 0 Demo.accepted = Err (Revert NotAParty).
Proof.
  split_and!.
  - destruct (disputeJob_spec (Demo.at_ Demo.alice 30) 0 Demo.accepted)
      as (Hiff & _).
    apply Hiff. vm_compute. split; [by left|done].
  - destruct (disputeJob_spec (Demo.at_ Demo.alice 30) 0 Demo.open_job)
      as (_ & _ & Hst & _).
    apply Hst; vm_compute; [by left|done].
  - destruct (disputeJob_spec (Demo.at_ 77 30) 0 Demo.accepted)
      as (_ & Hp & _).
    apply Hp; by vm_compute.
Defined.

(** X3: a job is accepted once. After a successful [acceptJob] the caller
    stays the worker of the job for good, and every later [acceptJob] on the
    same job, by anyone at any time, reverts with "Job not available". *)
Theorem acceptJob_once keccak256 this s e id s1 s2 :
  counter_injective keccak256 →
  reachable keccak256 this s →
  valid_env this e →
  acceptJob e id s = Ok s1 →
  rtc (step keccak256 this) s1 s2 →
  worker (job_at s2 id) = msg_sender e ∧
  status (job_at s2 id) ≠ Created ∧
  (∀ e', acceptJob e' id s2 = Err (Revert JobNotAvailable)).
Proof.
  intros Hinj Hreach Hv Hacc Hsteps.
  pose proof (invariant_reachable _ _ Hinj _ Hreach) as Hinv.
  assert (exec keccak256 this e (AcceptJob id) s = Ok s1) as Hex by done.
  pose proof (invariant_exec _ _ Hinj _ _ _ _ Hv Hinv Hex) as Hinv1.
  apply acceptJob_Ok in Hacc as (_ & _ & _ & _ & ->).
  pose proof (steps_status _ _ Hinj _ _ id Hinv1 Hsteps) as Hpath.
  pose proof (steps_worker _ _ Hinj _ _ id Hinv1 Hsteps) as Hw.
  rewrite job_at_insert, decide_True in Hpath, Hw by done. simpl in *.
  assert (status (job_at s2 id) ≠ Created) as Hst.
  { intros E. rewrite E in Hpath. apply rtc_edge_rank in Hpath as [?|?]; [done|].
    simpl in *. lia. }
  split_and!; [apply Hw, Hv|done|].
  intros e'. unfold acceptJob, require.
  by rewrite (bool_decide_eq_false_2 (status _ = _)) by done.
Qed.

Lemma acceptJob_once_witness :
  worker (job_at Demo.disputed 0) = Demo.bob ∧
  acceptJob (Demo.at_ 77 40) 0 Demo.disputed = Err (Revert JobNotAvailable).
Proof.
  destruct (acceptJob_once Demo.keccak Demo.escrow Demo.open_job
              (Demo.at_ Demo.bob 20) 0 Demo.accepted Demo.disputed
              DemoFacts.keccak_inj DemoFacts.open_job_reachable)
    as (Hw & _ & Hno).
  - by vm_compute.
  - by vm_compute.
  - apply run_steps. DemoFacts.valid_calls.
  - split; [exact Hw|apply Hno].
Defined.

(** X4: a call on an identifier under which nothing is stored is not told
    so: the record read is the all-zero one, and a caller other than the
    zero address gets "Job expired" from [acceptJob], "Only client can
    complete" from [completeJob], "Only client can cancel" from [cancelJob],
    "Not a party" from [disputeJob] and "Not disputed" from
    [resolveDispute]. *)
Theorem unknown_job_calls this e id s :
  jobs s !! id = None →
  msg_sender e ≠ address0 →
  acceptJob e id s = Err (Revert JobExpired) ∧
  completeJob this e id s = Err (Revert OnlyClientCanComplete) ∧
  cancelJob this e id s = Err (Revert OnlyClientCanCancel) ∧
  disputeJob e id s = Err (Revert NotAParty) ∧
  resolveDispute this e id s = Err (Revert NotDisputed).
Proof.
  intros Hnone Hs.
  unfold acceptJob, completeJob, cancelJob, disputeJob, resolveDispute, require.
  rewrite (job_at_None _ _ Hnone). simpl.
  rewrite (bool_decide_eq_true_2 (msg_sender e ≠ 0)) by done.
  rewrite (bool_decide_eq_false_2 (block_timestamp e < 0)) by lia.
  rewrite (bool_decide_eq_false_2 (msg_sender e = 0)) by done.
  done.
Qed.

Lemma unknown_job_calls_witness :
  acceptJob (Demo.at_ Demo.bob 20) 7 Demo.open_job = Err (Revert JobExpired) ∧
  resolveDispute Demo.escrow (Demo.at_ Demo.bob 20) 7 Demo.open_job
    = Err (Revert NotDisputed).
Proof.
  destruct (unknown_job_calls Demo.escrow (Demo.at_ Demo.bob 20) 7 Demo.open_job)
    as (Ha & _ & _ & _ & Hr); by vm_compute.
Defined.

(** ** The agent index *)

(** X5: in every reachable state the list [getAgentJobs] returns for an
    agent has no duplicates, and holds exactly the jobs the log says the
    agent created or accepted; each of them is stored, with the agent as its
    client or as the worker who accepted it. *)
Theorem agent_index_sound keccak256 this s a :
  counter_injective keccak256 →
  reachable keccak256 this s →
  NoDup (getAgentJobs a s) ∧
  (∀ id, id ∈ getAgentJobs a s ↔
     (∃ amt h, JobCreated id a amt h ∈ events s) ∨ JobAccepted id a ∈ events s) ∧
  (∀ id, id ∈ getAgentJobs a s →
     ∃ j, jobs s !! id = Some j ∧
          (client j = a ∨ (worker j = a ∧ client j ≠ a ∧ status j ≠ Created))).
Proof.
  intros Hinj Hreach.
  pose proof (ledger_reachable _ _ Hinj _ Hreach) as L.
  unfold getAgentJobs. split_and!.
  - apply L.
  - intros id. apply (ledger_index _ L).
  - intros id [(amt & h & Hin)|Hin]%(ledger_index _ L).
    + destruct (ledger_created _ L _ _ _ _ Hin) as (j & ? & ? & _).
      exists j. split; [done|by left].
    + destruct (ledger_accepted _ L _ _ Hin) as (j & ? & ? & ? & ?).
      exists j. split; [done|by right].
Qed.

Lemma agent_index_sound_witness :
  getAgentJobs Demo.bob Demo.disputed = [0] ∧
  NoDup (getAgentJobs Demo.bob Demo.disputed).
Proof.
  split; [by vm_compute|].
  apply (agent_index_sound Demo.keccak Demo.escrow Demo.disputed Demo.bob
           DemoFacts.keccak_inj DemoFacts.disputed_reachable).
Defined.

(** X6: the index is complete for clients and for workers who accepted:
    every stored job is in its client's list, and a job that is Funded,
    Disputed or Resolved has a worker and is in that worker's list. *)
Theorem agent_index_complete keccak256 this s id j :
  counter_injective keccak256 →
  reachable keccak256 this s →
  jobs s !! id = Some j →
  id ∈ getAgentJobs (client j) s ∧
  (was_accepted (status j) = true →
   worker j ≠ address0 ∧ id ∈ getAgentJobs (worker j) s).
Proof.
  intros Hinj Hreach Hj.
  pose proof (invariant_reachable _ _ Hinj _ Hreach) as Hinv.
  pose proof (ledger_reachable _ _ Hinj _ Hreach) as L.
  pose proof (accepted_logged_reachable _ _ Hinj _ Hreach id) as Hacc.
  rewrite (job_at_Some _ _ _ Hj) in Hacc.
  unfold getAgentJobs. split.
  - apply (ledger_index _ L). left. exists (amount j), (jobHash j).
    by apply (inv_log _ _ _ Hinv).
  - intros Hwas. destruct (Hacc Hwas) as [Hw Hin]. split; [done|].
    apply (ledger_index _ L). by right.
Qed.

Lemma agent_index_complete_witness :
  0 ∈ getAgentJobs Demo.alice Demo.disputed ∧
  0 ∈ getAgentJobs Demo.bob Demo.disputed.
Proof.
  destruct (agent_index_complete Demo.keccak Demo.escrow Demo.disputed 0
              (job_at Demo.disputed 0)
              DemoFacts.keccak_inj DemoFacts.disputed_reachable)
    as (Hc & Hw).
  - by vm_compute.
  - split; [exact Hc|]. by apply Hw.
Defined.

Section NeverAccepted.

Variable keccak256 : N → N → N → N → N → N.
Variable this : N.
Hypothesis keccak256_inj : counter_injective keccak256.

(** A job that has a worker and no acceptance on record never gets one. *)
Lemma never_accepted_steps s s' id w :
  invariant keccak256 this s → rtc (step keccak256 this) s s' →
  preassigned w (job_at s id) → (∀ a, JobAccepted id a ∉ events s) →
  ∀ a, JobAccepted id a ∉ events s'.
Proof.
  intros Hinv Hsteps. induction Hsteps as [s|s s1 s2 Hstep _ IH]; [done|].
  intros Hpre Hno.
  destruct (step_job_step keccak256 this keccak256_inj _ _ id Hinv Hstep)
    as (e0 & c0 & _ & Hjs).
  apply IH.
  - by eapply invariant_step.
  - by eapply preassigned_job_step.
  - intros a Hin.
    inversion Hstep as [e c sa sb Hv Hex | sa sb (_ & _ & _ & He & _)]; subst.
    + rewrite (exec_events _ _ _ _ _ _ Hex) in Hin.
      apply elem_of_app in Hin as [Hin|Hin]; [by destruct (Hno a)|].
      destruct c as [w' am d h|id'|id'|id'|id'|id']; simpl in Hin;
        repeat (apply elem_of_cons in Hin as [Hin|Hin]; [try done|]);
        try by apply elem_of_nil in Hin.
      injection Hin as Hid Ha. subst id'. simpl in Hex.
      apply acceptJob_Ok in Hex as (_ & Hw0 & _).
      destruct Hpre as (Hw & Hne & _). congruence.
    + rewrite He in Hin. by destruct (Hno a).
Qed.

End NeverAccepted.

(** X7: a worker named at creation is not indexed. [createJob] puts the new
    job on the caller's list only, so for a job created with a worker other
    than the caller, [getAgentJobs] of that worker never lists the job,
    whatever happens to it later. *)
Theorem preassigned_worker_not_indexed keccak256 this s e w a d h id s1 s2 :
  counter_injective keccak256 →
  reachable keccak256 this s →
  valid_env this e →
  createJob keccak256 this e w a d h s = Ok (id, s1) →
  w ≠ address0 → w ≠ msg_sender e →
  rtc (step keccak256 this) s1 s2 →
  id ∈ getAgentJobs (msg_sender e) s2 ∧ id ∉ getAgentJobs w s2.
Proof.
  intros Hinj Hreach Hv Hcr Hw Hne Hsteps.
  pose proof (invariant_reachable _ _ Hinj _ Hreach) as Hinv.
  pose proof (ledger_reachable _ _ Hinj _ Hreach) as L.
  assert (exec keccak256 this e (CreateJob w a d h) s = Ok s1) as Hex
    by (simpl; by rewrite Hcr).
  pose proof (invariant_exec _ _ Hinj _ _ _ _ Hv Hinv Hex) as Hinv1.
  assert (reachable keccak256 this s2) as Hreach2.
  { destruct Hreach as (s0 & ? & ?). exists s0. split; [done|].
    etrans; [done|]. eapply rtc_l; [|done]. by eapply step_call. }
  pose proof (ledger_reachable _ _ Hinj _ Hreach2) as L2.
  pose proof (fresh_id keccak256 this Hinj s
                (msg_sender e) w a (block_timestamp e) Hinv) as Hfresh.
  pose proof (exec_events _ _ _ _ _ _ Hex) as Hev. simpl in Hev.
  apply createJob_Ok in Hcr as (_ & _ & _ & _ & _ & _ & Hid & t & _ & Hs1).
  rewrite <-Hid in Hfresh, Hev.
  assert (job_at s1 id = {| client := msg_sender e; worker := w; amount := a;
                            deadline := block_timestamp e + d; jobHash := h;
                            status := Created; createdAt := block_timestamp e |})
    as Hjob by (rewrite Hs1, job_at_insert; by rewrite decide_True).
  assert (preassigned w (job_at s1 id)) as Hpre
    by (rewrite Hjob; split_and!; simpl; auto).
  assert (∀ x, JobAccepted id x ∉ events s1) as Hno1.
  { intros x. rewrite Hev.
    intros [Hin|Hin]%elem_of_app.
    - destruct (ledger_accepted _ L _ _ Hin) as (j & Hj & _). congruence.
    - repeat (apply elem_of_cons in Hin as [Hin|Hin]; [done|]).
      by apply elem_of_nil in Hin. }
  pose proof (never_accepted_steps _ _ Hinj _ _ id w Hinv1 Hsteps Hpre Hno1) as Hno2.
  assert (client (job_at s2 id) = msg_sender e) as Hcl.
  { destruct (steps_frame _ _ Hinj _ _ id Hinv1 Hsteps) as (Hc & _).
    - rewrite Hjob. apply Hv.
    - by rewrite Hc, Hjob. }
  unfold getAgentJobs. split.
  - apply (ledger_index _ L2). left. exists a, h.
    eapply elem_of_prefix; [|by eapply steps_events].
    rewrite Hev. apply elem_of_app. right. by left.
  - intros [(amt & h' & Hin)|Hin]%(ledger_index _ L2).
    + destruct (ledger_created _ L2 _ _ _ _ Hin) as (j & Hj & Hc & _).
      rewrite (job_at_Some _ _ _ Hj) in Hcl. congruence.
    + by destruct (Hno2 w).
Qed.

Lemma preassigned_worker_not_indexed_witness :
  0 ∈ getAgentJobs Demo.alice
        (run Demo.keccak Demo.escrow [(Demo.at_ Demo.alice 20, CompleteJob 0)]
           Demo.assigned_job) ∧
  0 ∉ getAgentJobs Demo.bob
        (run Demo.keccak Demo.escrow [(Demo.at_ Demo.alice 20, CompleteJob 0)]
           Demo.assigned_job).
Proof.
  apply (preassigned_worker_not_indexed Demo.keccak Demo.escrow Demo.deployed
           (Demo.at_ Demo.alice 10) Demo.bob 1000000 100 "h" 0 Demo.assigned_job
           _ DemoFacts.keccak_inj DemoFacts.deployed_reachable).
  - by vm_compute.
  - by vm_compute.
  - by vm_compute.
  - by vm_compute.
  - apply run_steps. DemoFacts.valid_calls.
Defined.

(** ** The log *)

(** X8: one payout per job. In every reachable state the log holds exactly
    one payout record (JobCompleted, JobCancelled or DisputeResolved) for a
    job that is Completed, Resolved or Cancelled, and none for any other
    job or identifier. *)
Theorem single_payout keccak256 this s id :
  counter_injective keccak256 →
  reachable keccak256 this s →
  (payouts id (events s) ≤ 1)%nat ∧
  (payouts id (events s) = 1%nat ↔ terminal (status (job_at s id)) = true) ∧
  (jobs s !! id = None → payouts id (events s) = 0%nat).
Proof.
  intros Hinj Hreach.
  pose proof (ledger_payouts _ (ledger_reachable _ _ Hinj _ Hreach) id) as Hp.
  unfold terminal. split_and!.
  - rewrite Hp. destruct (active _); lia.
  - rewrite Hp. destruct (active _); simpl; split; (done || lia).
  - intros Hnone. by rewrite Hp, (job_at_None _ _ Hnone).
Qed.

Lemma single_payout_witness :
  payouts 0 (events Demo.self_paid) = 1%nat ∧
  payouts 0 (events Demo.disputed) = 0%nat.
Proof.
  destruct (single_payout Demo.keccak Demo.escrow Demo.self_paid 0
              DemoFacts.keccak_inj DemoFacts.self_paid_reachable)
    as (_ & Hone & _).
  split; [by apply Hone|by vm_compute].
Defined.

(** X9: the store, the counter and the log agree. In every reachable state
    [jobCount] is the number of stored jobs and the number of JobCreated
    records, and a job is stored under an identifier exactly when the log
    has a JobCreated record for it, which then carries the job's client,
    amount and description hash. *)
Theorem store_matches_log keccak256 this s :
  counter_injective keccak256 →
  reachable keccak256 this s →
  N.of_nat (size (jobs s)) = jobCount s ∧
  creations (events s) = size (jobs s) ∧
  (∀ id, is_Some (jobs s !! id) ↔ ∃ c amt h, JobCreated id c amt h ∈ events s) ∧
  (∀ id c amt h, JobCreated id c amt h ∈ events s →
     client (job_at s id) = c ∧ amount (job_at s id) = amt ∧
     jobHash (job_at s id) = h).
Proof.
  intros Hinj Hreach.
  pose proof (invariant_reachable _ _ Hinj _ Hreach) as Hinv.
  pose proof (ledger_reachable _ _ Hinj _ Hreach) as L.
  split_and!.
  - apply L.
  - apply L.
  - intros id. split.
    + intros [j Hj]. exists (client j), (amount j), (jobHash j).
      by apply (inv_log _ _ _ Hinv).
    + intros (c & amt & h & Hin).
      destruct (ledger_created _ L _ _ _ _ Hin) as (j & Hj & _). by exists j.
  - intros id c amt h Hin.
    destruct (ledger_created _ L _ _ _ _ Hin) as (j & Hj & ? & ? & ?).
    by rewrite (job_at_Some _ _ _ Hj).
Qed.

Lemma store_matches_log_witness :
  jobCount Demo.disputed = 1 ∧ size (jobs Demo.disputed) = 1%nat.
Proof.
  destruct (store_matches_log Demo.keccak Demo.escrow Demo.disputed
              DemoFacts.keccak_inj DemoFacts.disputed_reachable)
    as (Hc & _).
  split; [by vm_compute|]. apply Nat2N.inj. rewrite Hc. by vm_compute.
Defined.

(** X10: what [createJob] checked stays true of every stored job: its
    amount is at least [MIN_AMOUNT], its deadline lies after its creation
    time and at most [MAX_DURATION] later and fits in 256 bits, its
    description hash is not empty, and its client is neither the zero
    address nor the contract. *)
Theorem stored_job_well_formed keccak256 this s id j :
  counter_injective keccak256 →
  reachable keccak256 this s →
  jobs s !! id = Some j →
  MIN_AMOUNT ≤ amount j ∧
  createdAt j < deadline j ∧ deadline j ≤ createdAt j + MAX_DURATION ∧
  deadline j < UINT256_MOD ∧
  jobHash j ≠ "" ∧
  client j ≠ address0 ∧ client j ≠ this.
Proof.
  intros Hinj Hreach Hj.
  pose proof (invariant_reachable _ _ Hinj _ Hreach) as Hinv.
  pose proof (ledger_reachable _ _ Hinj _ Hreach) as L.
  destruct (ledger_jobs _ L _ _ Hj) as (? & ? & ? & ? & ?).
  destruct (inv_client _ _ _ Hinv _ _ Hj). by split_and!.
Qed.

Lemma stored_job_well_formed_witness :
  MIN_AMOUNT ≤ amount (job_at Demo.disputed 0) ∧
  deadline (job_at Demo.disputed 0) ≤ createdAt (job_at Demo.disputed 0) + MAX_DURATION.
Proof.
  destruct (stored_job_well_formed Demo.keccak Demo.escrow Demo.disputed 0
              (job_at Demo.disputed 0)
              DemoFacts.keccak_inj DemoFacts.disputed_reachable)
    as (Ha & _ & Hd & _); [by vm_compute|done].
Defined.

(** X11: the log, the agent lists and the job counter only grow: through
    any sequence of steps the old log is a prefix of the new one, each
    agent's old list is a prefix of the new one, and [jobCount] does not
    decrease. A successful call appends exactly the records of [emitted]
    to the log: two for [createJob], one for every other call. *)
Theorem append_only keccak256 this s s' :
  counter_injective keccak256 →
  reachable keccak256 this s →
  rtc (step keccak256 this) s s' →
  events s `prefix_of` events s' ∧
  (∀ a, getAgentJobs a s `prefix_of` getAgentJobs a s') ∧
  jobCount s ≤ jobCount s' ∧
  (∀ e c s1, exec keccak256 this e c s = Ok s1 →
     events s1 = events s ++ emitted keccak256 e c s ∧
     length (emitted keccak256 e c s)
       = match c with CreateJob _ _ _ _ => 2%nat | _ => 1%nat end).
Proof.
  intros Hinj Hreach Hsteps.
  pose proof (invariant_reachable _ _ Hinj _ Hreach) as Hinv.
  pose proof (ledger_reachable _ _ Hinj _ Hreach) as L.
  pose proof (ledger_steps _ _ Hinj _ _ Hinv L Hsteps) as L'.
  pose proof (steps_events _ _ _ _ Hsteps) as Hpre.
  split_and!.
  - done.
  - intros a. unfold getAgentJobs. by apply (steps_index keccak256 this).
  - rewrite <-(ledger_size _ L), <-(ledger_size _ L').
    rewrite <-(ledger_creations _ L), <-(ledger_creations _ L').
    destruct Hpre as [evs ->]. rewrite creations_app. lia.
  - intros e c s1 Hex. split; [by apply (exec_events _ this)|by destruct c].
Qed.

Lemma append_only_witness :
  events Demo.open_job `prefix_of` events Demo.disputed ∧
  jobCount Demo.open_job ≤ jobCount Demo.disputed.
Proof.
  destruct (append_only Demo.keccak Demo.escrow Demo.open_job Demo.disputed
              DemoFacts.keccak_inj DemoFacts.open_job_reachable)
    as (He & _ & Hc & _); [|done].
  etrans; apply run_steps; DemoFacts.valid_calls.
Defined.

(** ** Settling a job *)

(** X12: no job stays in custody for want of a call. For every stored job
    that is Created, Funded or Disputed, the client can end it with one
    call made after the resolution window ([cancelJob], [completeJob] or
    [resolveDispute], by status): the call succeeds and leaves the job in a
    terminal status. The conditions are that deadline + 7 days + 1 is still
    a 256-bit time and that the token delivers to the party that call pays,
    the worker of a Funded job and the client of a Created or Disputed
    one. *)
Theorem client_can_settle keccak256 this s id j :
  counter_injective keccak256 →
  reachable keccak256 this s →
  jobs s !! id = Some j →
  active (status j) = true →
  deadline j + RESOLUTION_PERIOD + 1 < UINT256_MOD →
  accepts (usdc s) (match status j with Funded => worker j | _ => client j end) →
  valid_env this {| msg_sender := client j;
                    block_timestamp := deadline j + RESOLUTION_PERIOD + 1 |} ∧
  ∃ c s',
    c = match status j with
        | Created => CancelJob id
        | Funded => CompleteJob id
        | _ => ResolveDispute id
        end ∧
    exec keccak256 this {| msg_sender := client j;
                           block_timestamp := deadline j + RESOLUTION_PERIOD + 1 |}
      c s = Ok s' ∧
    terminal (status (job_at s' id)) = true.
Proof.
  intros Hinj Hreach Hj Hact Hov Hpay.
  pose proof (invariant_reachable _ _ Hinj _ Hreach) as Hinv.
  pose proof (accepted_logged_reachable _ _ Hinj _ Hreach id) as Hacc.
  pose proof (amount_held _ _ s id Hinv) as Hheld.
  pose proof (job_at_Some _ _ _ Hj) as Hjob. rewrite Hjob in Hacc, Hheld.
  specialize (Hheld Hact).
  split; [apply (inv_client _ _ _ Hinv _ _ Hj)|].
  destruct (transfer_succeeds this _ _ (usdc s) Hheld Hpay) as [t Ht].
  destruct (status j) eqn:Hst; try done; eexists _, _;
    (split; [reflexivity|]); simpl.
  - split.
    + apply cancelJob_Ok. rewrite Hjob. simpl.
      split_and!; [done|done|right; lia|]. by exists t.
    + rewrite job_at_insert. by rewrite decide_True.
  - destruct (Hacc eq_refl) as [Hw _]. split.
    + apply completeJob_Ok. rewrite Hjob. simpl.
      split_and!; [done|by left|done|]. by exists t.
    + rewrite job_at_insert. by rewrite decide_True.
  - split.
    + apply resolveDispute_Ok. rewrite Hjob. simpl.
      split_and!; [done|lia|lia|]. by exists t.
    + rewrite job_at_insert. by rewrite decide_True.
Qed.

Lemma client_can_settle_witness :
  ∃ s', exec Demo.keccak Demo.escrow
          {| msg_sender := Demo.alice; block_timestamp := 110 + RESOLUTION_PERIOD + 1 |}
          (ResolveDispute 0) Demo.disputed = Ok s' ∧
        terminal (status (job_at s' 0)) = true.
Proof.
  destruct (client_can_settle Demo.keccak Demo.escrow Demo.disputed 0
              (job_at Demo.disputed 0)
              DemoFacts.keccak_inj DemoFacts.disputed_reachable)
    as (_ & c & s' & -> & Hex & Hterm);
    [by vm_compute|by vm_compute|by vm_compute| |].
  { apply (bool_decide_unpack _). vm_compute. exact I. }
  by exists s'.
Defined.

Lemma rtc_edge_disputed a b :
  rtc edge a b → a = Disputed ∨ a = Resolved → b = Disputed ∨ b = Resolved.
Proof.
  induction 1 as [|a b c Hab _ IH]; [done|].
  intros Ha. apply IH. destruct Hab; destruct Ha; try done; by right.
Qed.

(** X13: a dispute can only end in a refund. Once a job is Disputed it is
    Disputed or Resolved in every later state, it keeps its worker and
    amount, and [acceptJob], [completeJob], [cancelJob] and [disputeJob]
    revert on it whoever calls them: the worker is never paid. *)
Theorem disputed_only_resolves keccak256 this s s' id :
  counter_injective keccak256 →
  reachable keccak256 this s →
  status (job_at s id) = Disputed →
  rtc (step keccak256 this) s s' →
  (status (job_at s' id) = Disputed ∨ status (job_at s' id) = Resolved) ∧
  amount (job_at s' id) = amount (job_at s id) ∧
  client (job_at s' id) = client (job_at s id) ∧
  (∀ e, ∃ err, acceptJob e id s' = Err err) ∧
  (∀ e, ∃ err, completeJob this e id s' = Err err) ∧
  (∀ e, ∃ err, cancelJob this e id s' = Err err) ∧
  (∀ e, ∃ err, disputeJob e id s' = Err err).
Proof.
  intros Hinj Hreach Hst Hsteps.
  pose proof (invariant_reachable _ _ Hinj _ Hreach) as Hinv.
  pose proof (steps_status _ _ Hinj _ _ id Hinv Hsteps) as Hpath.
  apply rtc_edge_disputed in Hpath; [|by left].
  assert (client (job_at s id) ≠ address0) as Hc.
  { apply (stored_client keccak256 this s id Hinv).
    destruct (jobs s !! id) as [j|] eqn:Hj; [by eexists|].
    by rewrite (job_at_None _ _ Hj) in Hst. }
  destruct (steps_frame _ _ Hinj _ _ id Hinv Hsteps Hc) as (? & ? & _).
  split_and!; try done.
  - intros e. destruct (acceptJob e id s') as [s2|err] eqn:Hex; [|by eexists].
    apply acceptJob_Ok in Hex as (? & _). destruct Hpath; congruence.
  - intros e. destruct (completeJob this e id s') as [s2|err] eqn:Hex; [|by eexists].
    apply completeJob_Ok in Hex as (_ & [?|?] & _); destruct Hpath; congruence.
  - intros e. destruct (cancelJob this e id s') as [s2|err] eqn:Hex; [|by eexists].
    apply cancelJob_Ok in Hex as (_ & ? & _). destruct Hpath; congruence.
  - intros e. destruct (disputeJob e id s') as [s2|err] eqn:Hex; [|by eexists].
    apply disputeJob_Ok in Hex as (_ & ? & _). destruct Hpath; congruence.
Qed.

Lemma disputed_only_resolves_witness :
  ∃ err, completeJob Demo.escrow (Demo.at_ Demo.alice 40) 0 Demo.disputed = Err err.
Proof.
  destruct (disputed_only_resolves Demo.keccak Demo.escrow Demo.disputed
              Demo.disputed 0
              DemoFacts.keccak_inj DemoFacts.disputed_reachable)
    as (_ & _ & _ & _ & Hc & _); [by vm_compute|done|].
  apply Hc.
Defined.

(** ** createJob, and whole lives of a job *)

Lemma transferFrom_allowance spender from to amt t t' :
  transferFrom spender from to amt t = Ok t' →
  allowance t' from spender = allowance t from spender - amt.
Proof.
  intros (_ & _ & ->)%transferFrom_Ok. unfold allowance at 1. simpl.
  by rewrite lookup_insert_eq.
Qed.

(** X14: [createJob] succeeds exactly when the amount is at least
    [MIN_AMOUNT], the duration is positive and at most [MAX_DURATION], the
    description hash is not empty, the counter and the deadline do not
    overflow, and the caller has the balance and has given the contract
    the allowance; the worker passed in is not looked at. A successful call
    returns the hash of caller, worker, amount, time and counter, stores the
    Created job under it, leaves every other stored job alone, counts the
    job, lists it for the caller only, and pulls the amount from the
    caller's balance and allowance into the held balance. *)
Theorem createJob_spec keccak256 this e w a d h s :
  ((∃ id s', createJob keccak256 this e w a d h s = Ok (id, s')) ↔
     MIN_AMOUNT ≤ a ∧ 0 < d ∧ d ≤ MAX_DURATION ∧ h ≠ "" ∧
     jobCount s + 1 < UINT256_MOD ∧ block_timestamp e + d < UINT256_MOD ∧
     a ≤ balanceOf (usdc s) (msg_sender e) ∧
     a ≤ allowance (usdc s) (msg_sender e) this) ∧
  (∀ id s', createJob keccak256 this e w a d h s = Ok (id, s') →
     id = keccak256 (msg_sender e) w a (block_timestamp e) (jobCount s) ∧
     getJob id s' = (msg_sender e, w, a, block_timestamp e + d, h, Created,
                     block_timestamp e) ∧
     (∀ id', id' ≠ id → job_at s' id' = job_at s id') ∧
     jobCount s' = jobCount s + 1 ∧
     getAgentJobs (msg_sender e) s' = getAgentJobs (msg_sender e) s ++ [id] ∧
     (∀ x, x ≠ msg_sender e → getAgentJobs x s' = getAgentJobs x s) ∧
     allowance (usdc s') (msg_sender e) this
       = allowance (usdc s) (msg_sender e) this - a ∧
     (msg_sender e ≠ this →
      balanceOf (usdc s') (msg_sender e) = balanceOf (usdc s) (msg_sender e) - a ∧
      held this s' = held this s + a)).
Proof.
  split.
  - split.
    + intros (id & s' & Hcr).
      apply createJob_Ok in Hcr as (? & ? & ? & ?%length_pos_iff & ? & ? & _ & t & Ht & _).
      apply transferFrom_balanceOf with (a := this) in Ht as (? & ? & _).
      by split_and!.
    + intros (? & ? & ? & ? & ? & ? & ? & ?).
      destruct (createJob_succeeds keccak256 this e w a d h s)
        as (id & s' & Hok & _); try done.
      by exists id, s'.
  - intros id s' Hcr.
    apply createJob_Ok in Hcr as (_ & _ & _ & _ & _ & _ & Hid & t & Ht & ->).
    unfold getJob, getAgentJobs, held. simpl.
    split_and!; try done.
    + rewrite job_at_insert. by rewrite decide_True.
    + intros id' Hne. rewrite job_at_insert. by rewrite decide_False.
    + rewrite agent_jobs_at_insert. by rewrite decide_True.
    + intros x Hne. rewrite agent_jobs_at_insert. by rewrite decide_False.
    + by apply transferFrom_allowance in Ht.
    + intros Hne.
      pose proof (transferFrom_balanceOf _ _ _ _ _ _ (msg_sender e) Ht) as (_ & _ & E1).
      pose proof (transferFrom_balanceOf _ _ _ _ _ _ this Ht) as (_ & _ & E2).
      rewrite E1, E2. repeat case_decide; done.
Qed.

Lemma createJob_spec_witness :
  (∃ id s', createJob Demo.keccak Demo.escrow (Demo.at_ Demo.alice 10)
              Demo.alice 1000000 100 "h" Demo.deployed = Ok (id, s')) ∧
  ¬ (∃ id s', createJob Demo.keccak Demo.escrow (Demo.at_ Demo.bob 10)
                0 1000000 100 "h" Demo.deployed = Ok (id, s')).
Proof.
  split.
  - destruct (createJob_spec Demo.keccak Demo.escrow (Demo.at_ Demo.alice 10)
                Demo.alice 1000000 100 "h" Demo.deployed) as (Hiff & _).
    apply Hiff. vm_compute. by split_and!.
  - destruct (createJob_spec Demo.keccak Demo.escrow (Demo.at_ Demo.bob 10)
                0 1000000 100 "h" Demo.deployed) as (Hiff & _).
    intros Hex. apply Hiff in Hex as (_ & _ & _ & _ & _ & _ & Hbal & _).
    by vm_compute in Hbal.
Defined.

(** X15: create, accept, complete. When a client creates an open job, a
    worker accepts it and the client's [completeJob] goes through, the
    completing caller is the creator, the worker is another account, the
    job is Completed, the held balance is what it was before the job, the
    client has paid exactly the amount and the worker has received exactly
    the amount; no other balance has moved. *)
Theorem create_accept_complete keccak256 this s e1 e2 e3 a d h id s1 s2 s3 :
  msg_sender e1 ≠ this → msg_sender e2 ≠ this →
  createJob keccak256 this e1 address0 a d h s = Ok (id, s1) →
  acceptJob e2 id s1 = Ok s2 →
  completeJob this e3 id s2 = Ok s3 →
  msg_sender e3 = msg_sender e1 ∧ msg_sender e2 ≠ msg_sender e1 ∧
  status (job_at s3 id) = Completed ∧ worker (job_at s3 id) = msg_sender e2 ∧
  held this s3 = held this s ∧
  balanceOf (usdc s3) (msg_sender e1) + a = balanceOf (usdc s) (msg_sender e1) ∧
  balanceOf (usdc s3) (msg_sender e2) = balanceOf (usdc s) (msg_sender e2) + a ∧
  (∀ x, x ≠ msg_sender e1 → x ≠ msg_sender e2 → x ≠ this →
     balanceOf (usdc s3) x = balanceOf (usdc s) x).
Proof.
  intros H1 H2 Hcr Hacc Hco.
  apply createJob_Ok in Hcr as (_ & _ & _ & _ & _ & _ & _ & t1 & Ht1 & ->).
  apply acceptJob_Ok in Hacc as (_ & _ & Hne & _ & ->).
  apply completeJob_Ok in Hco as (Hc & _ & _ & t3 & Ht3 & ->).
  unfold held, job_at in *. simpl in *.
  rewrite ?lookup_insert_eq in *. simpl in *.
  pose proof (λ x, proj2 (proj2 (transferFrom_balanceOf _ _ _ _ _ _ x Ht1))) as B1.
  pose proof (proj1 (transferFrom_balanceOf _ _ _ _ _ _ this Ht1)) as Hle.
  pose proof (λ x, transfer_balanceOf _ _ _ _ _ x Ht3) as B3.
  split_and!; try done.
  - rewrite B3, B1. repeat case_decide; try done; lia.
  - rewrite B3, B1. repeat case_decide; try done; lia.
  - rewrite B3, B1. repeat case_decide; try done; lia.
  - intros x ? ? ?. rewrite B3, B1. repeat case_decide; try done; lia.
Qed.

Lemma create_accept_complete_witness :
  ∃ s3, completeJob Demo.escrow (Demo.at_ Demo.alice 50) 0 Demo.accepted = Ok s3 ∧
        held Demo.escrow s3 = held Demo.escrow Demo.deployed ∧
        balanceOf (usdc s3) Demo.bob = balanceOf (usdc Demo.deployed) Demo.bob + 1000000.
Proof.
  destruct (completeJob Demo.escrow (Demo.at_ Demo.alice 50) 0 Demo.accepted)
    as [s3|err] eqn:Hco; [|by vm_compute in Hco].
  exists s3. split; [done|].
  destruct (create_accept_complete Demo.keccak Demo.escrow Demo.deployed
              (Demo.at_ Demo.alice 10) (Demo.at_ Demo.bob 20) (Demo.at_ Demo.alice 50)
              1000000 100 "h" 0 Demo.open_job Demo.accepted s3)
    as (_ & _ & _ & _ & Hh & _ & Hb & _);
    [by vm_compute|by vm_compute|by vm_compute|by vm_compute|exact Hco|].
  by split.
Defined.

(** X16: create, cancel. When the creator's [cancelJob] goes through right
    after [createJob] (on an open job at any time, on a job with a worker
    only after the deadline), every balance of the token is what it was
    before the job was created: the refund is the whole amount. *)
Theorem create_cancel_refunds keccak256 this s e1 e2 w a d h id s1 s2 :
  msg_sender e1 ≠ this →
  createJob keccak256 this e1 w a d h s = Ok (id, s1) →
  cancelJob this e2 id s1 = Ok s2 →
  msg_sender e2 = msg_sender e1 ∧
  (w = address0 ∨ block_timestamp e1 + d < block_timestamp e2) ∧
  status (job_at s2 id) = Cancelled ∧
  (∀ x, balanceOf (usdc s2) x = balanceOf (usdc s) x).
Proof.
  intros H1 Hcr Hca.
  apply createJob_Ok in Hcr as (_ & _ & _ & _ & _ & _ & _ & t1 & Ht1 & ->).
  apply cancelJob_Ok in Hca as (Hc & _ & Hw & t2 & Ht2 & ->).
  unfold job_at in *. simpl in *.
  rewrite ?lookup_insert_eq in *. simpl in *.
  pose proof (λ x, proj2 (proj2 (transferFrom_balanceOf _ _ _ _ _ _ x Ht1))) as B1.
  pose proof (proj1 (transferFrom_balanceOf _ _ _ _ _ _ this Ht1)) as Hle.
  pose proof (λ x, transfer_balanceOf _ _ _ _ _ x Ht2) as B2.
  split_and!; try done.
  intros x. rewrite B2, B1. repeat case_decide; subst; try done; lia.
Qed.

Lemma create_cancel_refunds_witness :
  ∃ s2, cancelJob Demo.escrow (Demo.at_ Demo.alice 11) 0 Demo.open_job = Ok s2 ∧
        balanceOf (usdc s2) Demo.alice = 5000000.
Proof.
  destruct (cancelJob Demo.escrow (Demo.at_ Demo.alice 11) 0 Demo.open_job)
    as [s2|err] eqn:Hca; [|by vm_compute in Hca].
  exists s2. split; [done|].
  destruct (create_cancel_refunds Demo.keccak Demo.escrow Demo.deployed
              (Demo.at_ Demo.alice 10) (Demo.at_ Demo.alice 11)
              0 1000000 100 "h" 0 Demo.open_job s2)
    as (_ & _ & _ & Hb); [by vm_compute|by vm_compute|exact Hca|].
  by rewrite Hb.
Defined.

(** ** The client: status names and the command line *)

(** X17: the client names every status the contract can return. For each
    status, [JOB_STATUS] at the status's [uint8] code is the name the
    contract's enum gives it; two statuses never share a name; and the
    table has an entry at an index exactly when the index is the code of a
    status. *)
Theorem status_names_match :
  (∀ st, status_name st = Some (enum_name st)) ∧
  (∀ st st', status_name st = status_name st' → st = st') ∧
  (∀ n, is_Some (JOB_STATUS !! n) ↔ ∃ st, status_code st = n).
Proof.
  split_and!.
  - by intros [].
  - by intros [] [].
  - intros n. split.
    + intros [name Hn].
      do 6 (destruct n as [|n];
            [first [by exists Created | by exists Funded | by exists Completed
                   | by exists Disputed | by exists Resolved | by exists Cancelled]|]).
      done.
    + intros [[] <-]; by eexists.
Qed.

Lemma strip_dashes_flag k : strip_dashes ("--" +:+ k) = k.
Proof. done. Qed.

Lemma parseArgs_cons cmd l : parseArgs (cmd :: l) = parse_loop l ∅.
Proof. unfold parseArgs. simpl. by rewrite drop_0. Qed.

Lemma parse_loop_flags pairs acc :
  parse_loop (flags pairs) acc
  = foldl (λ m p, set_prop p.1 (Some p.2) m) acc pairs.
Proof.
  revert acc. induction pairs as [|[k v] pairs IH]; intros acc; [done|].
  simpl. apply IH.
Qed.

Lemma parse_loop_flags_trailing pairs f acc :
  parse_loop (flags pairs ++ [f]) acc
  = set_prop (strip_dashes f) None
      (foldl (λ m p, set_prop p.1 (Some p.2) m) acc pairs).
Proof.
  revert acc. induction pairs as [|[k v] pairs IH]; intros acc; [done|].
  simpl. apply IH.
Qed.

Lemma set_prop_lookup key v m :
  key ≠ "__proto__" → set_prop key v m !! key = Some v.
Proof.
  intros Hk. unfold set_prop. rewrite decide_False by done.
  apply lookup_insert_eq.
Qed.

Lemma set_prop_lookup_ne key key' v m :
  key ≠ key' → set_prop key v m !! key' = m !! key'.
Proof.
  intros Hk. unfold set_prop. case_decide; [done|]. by apply lookup_insert_ne.
Qed.

Lemma foldl_set_prop_absent (pairs : list (string * string)) k m :
  k ∉ pairs.*1 →
  foldl (λ m p, set_prop p.1 (Some p.2) m) m pairs !! k = m !! k.
Proof.
  revert m. induction pairs as [|[k' v'] pairs IH]; intros m Hk; [done|].
  simpl in *. apply not_elem_of_cons in Hk as [Hne Hk].
  rewrite IH by done. by apply set_prop_lookup_ne.
Qed.

(** [param] is the read of a property for every name that
    [Object.prototype] does not define. *)
Lemma read_prop_param name params :
  name ∉ Object_prototype →
  read_prop name params
  = match param name params with Some v => JsString v | None => JsUndefined end.
Proof.
  intros Hname. unfold read_prop, param.
  destruct (params !! name) as [[v|]|]; simpl; [done|done|].
  by rewrite decide_False.
Qed.

(** X18: what [parseArgs] reads from [cmd --k1 v1 --k2 v2 ...]. The first
    argument (the command) is skipped, whatever it is. A flag reads as the
    value that follows its last occurrence, values being taken as they come
    (also when they look like flags). A flag that does not occur reads as
    [undefined], unless its name is one [Object.prototype] defines
    ([toString], [constructor], ...): such a name reads as the inherited
    member. None of the seven names the client reads is inherited, and for
    those [param] is the read. *)
Theorem parseArgs_flags cmd (pairs rest : list (string * string)) k v :
  k ≠ "__proto__" →
  k ∉ rest.*1 →
  read_prop k (parseArgs (cmd :: flags (pairs ++ (k, v) :: rest))) = JsString v ∧
  (k ∉ pairs.*1 →
   read_prop k (parseArgs (cmd :: flags (pairs ++ rest)))
   = if decide (k ∈ Object_prototype) then JsInherited k else JsUndefined) ∧
  (k ∉ Object_prototype →
   param k (parseArgs (cmd :: flags (pairs ++ (k, v) :: rest))) = Some v ∧
   (k ∉ pairs.*1 → param k (parseArgs (cmd :: flags (pairs ++ rest))) = None)) ∧
  Forall (λ name, name ∉ Object_prototype)
    ["network"; "worker"; "amount"; "duration"; "description"; "job"; "address"] ∧
  (∀ cmd' l, parseArgs (cmd' :: l) = parseArgs (cmd :: l)).
Proof.
  intros Hk Hrest.
  assert (parseArgs (cmd :: flags (pairs ++ (k, v) :: rest)) !! k = Some (Some v))
    as Hset.
  { rewrite parseArgs_cons, parse_loop_flags, foldl_app. simpl.
    rewrite foldl_set_prop_absent by done.
    by rewrite set_prop_lookup. }
  assert (k ∉ pairs.*1 → parseArgs (cmd :: flags (pairs ++ rest)) !! k = None)
    as Hunset.
  { intros Hpairs. rewrite parseArgs_cons, parse_loop_flags, foldl_set_prop_absent.
    - by rewrite lookup_empty.
    - rewrite fmap_app. intros [?|?]%elem_of_app; done. }
  split_and!.
  - unfold read_prop. by rewrite Hset.
  - intros Hpairs. unfold read_prop. by rewrite Hunset.
  - intros _. unfold param. split; [by rewrite Hset|].
    intros Hpairs. by rewrite Hunset.
  - apply (bool_decide_unpack _). by vm_compute.
  - intros cmd' l. by rewrite !parseArgs_cons.
Qed.

Lemma parseArgs_flags_witness :
  read_prop "amount" (parseArgs ["create"; "--amount"; "10"; "--job"; "--x";
                                 "--amount"; "20"]) = JsString "20" ∧
  read_prop "job" (parseArgs ["create"; "--amount"; "10"; "--job"; "--x";
                              "--amount"; "20"]) = JsString "--x" ∧
  read_prop "network" (parseArgs ["create"; "--amount"; "10"; "--job"; "--x"])
    = JsUndefined ∧
  read_prop "toString" (parseArgs ["create"; "--amount"; "10"; "--job"; "--x"])
    = JsInherited "toString".
Proof.
  split_and!.
  - apply (parseArgs_flags "create" [("amount", "10"); ("job", "--x")] []
             "amount" "20"); [done|]. by intros ?%elem_of_nil.
  - apply (parseArgs_flags "create" [("amount", "10")] [("amount", "20")]
             "job" "--x"); [done|].
    intros [?|?%elem_of_nil]%elem_of_cons; done.
  - apply (parseArgs_flags "create" [("amount", "10"); ("job", "--x")] []
             "network" ""); [done| |].
    + by intros ?%elem_of_nil.
    + intros [?|[?|?%elem_of_nil]%elem_of_cons]%elem_of_cons; done.
  - apply (parseArgs_flags "create" [("amount", "10"); ("job", "--x")] []
             "toString" ""); [done| |].
    + by intros ?%elem_of_nil.
    + intros [?|[?|?%elem_of_nil]%elem_of_cons]%elem_of_cons; done.
Defined.

(** X19: the edges of [parseArgs]. With no argument, or the command only,
    the result is empty. A last flag without a value reads as [undefined],
    even if it had a value earlier. The two dashes are optional and only
    one leading pair is removed; and the key [__proto__] is never stored. *)
Theorem parseArgs_edges cmd (pairs : list (string * string)) f k l :
  strip_dashes f ≠ "__proto__" →
  parseArgs [] = ∅ ∧ parseArgs [cmd] = ∅ ∧
  param (strip_dashes f) (parseArgs (cmd :: flags pairs ++ [f])) = None ∧
  (strip_dashes k = k → parseArgs (cmd :: ("--" +:+ k) :: l) = parseArgs (cmd :: k :: l)) ∧
  strip_dashes ("--" +:+ k) = k ∧
  parseArgs (cmd :: flags pairs ++ ["--__proto__"; k])
    = parseArgs (cmd :: flags pairs).
Proof.
  intros Hf. unfold param. rewrite !parseArgs_cons. split_and!; try done.
  - rewrite parse_loop_flags_trailing. by rewrite set_prop_lookup.
  - intros Hk. destruct l as [|v l]; simpl; by rewrite Hk.
  - rewrite !parse_loop_flags.
    change ["--__proto__"; k] with (flags [("__proto__", k)]).
    revert pairs. generalize (∅ : gmap string (option string)).
    intros m pairs. revert m.
    induction pairs as [|[k' v'] pairs IH]; intros m; [done|]. simpl. apply IH.
Qed.

Lemma parseArgs_edges_witness :
  param "network" (parseArgs ["status"; "--network"; "base"; "--network"]) = None ∧
  parseArgs ["status"; "--job"; "0x1"] = parseArgs ["status"; "job"; "0x1"].
Proof.
  destruct (parseArgs_edges "status" [("network", "base")] "--network" "job" ["0x1"])
    as (_ & _ & Hn & Hd & _); [done|].
  split; [exact Hn|by apply Hd].
Defined.

(** ** Where the funds can go *)

(** X20: only the caller of [createJob] pays, and only a job's own parties
    are paid. If a successful call lowers the balance of an account other
    than the contract, the call is [createJob] and the account is its
    caller; if it raises the balance of an account other than the contract,
    the account is the worker of the job [completeJob] was called on, or
    the client of the job [cancelJob] or [resolveDispute] was called on.
    [acceptJob] and [disputeJob] move nothing. *)
Theorem funds_flow keccak256 this e c s s' x :
  exec keccak256 this e c s = Ok s' →
  x ≠ this →
  (balanceOf (usdc s') x < balanceOf (usdc s) x →
   x = msg_sender e ∧ ∃ w a d h, c = CreateJob w a d h) ∧
  (balanceOf (usdc s) x < balanceOf (usdc s') x →
   ∃ id, (c = CompleteJob id ∧ x = worker (job_at s id)) ∨
         (c = CancelJob id ∧ x = client (job_at s id)) ∨
         (c = ResolveDispute id ∧ x = client (job_at s id))) ∧
  (match c with
   | AcceptJob _ | DisputeJob _ => usdc s' = usdc s
   | _ => True
   end).
Proof.
  intros Hex Hx. destruct c as [w a d h|id|id|id|id|id]; simpl in Hex.
  - apply bind_Ok in Hex as ([id s1] & Hcr & [= <-]).
    apply createJob_Ok in Hcr as (_ & _ & _ & _ & _ & _ & _ & t & Ht & ->).
    apply transferFrom_balanceOf with (a := x) in Ht as (_ & _ & Hb).
    simpl. rewrite Hb. split_and!; [| |done].
    + intros Hlt. split; [|by eauto]. repeat case_decide; try done; lia.
    + intros Hlt. repeat case_decide; try done; lia.
  - apply acceptJob_Ok in Hex as (_ & _ & _ & _ & ->). simpl.
    split_and!; [lia|lia|done].
  - apply completeJob_Ok in Hex as (_ & _ & _ & t & Ht & ->).
    apply transfer_balanceOf with (a := x) in Ht. simpl. rewrite Ht.
    split_and!; [| |done].
    + intros Hlt. repeat case_decide; try done; lia.
    + intros Hlt. exists id. left. split; [done|].
      repeat case_decide; try done; lia.
  - apply cancelJob_Ok in Hex as (_ & _ & _ & t & Ht & ->).
    apply transfer_balanceOf with (a := x) in Ht. simpl. rewrite Ht.
    split_and!; [| |done].
    + intros Hlt. repeat case_decide; try done; lia.
    + intros Hlt. exists id. right. left. split; [done|].
      repeat case_decide; try done; lia.
  - apply disputeJob_Ok in Hex as (_ & _ & ->). simpl.
    split_and!; [lia|lia|done].
  - apply resolveDispute_Ok in Hex as (_ & _ & _ & t & Ht & ->).
    apply transfer_balanceOf with (a := x) in Ht. simpl. rewrite Ht.
    split_and!; [| |done].
    + intros Hlt. repeat case_decide; try done; lia.
    + intros Hlt. exists id. right. right. split; [done|].
      repeat case_decide; try done; lia.
Qed.

Lemma funds_flow_witness :
  ∃ s', exec Demo.keccak Demo.escrow (Demo.at_ Demo.alice 50) (CompleteJob 0)
          Demo.accepted = Ok s' ∧
        balanceOf (usdc Demo.accepted) Demo.bob < balanceOf (usdc s') Demo.bob ∧
        ¬ balanceOf (usdc s') Demo.alice < balanceOf (usdc Demo.accepted) Demo.alice.
Proof.
  destruct (exec Demo.keccak Demo.escrow (Demo.at_ Demo.alice 50) (CompleteJob 0)
              Demo.accepted) as [s'|err] eqn:Hex; [|by vm_compute in Hex].
  exists s'. split; [done|].
  destruct (funds_flow Demo.keccak Demo.escrow (Demo.at_ Demo.alice 50)
              (CompleteJob 0) Demo.accepted s' Demo.alice Hex)
    as (Hlow & _); [by vm_compute|].
  split.
  - vm_compute in Hex. injection Hex as <-. by vm_compute.
  - intros Hlt. by destruct (Hlow Hlt) as (_ & w & a & d & h & ?).
Defined.



Lemma elem_of_signing c :
  c ∈ signing_commands ↔
  c = "create" ∨ c = "accept" ∨ c = "complete" ∨ c = "cancel" ∨ c = "dispute".
Proof. unfold signing_commands. rewrite !elem_of_cons, elem_of_nil. tauto. Qed.

Lemma elem_of_commands c :
  c ∈ signing_commands ++ ["status"; "jobs"; "balance"] ↔
  c = "create" ∨ c = "accept" ∨ c = "complete" ∨ c = "cancel" ∨
  c = "dispute" ∨ c = "status" ∨ c = "jobs" ∨ c = "balance".
Proof.
  unfold signing_commands. simpl. rewrite !elem_of_cons, elem_of_nil. tauto.
Qed.

Ltac main_cases :=
  unfold main, with_key;
  match goal with
  | |- context [head ?args] => destruct (head args) as [command|] eqn:Hhd
  end;
  [repeat case_decide; subst|]; simpl.

Lemma main_throws args privateKey msg :
  main args privateKey = Throw msg →
  msg = "PRIVATE_KEY env required" ∧ truthy privateKey = None ∧
  ∃ command, head args = Some command ∧ command ∈ signing_commands.
Proof.
  main_cases; try done;
    destruct (truthy privateKey) as [key|]; try done;
    intros [= <-]; (split_and!; [done|done|]);
    eexists; (split; [done|]); apply elem_of_signing; tauto.
Qed.

Lemma main_needs_key args command :
  head args = Some command → command ∈ signing_commands →
  main args None = Throw "PRIVATE_KEY env required" ∧
  main args (Some "") = Throw "PRIVATE_KEY env required".
Proof.
  intros Hhd' Hc%elem_of_signing. unfold main, with_key. rewrite Hhd'.
  destruct Hc as [->|[->|[->|[->| ->]]]]; done.
Qed.

Lemma main_ignores_key args privateKey privateKey' :
  (∀ command, head args = Some command → command ∉ signing_commands) →
  main args privateKey' = main args privateKey.
Proof.
  main_cases; try done; intros Hno; exfalso;
    apply (Hno _ eq_refl), elem_of_signing; tauto.
Qed.

Lemma main_help args privateKey :
  main args privateKey = PrintHelp ↔
  ∀ command, head args = Some command →
    command ∉ signing_commands ++ ["status"; "jobs"; "balance"].
Proof.
  main_cases; try destruct (truthy privateKey) as [key|];
    (split;
     [ try done; intros _ c [= <-] Hc%elem_of_commands;
       destruct Hc as [?|[?|[?|[?|[?|[?|[?|?]]]]]]]; done
     | try done; intros Hno; exfalso;
       apply (Hno _ eq_refl), elem_of_commands; tauto ]).
Qed.

Lemma main_network args privateKey n :
  outcome_network (main args privateKey) = Some n →
  n = default "base-sepolia" (truthy (param "network" (parseArgs args))).
Proof.
  main_cases; try destruct (truthy privateKey) as [key|]; simpl;
    try done; by intros [= <-].
Qed.

(** X22: the key and the network in [main]. [main] throws "PRIVATE_KEY env
    required" exactly when the command is one of create, accept, complete,
    cancel, dispute and the variable is unset or empty; it throws nothing
    else, and with any other command the key is not looked at. A command
    that is none of the eight known ones, or no command at all, prints the
    help. Every call is sent to "base-sepolia" unless a non-empty
    [--network] value is read, in which case it goes to that value. *)
Theorem main_dispatch args privateKey :
  (main args privateKey = Throw "PRIVATE_KEY env required" ↔
     (∃ command, head args = Some command ∧ command ∈ signing_commands) ∧
     truthy privateKey = None) ∧
  (∀ msg, main args privateKey = Throw msg → msg = "PRIVATE_KEY env required") ∧
  ((∀ command, head args = Some command → command ∉ signing_commands) →
   ∀ privateKey', main args privateKey' = main args privateKey) ∧
  (main args privateKey = PrintHelp ↔
     ∀ command, head args = Some command →
       command ∉ signing_commands ++ ["status"; "jobs"; "balance"]) ∧
  (∀ n, outcome_network (main args privateKey) = Some n →
     n = default "base-sepolia" (truthy (param "network" (parseArgs args)))).
Proof.
  split_and!.
  - split.
    + intros (_ & ? & ?)%main_throws. done.
    + intros [(command & Hhd & Hc) Hkey].
      destruct (main_needs_key args command Hhd Hc) as [Hn He].
      destruct privateKey as [[|a k]|]; done.
  - by intros msg (? & _)%main_throws.
  - intros Hno key'. by apply main_ignores_key.
  - apply main_help.
  - intros n. apply main_network.
Qed.

Lemma main_dispatch_witness :
  main ["accept"; "--job"; "0x1"] None = Throw "PRIVATE_KEY env required" ∧
  main ["status"; "--job"; "0x1"; "--network"] None = CallGetJob (Some "0x1") "base-sepolia" ∧
  main ["deploy"] (Some "0xkey") = PrintHelp.
Proof.
  destruct (main_dispatch ["accept"; "--job"; "0x1"] None) as (Hkey & _).
  destruct (main_dispatch ["deploy"] (Some "0xkey")) as (_ & _ & _ & Hhelp & _).
  split_and!.
  - apply Hkey. split; [|done]. exists "accept". split; [done|].
    unfold signing_commands. rewrite !elem_of_cons. tauto.
  - by vm_compute.
  - apply Hhelp. intros c [= <-]. unfold signing_commands. simpl.
    rewrite !elem_of_cons, elem_of_nil. intros [?|[?|[?|[?|[?|[?|[?|[?|?]]]]]]]]; done.
Defined.
